(** * Local LLM service (node-llama-cpp sidecar): model lifecycle and
      inference orchestration

    Shallow embedding of the service module [src/unnamed/part_000]
    (the "Local LLM Service using node-llama-cpp") and the properties of
    its lifecycle manager, progress bus and request-shaping helpers.

    Layout:
    - [JS]       : the JavaScript string primitives the service relies on
                   (UTF-16 code units, [trim], [slice], [split], the
                   regular expressions that occur in the source);
    - [Config]   : the constants of [CONFIG] and [MODEL_SIZES];
    - [Numerics] : the double-precision constants of the size check;
    - [Shaping]  : [estimateTokens], [truncateForContext], [chunkText];
    - [Service]  : module state, the progress bus, the asynchronous
                   operations ([loadModel], [chat], [summarize], ...);
    - [Catalogue]  : what the service reports about itself
                     ([getAvailableModels], [getStatus]);
    - [Similarity] : [cosineSimilarity], in double precision;
    - [Spec]     : the vocabulary the statements are written in;
    - [Fixtures] : sample worlds and environments;
    - [ShapingProofs], [ServiceProofs], [CatalogueProofs],
      [SimilarityProofs] : the properties and their proofs. *)

From Stdlib Require Import String Ascii List ZArith NArith Lia Bool.
From Stdlib Require Import DecimalString QArith Floats Uint63.
Import ListNotations.

Set Warnings "-register-all".

Close Scope Q_scope.
Open Scope list_scope.

(* ================================================================== *)
(** * JavaScript strings *)
(* ================================================================== *)

Module JS.

(** A JavaScript string is a finite sequence of UTF-16 code units;
    [length], [slice], [split], [trim] and the regular expressions of the
    source (none has the [u] flag) all work on code units. *)
Definition jsstring : Set := list N.

(** An ASCII literal of the source as a [jsstring]. *)
Definition lit (s : string) : jsstring := map N_of_ascii (list_ascii_of_string s).

Definition LF : N := 10.
Definition nl : jsstring := [LF].
Definition dquote : jsstring := [34%N].

(** [s.length]. *)
Definition strlen (s : jsstring) : Z := Z.of_nat (List.length s).

(** Truthiness of a string value: only the empty string is falsy. *)
Definition truthy (s : jsstring) : bool :=
  match s with [] => false | _ :: _ => true end.

Fixpoint streq (a b : jsstring) : bool :=
  match a, b with
  | [], [] => true
  | c :: a', d :: b' => (c =? d)%N && streq a' b'
  | _, _ => false
  end.

(** ECMAScript WhiteSpace and LineTerminator code points: what
    [String.prototype.trim] strips and what [\s] matches. *)
Definition isWhiteSpace (c : N) : bool :=
  ((9 <=? c) && (c <=? 13) || (c =? 32) || (c =? 160) || (c =? 5760)
   || (8192 <=? c) && (c <=? 8202) || (c =? 8232) || (c =? 8233)
   || (c =? 8239) || (c =? 8287) || (c =? 12288) || (c =? 65279))%N.

(** LineTerminator: what [.] (without the [s] flag) refuses. *)
Definition isLineTerminator (c : N) : bool :=
  ((c =? 10) || (c =? 13) || (c =? 8232) || (c =? 8233))%N.

(** [\d]. *)
Definition isDigit (c : N) : bool := ((48 <=? c) && (c <=? 57))%N.

Fixpoint trimStart (s : jsstring) : jsstring :=
  match s with
  | [] => []
  | c :: s' => if isWhiteSpace c then trimStart s' else s
  end.

Definition trimEnd (s : jsstring) : jsstring := rev (trimStart (rev s)).

(** [s.trim()]. *)
Definition trim (s : jsstring) : jsstring := trimEnd (trimStart s).

(** [s.slice(start, stop)]; [stop = None] is the one-argument form.  A
    negative index counts from the end, every index is clamped to
    [0 .. length], and an empty range gives the empty string.  (JavaScript's
    [-0] is [0]: [s.slice(-0)] is the whole string.) *)
Definition slice (s : jsstring) (start : Z) (stop : option Z) : jsstring :=
  let len := strlen s in
  let clamp (i : Z) := if (i <? 0)%Z then Z.max (len + i) 0 else Z.min i len in
  let from := clamp start in
  let to := match stop with Some e => clamp e | None => len end in
  firstn (Z.to_nat (to - from)) (skipn (Z.to_nat from) s).

(** [s.startsWith(p)]. *)
Fixpoint startsWith (s p : jsstring) : bool :=
  match p, s with
  | [], _ => true
  | _ :: _, [] => false
  | c :: p', d :: s' => (c =? d)%N && startsWith s' p'
  end.

(** [s.includes(sub)]. *)
Fixpoint includes (s sub : jsstring) : bool :=
  startsWith s sub ||
  match s with
  | [] => false
  | _ :: s' => includes s' sub
  end.

(** [parts.join(sep)]. *)
Fixpoint join (sep : jsstring) (parts : list jsstring) : jsstring :=
  match parts with
  | [] => []
  | [x] => x
  | x :: rest => x ++ sep ++ join sep rest
  end.

Definition consHead (c : N) (parts : list jsstring) : list jsstring :=
  match parts with
  | [] => [[c]]
  | h :: t => (c :: h) :: t
  end.

(** [s.split(sep)] for a one-code-unit separator. *)
Fixpoint splitOn (sep : N) (s : jsstring) : list jsstring :=
  match s with
  | [] => [[]]
  | c :: s' => if (c =? sep)%N then [] :: splitOn sep s' else consHead c (splitOn sep s')
  end.

Definition startsWithLF (s : jsstring) : bool :=
  match s with
  | c :: _ => (c =? LF)%N
  | [] => false
  end.

(** [s.split(/\n\n+/)]: the separators are the maximal runs of two or more
    line feeds.  [inSep] is set while the scan is inside such a run. *)
Fixpoint splitBlankLines (inSep : bool) (s : jsstring) : list jsstring :=
  match s with
  | [] => [[]]
  | c :: s' =>
      if (c =? LF)%N && inSep then splitBlankLines true s'
      else if (c =? LF)%N && startsWithLF s' then [] :: splitBlankLines true s'
      else consHead c (splitBlankLines false s')
  end.

Definition splitParagraphs (s : jsstring) : list jsstring := splitBlankLines false s.

(** The longest prefix [.+] can match. *)
Fixpoint dotRun (s : jsstring) : jsstring :=
  match s with
  | [] => []
  | c :: s' => if isLineTerminator c then [] else c :: dotRun s'
  end.

(** [(.+)] at the head of [s]. *)
Definition matchDotPlus (s : jsstring) : option jsstring :=
  match dotRun s with
  | [] => None
  | r => Some r
  end.

(** [\s*(.+)] at the head of [s]: the star is greedy and gives code units
    back one at a time when [(.+)] finds nothing to match. *)
Fixpoint matchWsThenDot (s : jsstring) : option jsstring :=
  match s with
  | [] => None
  | c :: s' =>
      if isWhiteSpace c
      then match matchWsThenDot s' with
           | Some r => Some r
           | None => matchDotPlus s
           end
      else matchDotPlus s
  end.

(** [\d+\.] at the head of [s]; the result is what follows the dot. *)
Fixpoint matchDigitsDot (seenDigit : bool) (s : jsstring) : option jsstring :=
  match s with
  | [] => None
  | c :: s' =>
      if isDigit c then matchDigitsDot true s'
      else if seenDigit && (c =? 46)%N then Some s'
      else None
  end.

(** The whole pattern anchored at the head of [s]: the optional,
    non-capturing numbering group (digits, a dot, white space) tried first,
    then capture group 1, which is [(.+)]. *)
Definition matchCategoryAt (s : jsstring) : option jsstring :=
  match match matchDigitsDot false s with
        | Some rest => matchWsThenDot rest
        | None => None
        end with
  | Some r => Some r
  | None => matchDotPlus s
  end.

(** [line.match(re)] for the numbered-line pattern of [batchCategorize]
    (an optional [\d+\.] and white space, then [(.+)]): [None] is a [null]
    match, otherwise capture group 1 of the leftmost match. *)
Fixpoint matchCategoryLine (s : jsstring) : option jsstring :=
  match matchCategoryAt s with
  | Some r => Some r
  | None => match s with
            | [] => None
            | _ :: s' => matchCategoryLine s'
            end
  end.

(** The longest prefix of [s] that ends with the code unit [c]. *)
Fixpoint upToLast (c : N) (s : jsstring) : option jsstring :=
  match s with
  | [] => None
  | d :: s' =>
      match upToLast c s' with
      | Some r => Some (d :: r)
      | None => if (d =? c)%N then Some [d] else None
      end
  end.

(** [response.match(/\{[\s\S]*\}/)]: element 0 of the match, i.e. the text
    from the first opening brace that has a closing brace after it through
    the last closing brace ([[\s\S]*] is greedy). *)
Fixpoint matchBraces (s : jsstring) : option jsstring :=
  match s with
  | [] => None
  | c :: s' =>
      if (c =? 123)%N
      then match upToLast 125 s' with
           | Some r => Some (c :: r)
           | None => matchBraces s'
           end
      else matchBraces s'
  end.

(** Template-literal interpolation of an integer-valued number, for a safe
    integer (below [2^53] in absolute value): every digit is printed.
    Larger numbers are printed from their shortest round-trip digits, and
    in exponent notation from [1e21] on; the statements that interpolate a
    number a caller passes are restricted to safe integers
    ([Spec.safeInteger]). *)
Definition showZ (z : Z) : jsstring := lit (NilZero.string_of_int (Z.to_int z)).

(** The code units trimming and blank-line splitting can remove. *)
Definition stripWhiteSpace (s : jsstring) : jsstring :=
  filter (fun c => negb (isWhiteSpace c)) s.

End JS.

Import JS.

(* ================================================================== *)
(** * Configuration *)
(* ================================================================== *)

Module Config.

(** [MODEL_SIZES]: expected size in bytes of each catalogued model. *)
Definition MODEL_SIZES : list (jsstring * Z) :=
  [ (lit "llama-3.2-1b-instruct.Q4_K_M.gguf", 800000000%Z);
    (lit "qwen2.5-1.5b-instruct.Q4_K_M.gguf", 1000000000%Z);
    (lit "smollm2-1.7b-instruct.Q4_K_M.gguf", 1000000000%Z);
    (lit "qwen2.5-0.5b-instruct.Q4_K_M.gguf", 400000000%Z) ].

(** [CONFIG.MODEL_URLS]. *)
Definition MODEL_URLS : list (jsstring * jsstring) :=
  [ (lit "llama-3.2-1b-instruct.Q4_K_M.gguf",
     lit "https://huggingface.co/bartowski/Llama-3.2-1B-Instruct-GGUF/resolve/main/Llama-3.2-1B-Instruct-Q4_K_M.gguf");
    (lit "qwen2.5-1.5b-instruct.Q4_K_M.gguf",
     lit "https://huggingface.co/Qwen/Qwen2.5-1.5B-Instruct-GGUF/resolve/main/qwen2.5-1.5b-instruct-q4_k_m.gguf");
    (lit "smollm2-1.7b-instruct.Q4_K_M.gguf",
     lit "https://huggingface.co/bartowski/SmolLM2-1.7B-Instruct-GGUF/resolve/main/SmolLM2-1.7B-Instruct-Q4_K_M.gguf");
    (lit "qwen2.5-0.5b-instruct.Q4_K_M.gguf",
     lit "https://huggingface.co/Qwen/Qwen2.5-0.5B-Instruct-GGUF/resolve/main/qwen2.5-0.5b-instruct-q4_k_m.gguf") ].

Definition DEFAULT_MODEL : jsstring := lit "llama-3.2-1b-instruct.Q4_K_M.gguf".

(** [join(homedir(), '.cooldesk', 'models')], for the home directory the
    process runs with. *)
Definition MODELS_DIR (home : jsstring) : jsstring := home ++ lit "/.cooldesk/models".

Definition CONTEXT_SIZE : Z := 1024.
Definition MAX_TOKENS : Z := 256.
Definition TEMPERATURE : Q := 7 # 10.
Definition TOP_P : Q := 9 # 10.

(** The property names an object literal inherits from
    [Object.prototype]: [table[name]] is not [undefined] for them although
    the literal has no such key. *)
Definition OBJECT_PROTOTYPE : list jsstring :=
  [ lit "constructor"; lit "__proto__"; lit "hasOwnProperty"; lit "isPrototypeOf";
    lit "propertyIsEnumerable"; lit "toLocaleString"; lit "toString"; lit "valueOf";
    lit "__defineGetter__"; lit "__defineSetter__"; lit "__lookupGetter__";
    lit "__lookupSetter__" ].

Definition inherited (name : jsstring) : bool := existsb (streq name) OBJECT_PROTOTYPE.

(** Lookup of [name] among the own properties of an object literal with
    string keys, and lookup of a path in the file system.  For a name that
    is not [inherited], [None] is the [undefined] of [table[name]]. *)
Fixpoint lookup {V : Type} (table : list (jsstring * V)) (name : jsstring) : option V :=
  match table with
  | [] => None
  | (k, v) :: rest => if streq k name then Some v else lookup rest name
  end.

End Config.

(* ================================================================== *)
(** * Double-precision arithmetic of the size check *)
(* ================================================================== *)

Module Numerics.

(** The IEEE 754 binary64 value of an integer below 2^63. *)
Definition toDouble (z : Z) : float := PrimFloat.of_uint63 (Uint63.of_Z z).

(** The double nearest to 0.9, the constant of [expectedSize * 0.9]. *)
Definition ninetyPercent : float := 0x1.ccccccccccccdp-1%float.

(** [Math.round(x)] of a finite double [x = m * 2^e]: the integer nearest
    to [x], a tie going up, i.e. [floor(x + 1/2)] computed exactly. *)
Definition mathRound (x : float) : Z :=
  match Prim2SF x with
  | S754_finite negative m e =>
      let n := if negative then Z.neg m else Z.pos m in
      if (0 <=? e)%Z then (n * 2 ^ e)%Z
      else ((2 * n + 2 ^ (- e)) / (2 * 2 ^ (- e)))%Z
  | _ => 0%Z
  end.

End Numerics.

(* ================================================================== *)
(** * Token-budget shaping *)
(* ================================================================== *)

Module Shaping.

(** [Math.ceil(text.length / 4)]. *)
Definition estimateTokens (text : jsstring) : Z := (strlen text + 3) / 4.

Definition truncationMarker : jsstring :=
  nl ++ nl ++ lit "[... content truncated for length ...]" ++ nl ++ nl.

(** [truncateForContext(text, maxTokens)]. *)
Definition truncateForContext (text : jsstring) (maxTokens : Z) : jsstring :=
  let estimated := estimateTokens text in
  if (estimated <=? maxTokens)%Z then text
  else
    let maxChars := (maxTokens * 4)%Z in
    let halfChars := (maxChars / 2 - 50)%Z in
    let beginning := slice text 0 (Some halfChars) in
    let ending := slice text (- halfChars) None in
    beginning ++ truncationMarker ++ ending.

(** One iteration of the paragraph loop of [chunkText]; the loop state is
    [(chunks, currentChunk)]. *)
Definition chunkStep (maxChars : Z) (st : list jsstring * jsstring) (para : jsstring)
  : list jsstring * jsstring :=
  let '(chunks, currentChunk) := st in
  if (strlen (currentChunk ++ para) >? maxChars)%Z && (strlen currentChunk >? 0)%Z
  then (chunks ++ [trim currentChunk], para)
  else (chunks, currentChunk ++ (if truthy currentChunk then nl ++ nl else []) ++ para).

(** [chunkText(text, maxTokensPerChunk)]. *)
Definition chunkText (text : jsstring) (maxTokensPerChunk : Z) : list jsstring :=
  let maxChars := (maxTokensPerChunk * 4)%Z in
  let paragraphs := splitParagraphs text in
  let '(chunks, currentChunk) := fold_left (chunkStep maxChars) paragraphs ([], []) in
  if truthy (trim currentChunk) then chunks ++ [trim currentChunk] else chunks.

End Shaping.


(* ================================================================== *)
(** * The service: state, effects and asynchronous operations *)
(* ================================================================== *)

Module Service.

Import Config Shaping.

(** ** Values that cross the boundary to Node and to the engine *)

(** Thrown values.  [Error] is [new Error(message)] (the service's own
    errors as well as the opaque failures of the network and of the engine),
    [TypeError] what a member access on [null] raises, [SyntaxError] what
    [JSON.parse] raises. *)
Inductive JSError : Set :=
| Error (message : jsstring)
| TypeError (message : jsstring)
| SyntaxError (message : jsstring).

(** [error.message]. *)
Definition message (e : JSError) : jsstring :=
  match e with
  | Error m | TypeError m | SyntaxError m => m
  end.

(** Handles of the native engine (node-llama-cpp objects), opaque here. *)
Definition Llama : Set := nat.
Definition Model : Set := nat.

(** A context of the engine; [getSequence] is what [context.getSequence()]
    does for this context (it throws when no sequence is left). *)
Record Context : Set := mkContext {
  contextId : nat;
  getSequence : JSError + nat
}.

(** [new LlamaChatSession({ contextSequence, systemPrompt })]. *)
Record ChatSession : Set := mkChatSession {
  contextSequence : nat;
  systemPrompt : jsstring
}.

(** The options object [chatSession.prompt] receives. *)
Record PromptOptions : Set := mkPromptOptions {
  maxTokens : Z;
  temperature : Q;
  topP : Q
}.

(** The [options] argument of [chat]: every field may be absent. *)
Record ChatOptions : Set := mkChatOptions {
  optMaxTokens : option Z;
  optTemperature : option Q;
  optTopP : option Q
}.

(** The streaming GET of [downloadModel] as the handlers see it, once the
    promise is about to settle: an ['error'] event on the request, a
    redirect response (status 301 or 302, which [handleResponse] answers
    with a new request whose course is [next]), or a final response (any
    other status) with its [content-length] ([parseInt(..) || 0]) and the
    lengths of the chunks the ['data'] events deliver before the file
    stream finishes.  An exchange that never finishes leaves the promise
    pending: the operation then stays suspended at its request. *)
Inductive HttpExchange : Set :=
| RequestError (e : JSError)
| Redirect (permanent : bool) (location : jsstring) (next : HttpExchange)
| Final (statusCode : Z) (contentLength : Z) (chunkLengths : list Z).

(** What an asynchronous operation waits for. *)
Inductive Request : Set :=
| Tick
| GetLlama
| HttpGet (url : jsstring) (dest : jsstring)
| LlamaLoadModel (l : Llama) (modelPath : jsstring) (gpuLayers : jsstring)
| ModelCreateContext (m : Model) (contextSize : Z)
| ContextDispose (c : Context)
| ModelDispose (m : Model)
| SessionPrompt (s : ChatSession) (prompt : jsstring) (opts : PromptOptions).

(** The value a request is fulfilled with. *)
Definition Answer (req : Request) : Set :=
  match req with
  | Tick => unit
  | GetLlama => Llama
  | HttpGet _ _ => HttpExchange
  | LlamaLoadModel _ _ _ => Model
  | ModelCreateContext _ _ => Context
  | ContextDispose _ => unit
  | ModelDispose _ => unit
  | SessionPrompt _ _ _ => jsstring
  end.

(** A settled promise: rejected with an error or fulfilled with a value. *)
Definition Settled (req : Request) : Set := (JSError + Answer req)%type.

(** ** Observable effects *)

Inductive ProgressType : Set := PDownload | PLoading | PLoaded | PError.

(** The arguments [notifyProgress] hands to every listener. *)
Record ProgressArgs : Set := mkProgressArgs {
  ptype : ProgressType;
  pprogress : Q;
  pmodelName : jsstring;
  perror : option jsstring
}.

Inductive ConsoleLevel : Set := Log | Warn | Err.

(** A value passed to [console.log] after the first argument. *)
Inductive LogValue : Set :=
| LogText (s : jsstring)
| LogError (e : JSError).

(** What the service does to the outside, in the order it happens: a
    console line (its first argument and the values that follow it), or
    the call of a progress listener together with what the listener
    threw, if it threw. *)
Inductive Effect : Set :=
| Console (level : ConsoleLevel) (text : jsstring) (rest : list LogValue)
| Delivered (listener : nat) (args : ProgressArgs) (threw : option JSError).

(** A registered listener: its identity as an element of the [Set], and
    its behaviour, a function of what has happened so far and of the event;
    [Some e] means the callback throws [e].  Listeners are observers: they
    do not call back into the service. *)
Record Listener : Type := mkListener {
  lid : nat;
  react : list Effect -> ProgressArgs -> option JSError
}.

(** ** Module state *)

(** The [let] variables of the module. *)
Record Globals : Set := mkGlobals {
  llama : option Llama;
  model : option Model;
  context : option Context;
  chatSession : option ChatSession;
  currentModelName : option jsstring;
  isLoading : bool;
  loadProgress : Q
}.

Record Stats : Set := mkStats { size : Z; isDirectory : bool }.

(** A path of the file system: an entry [statSync] can read, or one on
    which [statSync] throws although [existsSync] reports it. *)
Inductive FsNode : Set :=
| Entry (st : Stats)
| Faulty (e : JSError).

Definition FileSystem : Set := list (jsstring * FsNode).

Record World : Type := mkWorld {
  globals : Globals;
  progressListeners : list Listener;
  fs : FileSystem;
  homedir : jsstring;
  trace : list Effect
}.

Definition initialGlobals : Globals :=
  mkGlobals None None None None None false 0.

Definition withGlobals (f : Globals -> Globals) (w : World) : World :=
  mkWorld (f (globals w)) (progressListeners w) (fs w) (homedir w) (trace w).

Definition withFs (f : FileSystem -> FileSystem) (w : World) : World :=
  mkWorld (globals w) (progressListeners w) (f (fs w)) (homedir w) (trace w).

Definition withListeners (f : list Listener -> list Listener) (w : World) : World :=
  mkWorld (globals w) (f (progressListeners w)) (fs w) (homedir w) (trace w).

Definition record (e : Effect) (w : World) : World :=
  mkWorld (globals w) (progressListeners w) (fs w) (homedir w) (trace w ++ [e]).

Definition console (level : ConsoleLevel) (text : jsstring) (rest : list LogValue)
  : World -> World :=
  record (Console level text rest).

Definition setLlama (v : option Llama) (g : Globals) : Globals :=
  mkGlobals v (model g) (context g) (chatSession g) (currentModelName g) (isLoading g) (loadProgress g).
Definition setModel (v : option Model) (g : Globals) : Globals :=
  mkGlobals (llama g) v (context g) (chatSession g) (currentModelName g) (isLoading g) (loadProgress g).
Definition setContext (v : option Context) (g : Globals) : Globals :=
  mkGlobals (llama g) (model g) v (chatSession g) (currentModelName g) (isLoading g) (loadProgress g).
Definition setChatSession (v : option ChatSession) (g : Globals) : Globals :=
  mkGlobals (llama g) (model g) (context g) v (currentModelName g) (isLoading g) (loadProgress g).
Definition setCurrentModelName (v : option jsstring) (g : Globals) : Globals :=
  mkGlobals (llama g) (model g) (context g) (chatSession g) v (isLoading g) (loadProgress g).
Definition setIsLoading (v : bool) (g : Globals) : Globals :=
  mkGlobals (llama g) (model g) (context g) (chatSession g) (currentModelName g) v (loadProgress g).
Definition setLoadProgress (v : Q) (g : Globals) : Globals :=
  mkGlobals (llama g) (model g) (context g) (chatSession g) (currentModelName g) (isLoading g) v.

(** ** File system *)

Definition existsSync (w : World) (path : jsstring) : bool :=
  match lookup (fs w) path with
  | Some _ => true
  | None => false
  end.

(** [statSync(path)]: the stats, or the error it throws. *)
Definition statSync (w : World) (path : jsstring) : JSError + Stats :=
  match lookup (fs w) path with
  | Some (Entry st) => inr st
  | Some (Faulty e) => inl e
  | None => inl (Error (lit "ENOENT: no such file or directory"))
  end.

Fixpoint removePath (path : jsstring) (files : FileSystem) : FileSystem :=
  match files with
  | [] => []
  | (p, n) :: rest => if streq p path then removePath path rest else (p, n) :: removePath path rest
  end.

(** [unlinkSync(path)] of a file that can be removed.  (A removal that
    fails - a directory at [path], a read-only directory - is not among the
    file systems modelled here; the statements about a download are for a
    models directory in place and no file at the path.) *)
Definition unlinkSync (path : jsstring) : World -> World :=
  withFs (removePath path).

(** What a write stream leaves at [path] once [bytes] bytes went through. *)
Definition writeFile (path : jsstring) (bytes : Z) : World -> World :=
  withFs (fun files => (path, Entry (mkStats bytes false)) :: removePath path files).

(** [mkdirSync(path, { recursive: true })] in a home directory where the
    directory can be created.  (A creation that fails is not among the file
    systems modelled here; the statements about [initializeLLM] itself are
    for a models directory already in place.) *)
Definition mkdirSync (path : jsstring) : World -> World :=
  withFs (fun files => (path, Entry (mkStats 0 true)) :: files).

(** [join(CONFIG.MODELS_DIR, name)]. *)
Definition modelPathOf (w : World) (name : jsstring) : jsstring :=
  MODELS_DIR (homedir w) ++ lit "/" ++ name.

(** ** Asynchronous computations

    An [async] function runs until it returns, throws or reaches an
    [await] on a pending promise; it is resumed later, with the module
    state as it is then.  [Step] is what one such stretch ends with. *)
Inductive Step (A : Type) : Type :=
| Returned (w : World) (a : A)
| Thrown (w : World) (e : JSError)
| Awaiting (w : World) (req : Request) (k : Settled req -> World -> Step A).

Arguments Returned {A} w a.
Arguments Thrown {A} w e.
Arguments Awaiting {A} w req k.

Definition Async (A : Type) : Type := World -> Step A.

Fixpoint bindStep {A B : Type} (s : Step A) (f : A -> Async B) : Step B :=
  match s with
  | Returned w a => f a w
  | Thrown w e => Thrown w e
  | Awaiting w req k => Awaiting w req (fun r w' => bindStep (k r w') f)
  end.

Fixpoint catchStep {A : Type} (s : Step A) (h : JSError -> Async A) : Step A :=
  match s with
  | Returned w a => Returned w a
  | Thrown w e => h e w
  | Awaiting w req k => Awaiting w req (fun r w' => catchStep (k r w') h)
  end.

Definition ret {A : Type} (a : A) : Async A := fun w => Returned w a.
Definition throw {A : Type} (e : JSError) : Async A := fun w => Thrown w e.
Definition bind {A B : Type} (m : Async A) (f : A -> Async B) : Async B :=
  fun w => bindStep (m w) f.

(** [try { m } catch (e) { h e }]. *)
Definition tryCatch {A : Type} (m : Async A) (h : JSError -> Async A) : Async A :=
  fun w => catchStep (m w) h.

(** Reading the module state and the file system as they are now. *)
Definition observe : Async World := fun w => Returned w w.

(** A synchronous state change. *)
Definition perform (f : World -> World) : Async unit := fun w => Returned (f w) tt.

(** [await p] for the promise [p] of an engine or network call. *)
Definition request (req : Request) : Async (Answer req) :=
  fun w => Awaiting w req (fun r w' =>
    match r with
    | inl e => Thrown w' e
    | inr v => Returned w' v
    end).

(** The turn of the job queue every [await] takes before it continues. *)
Definition tick : Async unit :=
  fun w => Awaiting w Tick (fun _ w' => Returned w' tt).

(** [await f(..)] for a call of one of the module's own [async] functions:
    the callee runs first, and when its promise has settled the caller
    continues, or throws, one turn later. *)
Definition await {A : Type} (callee : Async A) : Async A :=
  tryCatch (bind callee (fun a => bind tick (fun _ => ret a)))
           (fun e => bind tick (fun _ => throw e)).

Declare Scope async_scope.
Delimit Scope async_scope with async.
Notation "x <- m ;; k" := (bind m (fun x => k))
  (at level 61, m at next level, right associativity) : async_scope.
Notation "m ;; k" := (bind m (fun _ => k))
  (at level 61, right associativity) : async_scope.
Open Scope async_scope.

(** The world a stretch ends in, and the request it waits for, if any. *)
Definition worldOf {A : Type} (s : Step A) : World :=
  match s with
  | Returned w _ | Thrown w _ | Awaiting w _ _ => w
  end.

Definition pending {A : Type} (s : Step A) : option Request :=
  match s with
  | Awaiting _ req _ => Some req
  | _ => None
  end.

(** What the environment (network and engine) answers to a request, given
    the requests made before it. *)
Definition Env : Type := list Request -> forall req : Request, Settled req.

(** A final outcome: the requests made, the world, and the result. *)
Record Outcome (A : Type) : Type := mkOutcome {
  requests : list Request;
  final : World;
  result : JSError + A
}.

Arguments mkOutcome {A} requests final result.
Arguments requests {A} o.
Arguments final {A} o.
Arguments result {A} o.

(** Running an operation to completion with nothing else interleaved:
    every request is answered by [env] and the operation resumes in the
    world it left. *)
Fixpoint run {A : Type} (env : Env) (history : list Request) (s : Step A) : Outcome A :=
  match s with
  | Returned w a => mkOutcome history w (inr a)
  | Thrown w e => mkOutcome history w (inl e)
  | Awaiting w req k => run env (history ++ [req]) (k (env history req) w)
  end.


(** ** Progress notifications *)

(** One turn of the loop of [notifyProgress]: the listener is called, and
    when it throws the exception is caught and reported with
    [console.warn]. *)
Definition invokeListener (args : ProgressArgs) (w : World) (l : Listener) : World :=
  match react l (trace w) args with
  | None => record (Delivered (lid l) args None) w
  | Some e =>
      console Warn (lit "[LocalLLM] Progress listener error:") [LogError e]
        (record (Delivered (lid l) args (Some e)) w)
  end.

(** [notifyProgress(type, progress, modelName, error = null)]. *)
Definition notifyProgress (type : ProgressType) (progress : Q) (modelName : jsstring)
  (error : option jsstring) (w : World) : World :=
  fold_left (invokeListener (mkProgressArgs type progress modelName error))
            (progressListeners w) w.

Definition hasListener (id : nat) (ls : list Listener) : bool :=
  existsb (fun l => Nat.eqb (lid l) id) ls.

(** [onProgress(listener)]: [Set.prototype.add] keeps insertion order and
    ignores an element that is already there. *)
Definition onProgress (listener : Listener) : World -> World :=
  withListeners (fun ls => if hasListener (lid listener) ls then ls else ls ++ [listener]).

(** The function [onProgress] returns: [progressListeners.delete(listener)]. *)
Definition removeListener (listener : Listener) : World -> World :=
  withListeners (filter (fun l => negb (Nat.eqb (lid l) (lid listener)))).

(** ** Model files *)

(** [isModelValid(modelPath, modelName)].  [expectedSize * 0.9] is exact
    for the sizes of [MODEL_SIZES] ([ServiceProofs.minSize_exact]), so
    [stats.size < minSize] is the comparison of [10 * size] with
    [9 * expectedSize]. *)
Definition isModelValid (modelPath modelName : jsstring) (w : World) : World * bool :=
  if negb (existsSync w modelPath) then (w, false)
  else
    match statSync w modelPath with
    | inl e => (console Warn (lit "[LocalLLM] Error checking model file:") [LogError e] w, false)
    | inr stats =>
        let basicCheck :=
          if (size stats <? 100000000)%Z
          then (console Log (lit "[LocalLLM] Model file suspiciously small: "
                             ++ showZ (size stats) ++ lit " bytes") [] w, false)
          else (w, true) in
        match lookup MODEL_SIZES modelName with
        | Some expectedSize =>
            if negb (expectedSize =? 0)%Z && (10 * size stats <? 9 * expectedSize)%Z
            then (console Log (lit "[LocalLLM] Model file too small: " ++ showZ (size stats)
                               ++ lit " bytes (expected ~" ++ showZ expectedSize ++ lit ")")
                    [] w, false)
            else basicCheck
        | None => basicCheck
        end
    end.

(** [deleteModel(modelPath)], for a file that can be removed (see
    [unlinkSync]): the [catch] branch of the source, which only warns, is
    for a removal that fails. *)
Definition deleteModel (modelPath : jsstring) (w : World) : World :=
  if existsSync w modelPath
  then console Log (lit "[LocalLLM] Deleted corrupted model:") [LogText modelPath]
         (unlinkSync modelPath w)
  else w.

(** [Math.round((downloadedBytes / totalBytes) * 100)] in double
    precision, for byte counts below [2^53] and [totalBytes > 0]: the
    quotient and the product are rounded to doubles before [Math.round]
    ([23 / 40 * 100] is [57.49999999999999], which rounds to 57). *)
Definition roundPercent (downloadedBytes totalBytes : Z) : Z :=
  Numerics.mathRound
    (PrimFloat.mul (PrimFloat.div (Numerics.toDouble downloadedBytes)
                                  (Numerics.toDouble totalBytes))
                   (Numerics.toDouble 100)).

(** The ['data'] handler of [downloadModel]; the state is the world and
    [downloadedBytes]. *)
Definition onData (modelName : jsstring) (onProgressCb : Z -> World -> World)
  (totalBytes : Z) (st : World * Z) (chunkLength : Z) : World * Z :=
  let '(w, downloadedBytes) := st in
  let downloadedBytes := (downloadedBytes + chunkLength)%Z in
  if (totalBytes >? 0)%Z
  then
    let progress := roundPercent downloadedBytes totalBytes in
    (notifyProgress PDownload (inject_Z progress) modelName None (onProgressCb progress w),
     downloadedBytes)
  else (w, downloadedBytes).

(** [handleResponse] and the request's ['error'] handler, over the whole
    exchange: the promise is rejected with an error or resolved with
    [modelPath]. *)
Fixpoint handleResponse (modelName modelPath : jsstring)
  (onProgressCb : Z -> World -> World) (x : HttpExchange) (w : World)
  : World * (JSError + jsstring) :=
  match x with
  | RequestError e => (w, inl e)
  | Redirect _ location next =>
      handleResponse modelName modelPath onProgressCb next
        (console Log (lit "[LocalLLM] Following redirect to:") [LogText location] w)
  | Final statusCode contentLength chunkLengths =>
      if negb (statusCode =? 200)%Z
      then (w, inl (Error (lit "Download failed: HTTP " ++ showZ statusCode)))
      else
        let totalBytes := contentLength in
        let '(w1, downloadedBytes) :=
          fold_left (onData modelName onProgressCb totalBytes) chunkLengths (w, 0%Z) in
        let w2 := writeFile modelPath downloadedBytes w1 in
        let w3 := console Log (lit "[LocalLLM] Download complete:") [LogText modelPath] w2 in
        (onProgressCb 100%Z w3, inr modelPath)
  end.

(** [downloadModel(modelName, onProgress)], for a progress callback that
    returns normally.  [createWriteStream(modelPath)] opens the file while
    the request is in flight; the file is taken to be there when the
    request is issued, which is right from the moment the open has
    completed, and only with the models directory in place
    ([Spec.modelsDirectory]): without it the stream fails and nothing
    rejects the promise. *)
Definition downloadModel (modelName : jsstring) (onProgressCb : Z -> World -> World)
  : Async jsstring :=
  fun w =>
    match lookup MODEL_URLS modelName with
    | None => Thrown w (Error (lit "Unknown model: " ++ modelName))
    | Some url =>
        if negb (truthy url) then Thrown w (Error (lit "Unknown model: " ++ modelName))
        else
          let modelPath := modelPathOf w modelName in
          let '(w1, found) :=
            if existsSync w modelPath
            then
              let '(wv, valid) := isModelValid modelPath modelName w in
              if valid
              then (onProgressCb 100%Z
                      (console Log (lit "[LocalLLM] Model already exists and is valid:")
                         [LogText modelPath] wv), true)
              else (deleteModel modelPath
                      (console Log (lit "[LocalLLM] Model file corrupted/incomplete, re-downloading...")
                         [] wv), false)
            else (w, false) in
          if found then Returned w1 modelPath
          else
            let w2 := console Log (lit "[LocalLLM] Downloading model:") [LogText modelName] w1 in
            let w3 := writeFile modelPath 0%Z w2 in
            Awaiting w3 (HttpGet url modelPath) (fun r w' =>
              match r with
              | inl e => Thrown w' e
              | inr x =>
                  let '(w'', res) := handleResponse modelName modelPath onProgressCb x w' in
                  match res with
                  | inl e => Thrown w'' e
                  | inr path => Returned w'' path
                  end
              end)
    end.

(** ** Lifecycle *)

(** [initializeLLM()]. *)
Definition initializeLLM : Async bool :=
  tryCatch
    (w <- observe ;;
     (if negb (existsSync w (MODELS_DIR (homedir w)))
      then perform (mkdirSync (MODELS_DIR (homedir w)))
      else ret tt) ;;
     l <- request GetLlama ;;
     perform (withGlobals (setLlama (Some l))) ;;
     perform (console Log (lit "[LocalLLM] Initialized llama.cpp") []) ;;
     ret true)
    (fun error =>
       perform (console Err (lit "[LocalLLM] Failed to initialize:") [LogError error]) ;;
       ret false).

(** [unloadModel()]. *)
Definition unloadModel : Async unit :=
  w <- observe ;;
  (match chatSession (globals w) with
   | Some _ => perform (withGlobals (setChatSession None))
   | None => ret tt
   end) ;;
  w <- observe ;;
  (match context (globals w) with
   | Some c => request (ContextDispose c) ;; perform (withGlobals (setContext None))
   | None => ret tt
   end) ;;
  w <- observe ;;
  (match model (globals w) with
   | Some m => request (ModelDispose m) ;; perform (withGlobals (setModel None))
   | None => ret tt
   end) ;;
  perform (withGlobals (setCurrentModelName None)) ;;
  perform (console Log (lit "[LocalLLM] Model unloaded") []).

Definition SYSTEM_PROMPT : jsstring :=
  lit "You are CoolDesk AI, a helpful desktop assistant integrated into a productivity application. Your role is to assist users with questions, tasks, and information needs."
  ++ nl ++ nl ++ lit "Guidelines:" ++ nl
  ++ lit "- Provide accurate, concise, and relevant answers" ++ nl
  ++ lit "- Be direct and get to the point quickly" ++ nl
  ++ lit "- If you don't know something, admit it honestly instead of guessing" ++ nl
  ++ lit "- Refuse requests for harmful, illegal, or unethical content" ++ nl
  ++ lit "- Keep responses brief (2-3 sentences) unless more detail is specifically requested" ++ nl
  ++ lit "- Use simple language and avoid unnecessary jargon" ++ nl
  ++ lit "- For code or technical questions, provide practical, working solutions" ++ nl ++ nl
  ++ lit "Remember: You're a local AI assistant focused on being helpful, honest, and efficient.".

Definition nullAccess (property : string) : JSError :=
  TypeError (lit "Cannot read properties of null (reading '" ++ lit property ++ lit "')").

(** The [onProgress] callback [loadModel] passes to [downloadModel]. *)
Definition downloadProgress (modelName : jsstring) (progress : Z) (w : World) : World :=
  let w1 := withGlobals (setLoadProgress (inject_Z progress * (1 # 2))%Q) w in
  notifyProgress PLoading (loadProgress (globals w1)) modelName None w1.

(** The [try] block of [loadModel], first part: "Unload previous model if
    any". *)
Definition unloadPrevious : Async unit :=
  w <- observe ;;
  match model (globals w) with
  | Some _ => await unloadModel
  | None => ret tt
  end.

(** Second part: "Ensure llama is initialized". *)
Definition ensureInitialized : Async bool :=
  w <- observe ;;
  match llama (globals w) with
  | None => await initializeLLM
  | Some _ => ret true
  end.

(** Third part: load the model, create the context and the chat session,
    and announce the result. *)
Definition loadIntoEngine (modelName modelPath : jsstring) : Async bool :=
  w <- observe ;;
  match llama (globals w) with
  | None => throw (nullAccess "loadModel")
  | Some l =>
      m <- request (LlamaLoadModel l modelPath (lit "max")) ;;
      perform (withGlobals (setModel (Some m))) ;;
      perform (withGlobals (setLoadProgress 80)) ;;
      perform (notifyProgress PLoading 80 modelName None) ;;
      w <- observe ;;
      match model (globals w) with
      | None => throw (nullAccess "createContext")
      | Some m' =>
          c <- request (ModelCreateContext m' CONTEXT_SIZE) ;;
          perform (withGlobals (setContext (Some c))) ;;
          w <- observe ;;
          match context (globals w) with
          | None => throw (nullAccess "getSequence")
          | Some c' =>
              match getSequence c' with
              | inl e => throw e
              | inr sequence =>
                  perform (withGlobals (setChatSession
                             (Some (mkChatSession sequence SYSTEM_PROMPT)))) ;;
                  perform (withGlobals (setCurrentModelName (Some modelName))) ;;
                  perform (withGlobals (setLoadProgress 100)) ;;
                  perform (withGlobals (setIsLoading false)) ;;
                  perform (notifyProgress PLoaded 100 modelName None) ;;
                  perform (console Log (lit "[LocalLLM] Model loaded successfully") []) ;;
                  ret true
              end
          end
      end
  end.

(** The [try] block of [loadModel]. *)
Definition loadModelBody (modelName modelPath : jsstring) : Async bool :=
  unloadPrevious ;;
  ensureInitialized ;;
  perform (console Log (lit "[LocalLLM] Loading model:") [LogText modelPath]) ;;
  loadIntoEngine modelName modelPath.

Definition sameModel (current : option jsstring) (modelName : jsstring) : bool :=
  match current with
  | Some name => streq name modelName
  | None => false
  end.

Definition isSome {A : Type} (o : option A) : bool :=
  match o with
  | Some _ => true
  | None => false
  end.

(** [loadModel] from the assignment [isLoading = true] to its end: the
    loading phase, i.e. the [try ... catch] statement and what precedes it
    after the download step. *)
Definition loadingPhase (modelName modelPath : jsstring) : Async bool :=
  perform (withGlobals (setIsLoading true)) ;;
  perform (withGlobals (setLoadProgress 50)) ;;
  perform (notifyProgress PLoading 50 modelName None) ;;
  tryCatch
    (loadModelBody modelName modelPath)
    (fun error =>
       perform (withGlobals (setIsLoading false)) ;;
       perform (withGlobals (setLoadProgress 0)) ;;
       perform (console Err (lit "[LocalLLM] Failed to load model:") [LogError error]) ;;
       perform (notifyProgress PError 0 modelName (Some (message error))) ;;
       throw error).

(** [loadModel(modelName)]. *)
Definition loadModel (modelName : jsstring) : Async bool :=
  fun w =>
    if isLoading (globals w) then Thrown w (Error (lit "Model is already loading"))
    else if sameModel (currentModelName (globals w)) modelName && isSome (model (globals w))
    then Returned (console Log (lit "[LocalLLM] Model already loaded:") [LogText modelName] w) true
    else
      let modelPath := modelPathOf w modelName in
      ((if negb (existsSync w modelPath)
        then
          perform (console Log (lit "[LocalLLM] Model not found, downloading...") []) ;;
          await (downloadModel modelName (downloadProgress modelName)) ;;
          ret tt
        else ret tt) ;;
       loadingPhase modelName modelPath) w.

(** ** Cleanup *)

(** [cleanup()]. *)
Definition cleanup : Async unit :=
  await unloadModel ;;
  w <- observe ;;
  (match llama (globals w) with
   | Some _ => perform (withGlobals (setLlama None))
   | None => ret tt
   end) ;;
  perform (withListeners (fun _ => [])) ;;
  perform (console Log (lit "[LocalLLM] Cleanup complete") []).

(** ** Inference *)

Definition orDefaultZ (o : option Z) (d : Z) : Z :=
  match o with
  | Some v => if (v =? 0)%Z then d else v
  | None => d
  end.

Definition orDefaultQ (o : option Q) (d : Q) : Q :=
  match o with
  | Some v => if Qeq_bool v 0 then d else v
  | None => d
  end.

Definition notLoaded : JSError := Error (lit "Model not loaded. Call loadModel() first.").

(** [chat(prompt, options)]. *)
Definition chat (prompt : jsstring) (options : ChatOptions) : Async jsstring :=
  fun w =>
    match model (globals w), chatSession (globals w) with
    | Some _, Some session =>
        request (SessionPrompt session prompt
                   (mkPromptOptions (orDefaultZ (optMaxTokens options) MAX_TOKENS)
                                    (orDefaultQ (optTemperature options) TEMPERATURE)
                                    (orDefaultQ (optTopP options) TOP_P))) w
    | _, _ => Thrown w notLoaded
    end.

Definition chatOptions (maxTok : Z) (temp : Q) : ChatOptions :=
  mkChatOptions (Some maxTok) (Some temp) None.

Definition summaryPrompt (maxLength : Z) (text : jsstring) : jsstring :=
  lit "Summarize the following text in " ++ showZ maxLength
  ++ lit " sentences or less. Be concise and capture the main points:"
  ++ nl ++ nl ++ text ++ nl ++ nl ++ lit "Summary:".

Definition chunkPrompt (chunk : jsstring) : jsstring :=
  lit "Summarize this text section in 1-2 sentences:"
  ++ nl ++ nl ++ chunk ++ nl ++ nl ++ lit "Summary:".

Definition finalPrompt (maxLength : Z) (combinedSummaries : jsstring) : jsstring :=
  lit "Combine these summaries into a coherent " ++ showZ maxLength
  ++ lit "-sentence summary:"
  ++ nl ++ nl ++ combinedSummaries ++ nl ++ nl ++ lit "Final summary:".

(** The [for] loop of [summarize]: [remaining] turns are left, the next
    one handles [chunks[i]]. *)
Fixpoint summarizeChunks (remaining i : nat) (chunks chunkSummaries : list jsstring)
  : Async (list jsstring) :=
  match remaining with
  | O => ret chunkSummaries
  | S remaining' =>
      summary <- await (chat (chunkPrompt (nth i chunks [])) (chatOptions 100 (3 # 10))) ;;
      summarizeChunks remaining' (S i) chunks (chunkSummaries ++ [trim summary])
  end.

(** [summarize(text, maxLength)]. *)
Definition summarize (text : jsstring) (maxLength : Z) : Async jsstring :=
  if negb (truthy text) || (strlen (trim text) =? 0)%Z then ret []
  else
    let estimatedTokens := estimateTokens text in
    if (estimatedTokens <? 700)%Z
    then await (chat (summaryPrompt maxLength text) (chatOptions 256 (3 # 10)))
    else
      let chunks := chunkText text 500 in
      if Nat.eqb (List.length chunks) 1
      then
        let truncated := truncateForContext text 700 in
        await (chat (summaryPrompt maxLength truncated) (chatOptions 256 (3 # 10)))
      else
        perform (console Log (lit "[LocalLLM] Summarizing " ++ showZ (Z.of_nat (List.length chunks))
                              ++ lit " chunks...") []) ;;
        chunkSummaries <- summarizeChunks (Nat.min (List.length chunks) 5) 0 chunks [] ;;
        let combinedSummaries := join (lit " ") chunkSummaries in
        await (chat (finalPrompt maxLength combinedSummaries) (chatOptions 256 (3 # 10))).

(** ** Questions about a content *)

Definition answerPrompt (question content : jsstring) : jsstring :=
  lit "Based on the following content, answer the question."
  ++ nl ++ nl ++ lit "Content:" ++ nl ++ content
  ++ nl ++ nl ++ lit "Question: " ++ question
  ++ nl ++ nl ++ lit "Answer:".

(** [answerQuestion(question, content)]. *)
Definition answerQuestion (question content : jsstring) : Async jsstring :=
  await (chat (answerPrompt question content) (chatOptions 512 (1 # 2))).

(** ** Structured output *)

(** The values [JSON.parse] produces; a number is kept as its literal. *)
Inductive JSValue : Set :=
| JNull
| JBool (b : bool)
| JNumber (literal : jsstring)
| JString (s : jsstring)
| JArray (elements : list JSValue)
| JObject (fields : list (jsstring * JSValue)).

Record Item : Set := mkItem { title : jsstring; url : jsstring }.

Record Categorized : Set := mkCategorized {
  itemTitle : jsstring;
  itemUrl : jsstring;
  category : jsstring
}.

(** [{ ...item, category }]. *)
Definition withCategory (item : Item) (c : jsstring) : Categorized :=
  mkCategorized (title item) (url item) c.

Definition unknown : jsstring := lit "unknown".

Section Orchestrator.

(** Library functions of the runtime the service calls. *)
Variable toLowerCase : jsstring -> jsstring.
Variable JSON_parse : jsstring -> JSError + JSValue.

Definition categorizePrompt (title url : jsstring) (categories : list jsstring) : jsstring :=
  lit "Categorize the following webpage into one of these categories: "
  ++ join (lit ", ") categories
  ++ nl ++ nl ++ lit "Title: " ++ title ++ nl ++ lit "URL: " ++ url
  ++ nl ++ nl ++ lit "Respond with ONLY the category name, nothing else."
  ++ nl ++ nl ++ lit "Category:".

(** [categorize(title, url, categories)]. *)
Definition categorize (title url : jsstring) (categories : list jsstring) : Async jsstring :=
  response <- await (chat (categorizePrompt title url categories) (chatOptions 32 (1 # 10))) ;;
  let category := toLowerCase (trim response) in
  ret (match find (fun c => streq (toLowerCase c) category) categories with
       | Some c => if truthy c then c else unknown
       | None => unknown
       end).

Definition commandPrompt (command : jsstring) : jsstring :=
  lit "Parse the following command and return a JSON object with the action and parameters."
  ++ nl ++ nl ++ lit "Available actions:" ++ nl
  ++ lit "- open_url: Open a URL (params: url)" ++ nl
  ++ lit "- close_tab: Close a tab (params: tabId or title match)" ++ nl
  ++ lit "- search: Search for something (params: query, type: tabs|history|bookmarks)" ++ nl
  ++ lit "- create_workspace: Create a workspace (params: name)" ++ nl
  ++ lit "- summarize: Summarize a page (params: tabId or url)" ++ nl
  ++ lit "- switch_workspace: Switch to a workspace (params: name)" ++ nl ++ nl
  ++ lit "Command: " ++ dquote ++ command ++ dquote ++ nl ++ nl
  ++ lit "Return ONLY valid JSON, no explanation:".

(** [{ action: 'unknown', raw: command }]. *)
Definition fallbackCommand (command : jsstring) : JSValue :=
  JObject [(lit "action", JString unknown); (lit "raw", JString command)].

(** [parseCommand(command)]. *)
Definition parseCommand (command : jsstring) : Async JSValue :=
  response <- await (chat (commandPrompt command) (chatOptions 128 (1 # 10))) ;;
  tryCatch
    (match matchBraces response with
     | Some jsonMatch =>
         match JSON_parse jsonMatch with
         | inr v => ret v
         | inl e => throw e
         end
     | None => throw (Error (lit "No valid JSON in response"))
     end)
    (fun e =>
       perform (console Warn (lit "[LocalLLM] Failed to parse command response:")
                  [LogText response]) ;;
       ret (fallbackCommand command)).

(** The category one response line stands for. *)
Definition matchedCategory (categories : list jsstring) (line : jsstring) : jsstring :=
  let category :=
    match matchCategoryLine line with
    | Some group1 => toLowerCase (trim group1)
    | None => unknown
    end in
  match find (fun c => streq (toLowerCase c) category || includes category (toLowerCase c))
             categories with
  | Some c => if truthy c then c else unknown
  | None => unknown
  end.

(** [batch.forEach((item, idx) => ...)] of the [try] block, from index
    [idx] on: what is pushed to [results]. *)
Fixpoint categorizeBatch (categories lines : list jsstring) (idx : nat) (batch : list Item)
  : list Categorized :=
  match batch with
  | [] => []
  | item :: rest =>
      withCategory item (matchedCategory categories (nth idx lines []))
      :: categorizeBatch categories lines (S idx) rest
  end.

(** [batch.map((item, idx) => ...)] of the prompt, from index [idx] on. *)
Fixpoint itemLines (idx : nat) (batch : list Item) : list jsstring :=
  match batch with
  | [] => []
  | item :: rest =>
      (showZ (Z.of_nat idx + 1) ++ lit ". " ++ dquote ++ title item ++ dquote
       ++ lit " - " ++ url item)
      :: itemLines (S idx) rest
  end.

Definition batchPrompt (categories : list jsstring) (batch : list Item) : jsstring :=
  lit "Categorize each URL into one of: " ++ join (lit ", ") categories
  ++ nl ++ nl ++ lit "URLs:" ++ nl ++ join nl (itemLines 0 batch)
  ++ nl ++ nl ++ lit "Reply with ONLY the category for each, one per line (e.g., "
  ++ dquote ++ lit "1. Work" ++ dquote ++ lit "):".

Definition batchSize : nat := 3.

(** The [try ... catch] statement of the loop body: what [results] is
    after the turn for [batch]. *)
Definition batchTurn (categories : list jsstring) (batch : list Item)
  (results : list Categorized) : Async (list Categorized) :=
  tryCatch
    (response <- await (chat (batchPrompt categories batch) (chatOptions 64 (1 # 10))) ;;
     let lines := splitOn LF (trim response) in
     ret (results ++ categorizeBatch categories lines 0 batch))
    (fun error =>
       perform (console Warn (lit "[LocalLLM] Batch categorization failed:")
                  [LogError error]) ;;
       ret (results ++ map (fun item => withCategory item unknown) batch)).

(** The [for] loop of [batchCategorize] from index [i] on; [turns] bounds
    the number of turns left. *)
Fixpoint batchLoop (turns i : nat) (items : list Item) (categories : list jsstring)
  (results : list Categorized) : Async (list Categorized) :=
  match turns with
  | O => ret results
  | S turns' =>
      if Nat.ltb i (List.length items)
      then
        let batch := firstn batchSize (skipn i items) in
        results' <- batchTurn categories batch results ;;
        batchLoop turns' (i + batchSize) items categories results'
      else ret results
  end.

(** [batchCategorize(items, categories)]. *)
Definition batchCategorize (items : list Item) (categories : list jsstring)
  : Async (list Categorized) :=
  if Nat.eqb (List.length items) 0 then ret []
  else batchLoop (List.length items) 0 items categories [].

End Orchestrator.

(** ** Streaming *)

(** What [chatSession.promptStream(prompt, options)] yields when it is
    iterated: the stream ends, or fails, or delivers a token and goes
    on. *)
Inductive TokenStream : Set :=
| EndOfStream
| StreamError (e : JSError)
| Token (token : jsstring) (rest : TokenStream).

Section Streaming.

(** The method of the engine's chat session, as the stream it answers
    with. *)
Variable promptStream : ChatSession -> jsstring -> PromptOptions -> TokenStream.

(** The [for await] loop of [chatStream].  [handed] holds the tokens given
    to [onToken] so far; the callback, which may keep state, is a function
    of them and of the token, and [Some e] means that it throws [e].  The
    result is the tokens handed over and what the function returns or
    throws. *)
Fixpoint consume (onToken : list jsstring -> jsstring -> option JSError)
  (stream : TokenStream) (fullResponse : jsstring) (handed : list jsstring)
  : list jsstring * (JSError + jsstring) :=
  match stream with
  | EndOfStream => (handed, inr fullResponse)
  | StreamError e => (handed, inl e)
  | Token token rest =>
      let fullResponse := fullResponse ++ token in
      match onToken handed token with
      | Some e => (handed ++ [token], inl e)
      | None => consume onToken rest fullResponse (handed ++ [token])
      end
  end.

(** [chatStream(prompt, onToken, options)]; it reads the module state in
    its guard only. *)
Definition chatStream (prompt : jsstring)
  (onToken : list jsstring -> jsstring -> option JSError) (options : ChatOptions) (w : World)
  : list jsstring * (JSError + jsstring) :=
  match model (globals w), chatSession (globals w) with
  | Some _, Some session =>
      consume onToken
        (promptStream session prompt
           (mkPromptOptions (orDefaultZ (optMaxTokens options) MAX_TOKENS)
                            (orDefaultQ (optTemperature options) TEMPERATURE)
                            (orDefaultQ (optTopP options) TOP_P)))
        [] []
  | _, _ => ([], inl notLoaded)
  end.

End Streaming.

(** ** Embeddings *)

(** An embedding context of the engine, opaque here. *)
Definition EmbeddingContext : Set := nat.

(** The calls [getEmbedding] makes to the engine. *)
Inductive EngineCall : Set :=
| CreateEmbeddingContext (m : Model)
| GetEmbeddingFor (c : EmbeddingContext) (text : jsstring)
| DisposeEmbeddingContext (c : EmbeddingContext).

Section Embedding.

(** The three methods of the engine, as what their promises settle with;
    [getEmbeddingFor] gives the [vector] of the embedding. *)
Variable createEmbeddingContext : Model -> JSError + EmbeddingContext.
Variable getEmbeddingFor : EmbeddingContext -> jsstring -> JSError + list float.
Variable disposeEmbeddingContext : EmbeddingContext -> JSError + unit.

(** [getEmbedding(text)]: the engine calls it makes, in order, and what it
    returns or throws.  It reads the module state in its guard only. *)
Definition getEmbedding (text : jsstring) (w : World)
  : list EngineCall * (JSError + list float) :=
  match model (globals w) with
  | None => ([], inl (Error (lit "Model not loaded")))
  | Some m =>
      match createEmbeddingContext m with
      | inl e => ([CreateEmbeddingContext m], inl e)
      | inr embeddingContext =>
          match getEmbeddingFor embeddingContext text with
          | inl e =>
              ([CreateEmbeddingContext m; GetEmbeddingFor embeddingContext text], inl e)
          | inr vector =>
              match disposeEmbeddingContext embeddingContext with
              | inl e =>
                  ([CreateEmbeddingContext m; GetEmbeddingFor embeddingContext text;
                    DisposeEmbeddingContext embeddingContext], inl e)
              | inr _ =>
                  ([CreateEmbeddingContext m; GetEmbeddingFor embeddingContext text;
                    DisposeEmbeddingContext embeddingContext], inr vector)
              end
          end
      end
  end.

End Embedding.

End Service.

(* ================================================================== *)
(** * What the service reports about itself *)
(* ================================================================== *)

Module Catalogue.

Import Config Service.

(** An entry of [CONFIG.MODEL_INFO] (for UI display). *)
Record ModelInfo : Set := mkModelInfo {
  name : jsstring;
  size : jsstring;
  ram : jsstring;
  quality : jsstring;
  speed : jsstring;
  description : jsstring
}.

(** [CONFIG.MODEL_INFO]. *)
Definition MODEL_INFO : list (jsstring * ModelInfo) :=
  [ (lit "llama-3.2-1b-instruct.Q4_K_M.gguf",
     mkModelInfo (lit "Llama 3.2 1B") (lit "800 MB") (lit "2-3 GB") (lit "Good") (lit "Fast")
                 (lit "Recommended - Good balance"));
    (lit "qwen2.5-1.5b-instruct.Q4_K_M.gguf",
     mkModelInfo (lit "Qwen2.5 1.5B") (lit "1 GB") (lit "2-4 GB") (lit "Good") (lit "Fast")
                 (lit "Strong reasoning ability"));
    (lit "smollm2-1.7b-instruct.Q4_K_M.gguf",
     mkModelInfo (lit "SmolLM2 1.7B") (lit "1 GB") (lit "2-4 GB") (lit "Good") (lit "Fast")
                 (lit "Efficient and capable"));
    (lit "qwen2.5-0.5b-instruct.Q4_K_M.gguf",
     mkModelInfo (lit "Qwen2.5 0.5B") (lit "400 MB") (lit "1-2 GB") (lit "Basic") (lit "Ultra Fast")
                 (lit "Ultra light, simple tasks")) ].

(** A value of the object [getAvailableModels] returns:
    [{ ...info, filename, downloaded, fileSize, isLoaded, downloadUrl }];
    [downloadUrl = None] is [undefined]. *)
Record ModelEntry : Set := mkModelEntry {
  info : ModelInfo;
  filename : jsstring;
  downloaded : bool;
  fileSize : Z;
  isLoaded : bool;
  downloadUrl : option jsstring
}.

(** The body of the loop of [getAvailableModels] for one entry of the
    catalogue. *)
Definition modelEntry (w : World) (filename : jsstring) (info : ModelInfo) : ModelEntry :=
  let modelPath := modelPathOf w filename in
  let isDownloaded := existsSync w modelPath in
  let fileSize :=
    if isDownloaded
    then match statSync w modelPath with
         | inr stats => Service.size stats
         | inl _ => 0%Z
         end
    else 0%Z in
  mkModelEntry info filename isDownloaded fileSize
               (sameModel (currentModelName (globals w)) filename)
               (lookup MODEL_URLS filename).

(** [getAvailableModels()]: the object it returns, as its properties in
    insertion order. *)
Definition getAvailableModels (w : World) : list (jsstring * ModelEntry) :=
  map (fun entry => (fst entry, modelEntry w (fst entry) (snd entry))) MODEL_INFO.

(** The object [getStatus] returns. *)
Record Status : Set := mkStatus {
  initialized : bool;
  modelLoaded : bool;
  currentModel : option jsstring;
  isLoading : bool;
  loadProgress : Q;
  modelsDir : jsstring
}.

(** [getStatus()]. *)
Definition getStatus (w : World) : Status :=
  mkStatus (isSome (llama (globals w)))
           (isSome (model (globals w)))
           (currentModelName (globals w))
           (Service.isLoading (globals w))
           (Service.loadProgress (globals w))
           (MODELS_DIR (homedir w)).

End Catalogue.

(* ================================================================== *)
(** * Cosine similarity *)
(* ================================================================== *)

Module Similarity.

(** The three accumulators of the loop of [cosineSimilarity]:
    [dotProduct], [normA], [normB]. *)
Definition Sums : Set := (float * float * float)%type.

(** One turn of the loop, for [a[i]] and [b[i]]. *)
Definition accumulate (sums : Sums) (ab : float * float) : Sums :=
  let '(dotProduct, normA, normB) := sums in
  let '(x, y) := ab in
  (dotProduct + x * y, normA + x * x, normB + y * y)%float.

(** [cosineSimilarity(a, b)] on arrays of numbers; every operation is the
    IEEE 754 binary64 one. *)
Definition cosineSimilarity (a b : list float) : float :=
  if negb (Nat.eqb (List.length a) (List.length b)) then 0%float
  else
    let '(dotProduct, normA, normB) := fold_left accumulate (combine a b) (0, 0, 0)%float in
    (dotProduct / (PrimFloat.sqrt normA * PrimFloat.sqrt normB))%float.

End Similarity.

(* ================================================================== *)
(** * Specification vocabulary *)
(* ================================================================== *)

Module Spec.

Import Config Shaping Service.

(** Two line feeds in a row: a blank-line boundary. *)
Fixpoint hasBlankLine (s : jsstring) : bool :=
  match s with
  | [] => false
  | c :: s' => (c =? LF)%N && startsWithLF s' || hasBlankLine s'
  end.

Fixpoint endsWithLF (s : jsstring) : bool :=
  match s with
  | [] => false
  | [c] => (c =? LF)%N
  | _ :: s' => endsWithLF s'
  end.

(** [Paragraphs text paragraphs]: [paragraphs] are the pieces of [text]
    between its blank-line boundaries.  A boundary is a maximal run of two
    or more line feeds: a paragraph has no two line feeds in a row, the
    paragraph before a boundary does not end with a line feed, and what
    follows a boundary does not start with one. *)
Inductive Paragraphs : jsstring -> list jsstring -> Prop :=
| paragraphs_last p :
    hasBlankLine p = false -> Paragraphs p [p]
| paragraphs_next p n rest paragraphs :
    hasBlankLine p = false -> endsWithLF p = false -> 2 <= n ->
    startsWithLF rest = false -> Paragraphs rest paragraphs ->
    Paragraphs (p ++ repeat LF n ++ rest) (p :: paragraphs).

(** What the paragraph loop appends to the current chunk. *)
Definition accumulate (currentChunk para : jsstring) : jsstring :=
  currentChunk ++ (if truthy currentChunk then nl ++ nl else []) ++ para.

(** The text of a chunk made of the paragraphs [g], before trimming. *)
Definition joinParagraphs (g : list jsstring) : jsstring := fold_left accumulate g [].

(** Greedy grouping of whole paragraphs, with the length test the loop
    applies: [GreedyChunks maxChars paragraphs closed open] says that
    reading [paragraphs] from left to right, each paragraph joins the open
    group unless the open group is non-empty text and that text followed
    directly by the paragraph - the two line feeds that will separate them
    are not counted - is longer than [maxChars], in which case the open
    group is closed and the paragraph opens the next one.  A group of
    several paragraphs can therefore be two code units longer than
    [maxChars]. *)
Inductive GreedyChunks (maxChars : Z)
  : list jsstring -> list (list jsstring) -> list jsstring -> Prop :=
| greedy_start : GreedyChunks maxChars [] [] []
| greedy_extend paragraphs closed open para :
    GreedyChunks maxChars paragraphs closed open ->
    (strlen (joinParagraphs open ++ para) <= maxChars \/ strlen (joinParagraphs open) = 0)%Z ->
    GreedyChunks maxChars (paragraphs ++ [para]) closed (open ++ [para])
| greedy_close paragraphs closed open para :
    GreedyChunks maxChars paragraphs closed open ->
    (strlen (joinParagraphs open ++ para) > maxChars)%Z ->
    (strlen (joinParagraphs open) > 0)%Z ->
    GreedyChunks maxChars (paragraphs ++ [para]) (closed ++ [open]) [para].

(** The chunks [chunkText] returns for a grouping: every closed group,
    trimmed, and the open group when its trimmed text is not empty. *)
Definition emitChunks (closed : list (list jsstring)) (open : list jsstring) : list jsstring :=
  map (fun g => trim (joinParagraphs g)) closed
  ++ (if truthy (trim (joinParagraphs open)) then [trim (joinParagraphs open)] else []).

(** The text of a chunk: the paragraphs of its group joined by blank
    lines, trimmed. *)
Definition chunkOf (g : list jsstring) : jsstring := trim (join (nl ++ nl) g).

(** A number that template interpolation prints digit by digit. *)
Definition safeInteger (z : Z) : Prop := (- 9007199254740992 < z < 9007199254740992)%Z.

(** A prefix of [n] code units, the marker, a suffix of [n] code units. *)
Definition spliced (text : jsstring) (n : Z) : jsstring :=
  firstn (Z.to_nat n) text ++ truncationMarker
  ++ skipn (List.length text - Z.to_nat n) text.

(** The expected size the integrity check uses for a model name; a name
    that is not in [MODEL_SIZES] has none, which constrains nothing. *)
Definition expectedSizeBytes (modelName : jsstring) : Z :=
  match lookup MODEL_SIZES modelName with
  | Some e => e
  | None => 0
  end.

(** The state in which [chat] reaches the engine: a model and a chat
    session are loaded. *)
Definition ready (w : World) : bool :=
  isSome (model (globals w)) && isSome (chatSession (globals w)).

(** The prompts sent to the chat session among the requests of a run. *)
Definition prompts (rs : list Request) : list jsstring :=
  flat_map (fun r => match r with
                     | SessionPrompt _ p _ => [p]
                     | _ => []
                     end) rs.

(** The requests that go to the network or to the engine. *)
Definition external (rs : list Request) : list Request :=
  filter (fun r => match r with Tick => false | _ => true end) rs.

(** An environment whose chat session answers every prompt. *)
Definition answersEveryPrompt (env : Env) : Prop :=
  forall history s p o, exists text, env history (SessionPrompt s p o) = inr text.

(** What one call of [listener] leaves in the trace when the callback
    ends with [threw]. *)
Definition deliveryEvents (args : ProgressArgs) (listener : Listener)
  (threw : option JSError) : list Effect :=
  Delivered (lid listener) args threw
  :: match threw with
     | Some e => [Console Warn (lit "[LocalLLM] Progress listener error:") [LogError e]]
     | None => []
     end.

(** [Deliveries args before listeners events]: [events] is what calling
    every listener of [listeners] once, in order, with [args] leaves in the
    trace after [before], each callback reacting to the trace as it is when
    its turn comes. *)
Inductive Deliveries (args : ProgressArgs)
  : list Effect -> list Listener -> list Effect -> Prop :=
| deliveries_done before : Deliveries args before [] []
| deliveries_next before l ls events :
    Deliveries args (before ++ deliveryEvents args l (react l before args)) ls events ->
    Deliveries args before (l :: ls)
      (deliveryEvents args l (react l before args) ++ events).

(** The listeners called, in order, among the effects of a trace. *)
Definition calls (events : list Effect) : list (nat * ProgressArgs) :=
  flat_map (fun e => match e with
                     | Delivered id args _ => [(id, args)]
                     | Console _ _ _ => []
                     end) events.

(** The errors reported with [console.warn] as listener errors. *)
Definition listenerWarnings (events : list Effect) : list JSError :=
  flat_map (fun e => match e with
                     | Console Warn _ [LogError err] => [err]
                     | _ => []
                     end) events.

(** The errors thrown by the listeners called. *)
Definition thrownByListeners (events : list Effect) : list JSError :=
  flat_map (fun e => match e with
                     | Delivered _ _ (Some err) => [err]
                     | _ => []
                     end) events.

(** The ['error'] events published on the progress bus. *)
Definition errorEvents (events : list Effect) : list (nat * ProgressArgs) :=
  filter (fun c => match ptype (snd c) with PError => true | _ => false end) (calls events).

(** [Always Ans R I Q s]: however the requests of [s] are settled within
    [Ans], and whatever other operations do to the world between a
    suspension and the resumption within [R], [I] holds of the world at
    every suspension and [Q] of the world and the result at the end. *)
Fixpoint Always {A : Type} (Ans : forall req : Request, Settled req -> Prop)
  (R : World -> World -> Prop) (I : World -> Prop)
  (Q : World -> JSError + A -> Prop) (s : Step A) : Prop :=
  match s with
  | Returned w a => Q w (inr a)
  | Thrown w e => Q w (inl e)
  | Awaiting w req k =>
      I w /\ forall (r : Settled req) (w' : World), Ans req r -> R w w' -> Always Ans R I Q (k r w')
  end.

(** Any answer. *)
Definition anyAnswer (req : Request) (r : Settled req) : Prop := True.

(** The engine disposes of contexts and models without failing. *)
Definition disposalSucceeds (req : Request) (r : Settled req) : Prop :=
  match req, r with
  | ContextDispose _, inl _ => False
  | ModelDispose _, inl _ => False
  | _, _ => True
  end.

(** Other operations leave the [isLoading] flag alone. *)
Definition keepsFlag (w w' : World) : Prop :=
  isLoading (globals w') = isLoading (globals w).

(** The state [loadModel] leaves after a successful load of
    [modelName]. *)
Definition loaded (modelName : jsstring) (w : World) : Prop :=
  currentModelName (globals w) = Some modelName /\
  isLoading (globals w) = false /\
  loadProgress (globals w) = 100%Q /\
  ready w = true.

(** The error event [loadModel] publishes for the error [e]. *)
Definition errorArgs (modelName : jsstring) (e : JSError) : ProgressArgs :=
  mkProgressArgs PError 0 modelName (Some (message e)).

(** The error state: no load in progress, progress 0, no current model,
    and the trace ends with the error event delivered to every registered
    listener, in order. *)
Definition failed (modelName : jsstring) (e : JSError) (w : World) : Prop :=
  isLoading (globals w) = false /\
  loadProgress (globals w) = 0%Q /\
  currentModelName (globals w) = None /\
  exists before events,
    trace w = before ++ events /\
    calls events = map (fun l => (lid l, errorArgs modelName e)) (progressListeners w).

(** The dispose calls [unloadModel] makes in the state [w], in order. *)
Definition disposals (w : World) : list Request :=
  match context (globals w) with
  | Some c => [ContextDispose c]
  | None => []
  end
  ++ match model (globals w) with
     | Some m => [ModelDispose m]
     | None => []
     end.


(** The prompt [batchCategorize] sends to [session] for [batch]. *)
Definition batchRequest (session : ChatSession) (categories : list jsstring)
  (batch : list Item) : Request :=
  SessionPrompt session (batchPrompt categories batch) (mkPromptOptions 64 (1 # 10) TOP_P).

(** The results of consecutive batches, the first prompt being sent after
    [history]: a batch whose prompt the session rejects gives "unknown" for
    each of its items, a batch it answers gives each item the category of
    its line of the response. *)
Fixpoint settled (toLowerCase : jsstring -> jsstring) (env : Env) (session : ChatSession)
  (categories : list jsstring) (history : list Request) (groups : list (list Item))
  : list Categorized :=
  match groups with
  | [] => []
  | batch :: rest =>
      match env history (batchRequest session categories batch) with
      | inl _ => map (fun item => withCategory item unknown) batch
      | inr response =>
          categorizeBatch toLowerCase categories (splitOn LF (trim response)) 0 batch
      end
      ++ settled toLowerCase env session categories
           (history ++ [batchRequest session categories batch; Tick]) rest
  end.

(** A result keeps its item and carries a category of the list or the
    sentinel. *)
Definition Keeps (categories : list jsstring) (item : Item) (r : Categorized) : Prop :=
  itemTitle r = title item /\ itemUrl r = url item /\
  (In (category r) categories \/ category r = unknown).

(** A string that does not start with white space. *)
Definition cleanHead (s : jsstring) : Prop :=
  match s with
  | [] => True
  | c :: _ => isWhiteSpace c = false
  end.

(** A group of a greedy grouping: its text is within the budget but for
    the separator of its last join, or it is one of the paragraphs, or it
    is empty. *)
Definition Bounded (maxChars : Z) (paragraphs g : list jsstring) : Prop :=
  (strlen (joinParagraphs g) <= maxChars + 2)%Z \/
  In (joinParagraphs g) paragraphs \/
  joinParagraphs g = [].

(** The listener calls that publishing [events], one after the other,
    makes: each event goes to every listener of [listeners] in order. *)
Definition published (events : list ProgressArgs) (listeners : list Listener)
  : list (nat * ProgressArgs) :=
  flat_map (fun args => map (fun l => (lid l, args)) listeners) events.

(** [Announced w events w']: from [w] to [w'] the trace has grown by the
    publication of [events], in this order, to the listeners of [w] (and by
    console lines), and the listeners are still the same. *)
Definition Announced (w : World) (events : list ProgressArgs) (w' : World) : Prop :=
  progressListeners w' = progressListeners w /\
  exists effects,
    trace w' = trace w ++ effects /\
    calls effects = published events (progressListeners w).

(** The answers the environment [env] gives. *)
Definition answeredBy (env : Env) (req : Request) (r : Settled req) : Prop :=
  exists history, env history req = r.

(** [Asks P s]: every request [s] makes satisfies [P], however the
    earlier ones are settled and whatever the world is when [s] resumes. *)
Fixpoint Asks {A : Type} (P : Request -> Prop) (s : Step A) : Prop :=
  match s with
  | Returned _ _ => True
  | Thrown _ _ => True
  | Awaiting _ req k => P req /\ forall (r : Settled req) (w' : World), Asks P (k r w')
  end.

(** A prompt to the chat session, or a turn of the job queue. *)
Definition promptOrTurn (req : Request) : Prop :=
  match req with
  | Tick => True
  | SessionPrompt _ _ _ => True
  | _ => False
  end.

(** Anything but a request to the network. *)
Definition offline (req : Request) : Prop :=
  match req with
  | HttpGet _ _ => False
  | _ => True
  end.

(** The module state, the files and the listeners are those of [w], and
    no listener has been called since. *)
Definition Untouched (w w' : World) : Prop :=
  globals w' = globals w /\ fs w' = fs w /\
  progressListeners w' = progressListeners w /\ homedir w' = homedir w /\
  calls (trace w') = calls (trace w).

(** An operation that leaves the service as it found it and talks to the
    chat session only. *)
Definition ReadOnly {A : Type} (operation : Async A) : Prop :=
  forall (env : Env) (h : list Request) (w : World),
    Untouched w (final (run env h (operation w))) /\
    exists rs, requests (run env h (operation w)) = h ++ rs /\ Forall promptOrTurn rs.

(** [items] cut into consecutive batches of [n], the last one possibly
    shorter; [fuel] bounds the number of batches. *)
Fixpoint batches {A : Type} (fuel n : nat) (items : list A) : list (list A) :=
  match fuel, items with
  | O, _ => []
  | _, [] => []
  | S fuel', _ => firstn n items :: batches fuel' n (skipn n items)
  end.



(** The tokens a stream delivers before it ends or fails. *)
Fixpoint tokens (stream : TokenStream) : list jsstring :=
  match stream with
  | Token token rest => token :: tokens rest
  | _ => []
  end.

(** How a stream ends. *)
Fixpoint ending (stream : TokenStream) : option JSError :=
  match stream with
  | EndOfStream => None
  | StreamError e => Some e
  | Token _ rest => ending rest
  end.

(** A double that is a zero (of either sign) or NaN, as its IEEE 754
    representation. *)
Definition zeroOrNaN (x : spec_float) : Prop :=
  match x with
  | S754_zero _ => True
  | S754_nan => True
  | _ => False
  end.

End Spec.

(* ================================================================== *)
(** * Sample worlds and environments *)
(* ================================================================== *)

Module Fixtures.

Import Config Shaping Service Spec.

Definition quiet : Listener := mkListener 1 (fun _ _ => None).

Definition failing : Listener :=
  mkListener 2 (fun _ _ => Some (Error (lit "listener failed"))).

(** A listener registered later than those of the samples. *)
Definition late : Listener := mkListener 3 (fun _ _ => None).

Definition home : jsstring := lit "/home/user".

Definition llamaModel : jsstring := lit "llama-3.2-1b-instruct.Q4_K_M.gguf".
Definition qwenModel : jsstring := lit "qwen2.5-0.5b-instruct.Q4_K_M.gguf".
Definition qwenLarge : jsstring := lit "qwen2.5-1.5b-instruct.Q4_K_M.gguf".

(** The service right after start: nothing loaded, no model file, two
    listeners registered. *)
Definition freshWorld : World :=
  mkWorld initialGlobals [failing; quiet] [] home [].

Definition sampleContext : Context := mkContext 3 (inr 0).

(** The service with [qwenModel] loaded. *)
Definition readyWorld : World :=
  mkWorld (mkGlobals (Some 1) (Some 2) (Some sampleContext)
                     (Some (mkChatSession 0 SYSTEM_PROMPT)) (Some qwenModel) false 100)
          [failing; quiet]
          [(MODELS_DIR home ++ lit "/" ++ qwenModel, Entry (mkStats 400000000 false))]
          home [].

(** A network and an engine that work: the download delivers four bytes,
    the chat session answers "Work" to every prompt. *)
Definition working : Env :=
  fun _ req =>
    match req return Settled req with
    | Tick => inr tt
    | GetLlama => inr 1
    | HttpGet _ _ => inr (Final 200 4 [4%Z])
    | LlamaLoadModel _ _ _ => inr 2
    | ModelCreateContext _ _ => inr sampleContext
    | ContextDispose _ => inr tt
    | ModelDispose _ => inr tt
    | SessionPrompt _ _ _ => inr (lit "Work")
    end.

(** An engine that works, behind a server that answers 404. *)
Definition notFound : Env :=
  fun _ req =>
    match req return Settled req with
    | Tick => inr tt
    | GetLlama => inr 1
    | HttpGet _ _ => inr (Final 404 0 [])
    | LlamaLoadModel _ _ _ => inr 2
    | ModelCreateContext _ _ => inr sampleContext
    | ContextDispose _ => inr tt
    | ModelDispose _ => inr tt
    | SessionPrompt _ _ _ => inr (lit "Work")
    end.

(** An engine that refuses to load the model file. *)
Definition brokenEngine : Env :=
  fun _ req =>
    match req return Settled req with
    | Tick => inr tt
    | GetLlama => inr 1
    | HttpGet _ _ => inr (Final 200 4 [4%Z])
    | LlamaLoadModel _ _ _ => inl (Error (lit "failed to load model"))
    | ModelCreateContext _ _ => inr sampleContext
    | ContextDispose _ => inr tt
    | ModelDispose _ => inr tt
    | SessionPrompt _ _ _ => inr (lit "Work")
    end.

(** An engine that cannot be initialised. *)
Definition noEngine : Env :=
  fun _ req =>
    match req return Settled req with
    | Tick => inr tt
    | GetLlama => inl (Error (lit "no backend available"))
    | HttpGet _ _ => inr (Final 200 4 [4%Z])
    | LlamaLoadModel _ _ _ => inr 2
    | ModelCreateContext _ _ => inr sampleContext
    | ContextDispose _ => inr tt
    | ModelDispose _ => inr tt
    | SessionPrompt _ _ _ => inr (lit "Work")
    end.

(** An engine that loads the model file but cannot create a context. *)
Definition noContext : Env :=
  fun _ req =>
    match req return Settled req with
    | Tick => inr tt
    | GetLlama => inr 1
    | HttpGet _ _ => inr (Final 200 4 [4%Z])
    | LlamaLoadModel _ _ _ => inr 2
    | ModelCreateContext _ _ => inl (Error (lit "out of memory"))
    | ContextDispose _ => inr tt
    | ModelDispose _ => inr tt
    | SessionPrompt _ _ _ => inr (lit "Work")
    end.

(** An engine that fails to dispose of a context. *)
Definition stuckContext : Env :=
  fun _ req =>
    match req return Settled req with
    | Tick => inr tt
    | GetLlama => inr 1
    | HttpGet _ _ => inr (Final 200 4 [4%Z])
    | LlamaLoadModel _ _ _ => inr 2
    | ModelCreateContext _ _ => inr sampleContext
    | ContextDispose _ => inl (Error (lit "context is busy"))
    | ModelDispose _ => inr tt
    | SessionPrompt _ _ _ => inr (lit "Work")
    end.


(** The service right after start, with the file of [llamaModel] in
    place. *)
Definition downloadedWorld : World :=
  mkWorld initialGlobals [failing; quiet]
          [(MODELS_DIR home ++ lit "/" ++ llamaModel, Entry (mkStats 800000000 false))]
          home [].

(** The same, with the engine initialised. *)
Definition initialisedWorld : World := withGlobals (setLlama (Some 1)) downloadedWorld.

(** The service with [qwenModel] loaded and the file of [llamaModel] in
    place as well. *)
Definition bothFiles : World :=
  writeFile (MODELS_DIR home ++ lit "/" ++ llamaModel) 800000000 readyWorld.

(** The service right after start with the models directory in place. *)
Definition installedWorld : World :=
  mkWorld initialGlobals [failing; quiet]
          [(MODELS_DIR home, Entry (mkStats 4096 true))] home [].

(** A chat session that rejects every prompt. *)
Definition overloaded : Env :=
  fun _ req =>
    match req return Settled req with
    | Tick => inr tt
    | GetLlama => inr 1
    | HttpGet _ _ => inr (Final 200 4 [4%Z])
    | LlamaLoadModel _ _ _ => inr 2
    | ModelCreateContext _ _ => inr sampleContext
    | ContextDispose _ => inr tt
    | ModelDispose _ => inr tt
    | SessionPrompt _ _ _ => inl (Error (lit "No sequences left"))
    end.

(** A chat session that answers every prompt with an object embedded in
    prose. *)
Definition embedded : Env :=
  fun _ req =>
    match req return Settled req with
    | Tick => inr tt
    | GetLlama => inr 1
    | HttpGet _ _ => inr (Final 200 4 [4%Z])
    | LlamaLoadModel _ _ _ => inr 2
    | ModelCreateContext _ _ => inr sampleContext
    | ContextDispose _ => inr tt
    | ModelDispose _ => inr tt
    | SessionPrompt _ _ _ => inr (lit "Here you go: {} - done")
    end.

(** A chat session that answers every prompt with two objects. *)
Definition twoObjects : Env :=
  fun _ req =>
    match req return Settled req with
    | Tick => inr tt
    | GetLlama => inr 1
    | HttpGet _ _ => inr (Final 200 4 [4%Z])
    | LlamaLoadModel _ _ _ => inr 2
    | ModelCreateContext _ _ => inr sampleContext
    | ContextDispose _ => inr tt
    | ModelDispose _ => inr tt
    | SessionPrompt _ _ _ => inr (lit "Either {} or {}")
    end.

(** A chat session that answers the first prompt with three numbered
    lines and rejects every later one. *)
Definition flaky : Env :=
  fun history req =>
    match req return Settled req with
    | Tick => inr tt
    | GetLlama => inr 1
    | HttpGet _ _ => inr (Final 200 4 [4%Z])
    | LlamaLoadModel _ _ _ => inr 2
    | ModelCreateContext _ _ => inr sampleContext
    | ContextDispose _ => inr tt
    | ModelDispose _ => inr tt
    | SessionPrompt _ _ _ =>
        match history with
        | [] => inr (lit "1. Work" ++ nl ++ lit "2. Personal" ++ nl ++ lit "3. Shopping")
        | _ :: _ => inl (Error (lit "No sequences left"))
        end
    end.

(** ASCII lower-casing, a stand-in for [String.prototype.toLowerCase]. *)
Definition asciiLower (s : jsstring) : jsstring :=
  map (fun c => if ((65 <=? c) && (c <=? 90))%N then (c + 32)%N else c) s.

(** A parser that knows the empty object only: it agrees with
    [JSON.parse] on ["{}"] and on every text [JSON.parse] rejects. *)
Definition emptyObjectOnly (s : jsstring) : JSError + JSValue :=
  if streq s (lit "{}") then inr (JObject [])
  else inl (SyntaxError (lit "Unexpected non-whitespace character after JSON")).

(** Four items: one batch of three and one of one. *)
Definition fourItems : list Item :=
  [ mkItem (lit "Inbox") (lit "https://mail.example.com");
    mkItem (lit "Holiday photos") (lit "https://photos.example.com");
    mkItem (lit "Checkout") (lit "https://shop.example.com/cart");
    mkItem (lit "Quarterly report") (lit "https://docs.example.com/q3") ].

(** One paragraph of 3000 code units. *)
Definition longParagraph : jsstring := repeat 97%N 3000.

(** Two paragraphs of four code units each. *)
Definition twoParagraphs : jsstring := lit "aaaa" ++ nl ++ nl ++ lit "bbbb".

Definition longText : jsstring := repeat 97%N 200.

Definition shortText : jsstring := lit "A short note.".

(** 101 code units: one more than 25 tokens can hold. *)
Definition overBudget : jsstring := repeat 97%N 101.

(** Twelve paragraphs of 1000 code units each. *)
Definition manyParagraphs : jsstring :=
  concat (repeat (repeat 97%N 1000 ++ nl ++ nl) 12).

Definition truncatedPath : jsstring := MODELS_DIR home ++ lit "/" ++ qwenLarge.

(** A download of [qwenLarge] that stopped one byte short of 90 percent. *)
Definition truncatedWorld : World :=
  mkWorld initialGlobals [] [(truncatedPath, Entry (mkStats 899999999 false))] home [].

End Fixtures.

(* ================================================================== *)
(** * Token-budget shaping: proofs *)
(* ================================================================== *)

Module ShapingProofs.

Import Config Shaping Service Spec.

Lemma estimateTokens_ceiling (text : jsstring) :
  (4 * (estimateTokens text - 1) < strlen text <= 4 * estimateTokens text)%Z.
Proof. unfold estimateTokens. Z.div_mod_to_equations. lia. Qed.

Lemma slice_prefix (text : jsstring) (n : Z) :
  (0 <= n <= strlen text)%Z -> slice text 0 (Some n) = firstn (Z.to_nat n) text.
Proof.
  intros H. unfold slice. cbn -[Z.min Z.max Z.to_nat strlen firstn skipn].
  replace (n <? 0)%Z with false by (symmetry; apply Z.ltb_ge; lia).
  rewrite Z.min_l by lia. rewrite Z.min_l by lia.
  rewrite Z.sub_0_r. reflexivity.
Qed.

Lemma slice_suffix (text : jsstring) (n : Z) :
  (0 < n <= strlen text)%Z -> slice text (- n) None = skipn (List.length text - Z.to_nat n) text.
Proof.
  intros H. unfold slice.
  replace (- n <? 0)%Z with true by (symmetry; apply Z.ltb_lt; lia).
  rewrite Z.max_l by lia.
  replace (Z.to_nat (strlen text + - n)) with (List.length text - Z.to_nat n)%nat
    by (unfold strlen in *; lia).
  apply firstn_all2. rewrite length_skipn. unfold strlen in *. lia.
Qed.

Lemma strlen_app (a b : jsstring) : strlen (a ++ b) = (strlen a + strlen b)%Z.
Proof. unfold strlen. rewrite length_app. lia. Qed.

Lemma strlen_nonneg (s : jsstring) : (0 <= strlen s)%Z.
Proof. unfold strlen. lia. Qed.

(** The length of a slice, for any indices. *)
Lemma strlen_slice (s : jsstring) (start : Z) (stop : option Z) :
  let len := strlen s in
  let clamp (i : Z) := if (i <? 0)%Z then Z.max (len + i) 0 else Z.min i len in
  strlen (slice s start stop)
  = Z.max 0 (match stop with Some e => clamp e | None => len end - clamp start).
Proof.
  cbv zeta. unfold slice, strlen.
  rewrite length_firstn, length_skipn.
  destruct stop as [e|];
    repeat match goal with
           | |- context [(?a <? ?b)%Z] => destruct (Z.ltb_spec a b)
           end; lia.
Qed.

Lemma strlen_truncationMarker : strlen truncationMarker = 42%Z.
Proof. reflexivity. Qed.

(** The length of what [truncateForContext] builds for a text over the
    budget, whatever the sign of [halfChars]. *)
Lemma strlen_truncated (text : jsstring) (maxTokens : Z) :
  (maxTokens < estimateTokens text)%Z ->
  let halfChars := (2 * maxTokens - 50)%Z in
  strlen (truncateForContext text maxTokens)
  = (if (halfChars <? 0)%Z then 2 * Z.max (strlen text + halfChars) 0 + 42
     else if (halfChars =? 0)%Z then strlen text + 42
     else 2 * Z.min halfChars (strlen text) + 42)%Z.
Proof.
  intros Hgt halfChars.
  assert (Hh : (maxTokens * 4 / 2 - 50 = halfChars)%Z)
    by (unfold halfChars; Z.div_mod_to_equations; lia).
  unfold truncateForContext.
  replace (estimateTokens text <=? maxTokens)%Z with false by (symmetry; apply Z.leb_gt; lia).
  cbv zeta. rewrite Hh, !strlen_app, strlen_truncationMarker, !strlen_slice. cbv zeta.
  pose proof (strlen_nonneg text) as Hn.
  destruct (Z.ltb_spec halfChars 0); destruct (Z.eqb_spec halfChars 0);
    repeat match goal with
           | |- context [(?a <? ?b)%Z] => destruct (Z.ltb_spec a b)
           end; lia.
Qed.

(** What [truncateForContext] builds for a text over a budget of 26
    tokens or more. *)
Lemma truncated_shape (text : jsstring) (maxTokens : Z) :
  (26 <= maxTokens)%Z -> (maxTokens < estimateTokens text)%Z ->
  truncateForContext text maxTokens = spliced text (2 * maxTokens - 50) /\
  strlen (truncateForContext text maxTokens) = (4 * maxTokens - 58)%Z /\
  (4 * maxTokens < strlen text)%Z.
Proof.
  intros Hm Hlt. pose proof (estimateTokens_ceiling text) as Hc.
  assert (Hh : (maxTokens * 4 / 2 - 50 = 2 * maxTokens - 50)%Z)
    by (Z.div_mod_to_equations; lia).
  assert (E : truncateForContext text maxTokens = spliced text (2 * maxTokens - 50)).
  { unfold truncateForContext.
    replace (estimateTokens text <=? maxTokens)%Z with false
      by (symmetry; apply Z.leb_gt; lia).
    cbv zeta. rewrite Hh, slice_prefix, slice_suffix by lia. reflexivity. }
  split; [exact E|]. split; [|lia].
  pose proof (strlen_truncated text maxTokens Hlt) as Hl. cbv zeta in Hl. rewrite Hl.
  destruct (Z.ltb_spec (2 * maxTokens - 50) 0); [lia|].
  destruct (Z.eqb_spec (2 * maxTokens - 50) 0); lia.
Qed.

(** C6.  The estimate is [ceil(length / 4)].  [truncateForContext] returns
    its input unchanged whenever the estimate is at most [maxTokens], and,
    for every budget of 5 tokens or more, only then.  For a budget of 26
    tokens or more - so that [floor(maxTokens*4/2) - 50] is a positive
    number of code units, as with the 700 the service passes and the
    default 800 - and an estimate above it, the result is a prefix of the
    text of exactly [floor(maxTokens*4/2) - 50] code units, the truncation
    marker, and a suffix of the text of the same length; the two parts do
    not overlap. *)
Theorem truncateForContext_keeps_both_ends (text : jsstring) (maxTokens : Z) :
  (4 * (estimateTokens text - 1) < strlen text <= 4 * estimateTokens text)%Z /\
  ((estimateTokens text <= maxTokens)%Z -> truncateForContext text maxTokens = text) /\
  ((5 <= maxTokens)%Z -> truncateForContext text maxTokens = text ->
     (estimateTokens text <= maxTokens)%Z) /\
  ((26 <= maxTokens)%Z -> (maxTokens < estimateTokens text)%Z ->
     let halfChars := (maxTokens * 4 / 2 - 50)%Z in
     truncateForContext text maxTokens = spliced text halfChars /\
     strlen (firstn (Z.to_nat halfChars) text) = halfChars /\
     strlen (skipn (List.length text - Z.to_nat halfChars) text) = halfChars /\
     (2 * halfChars < strlen text)%Z).
Proof.
  pose proof (estimateTokens_ceiling text) as Hc.
  split; [exact Hc|]. split; [|split].
  - intros H. unfold truncateForContext. apply Z.leb_le in H. rewrite H. reflexivity.
  - intros Hm Heq.
    destruct (Z.le_gt_cases (estimateTokens text) maxTokens) as [Hle|Hgt]; [exact Hle|].
    exfalso. pose proof (strlen_truncated text maxTokens Hgt) as Hl. cbv zeta in Hl.
    rewrite Heq in Hl. pose proof (strlen_nonneg text) as Hn.
    destruct (Z.ltb_spec (2 * maxTokens - 50) 0); [lia|].
    destruct (Z.eqb_spec (2 * maxTokens - 50) 0); lia.
  - intros Hm Hlt halfChars.
    assert (Hh : (0 < halfChars /\ 2 * halfChars + 100 < strlen text)%Z)
      by (unfold halfChars; clear halfChars; Z.div_mod_to_equations; lia).
    assert (E : truncateForContext text maxTokens = spliced text halfChars).
    { replace halfChars with (2 * maxTokens - 50)%Z
        by (unfold halfChars; Z.div_mod_to_equations; lia).
      apply truncated_shape; assumption. }
    assert (L1 : strlen (firstn (Z.to_nat halfChars) text) = halfChars).
    { unfold strlen in *. rewrite length_firstn. lia. }
    assert (L2 : strlen (skipn (List.length text - Z.to_nat halfChars) text) = halfChars).
    { unfold strlen in *. rewrite length_skipn. lia. }
    repeat split; try assumption. lia.
Qed.

(** C6 at the budget of its example, 800 tokens: a text of twelve
    paragraphs (12024 code units, 3006 tokens) keeps 1550 code units at
    each end; a short text comes back unchanged. *)
Lemma truncateForContext_keeps_both_ends_witness :
  truncateForContext Fixtures.manyParagraphs 800 = spliced Fixtures.manyParagraphs 1550 /\
  truncateForContext Fixtures.shortText 800 = Fixtures.shortText.
Proof.
  destruct (truncateForContext_keeps_both_ends Fixtures.manyParagraphs 800) as (_ & _ & _ & H).
  destruct (truncateForContext_keeps_both_ends Fixtures.shortText 800) as (_ & H' & _).
  destruct H as (H1 & _); [lia | vm_compute; reflexivity |].
  split; [exact H1 | apply H'; vm_compute; discriminate].
Defined.

(** Below the budgets the service uses: with 25 tokens [halfChars] is 0,
    the prefix [text.slice(0, 0)] is empty and [text.slice(-0)] is the
    whole text, so the marker is put in front of the text. *)
Example truncateForContext_zero_half :
  (25 * 4 / 2 - 50 = 0)%Z /\
  truncateForContext Fixtures.overBudget 25 = truncationMarker ++ Fixtures.overBudget.
Proof. split; [reflexivity | vm_compute; reflexivity]. Qed.

Lemma strip_app (a b : jsstring) :
  stripWhiteSpace (a ++ b) = stripWhiteSpace a ++ stripWhiteSpace b.
Proof. apply filter_app. Qed.

Lemma strip_trimStart (s : jsstring) : stripWhiteSpace (trimStart s) = stripWhiteSpace s.
Proof.
  induction s as [|c s IH]; [reflexivity|].
  simpl. destruct (isWhiteSpace c) eqn:E; simpl; [exact IH|].
  rewrite E. reflexivity.
Qed.

Lemma strip_rev (s : jsstring) : stripWhiteSpace (rev s) = rev (stripWhiteSpace s).
Proof. unfold stripWhiteSpace. apply filter_rev. Qed.

Lemma strip_trim (s : jsstring) : stripWhiteSpace (trim s) = stripWhiteSpace s.
Proof.
  unfold trim, trimEnd.
  rewrite strip_rev, strip_trimStart, strip_rev, rev_involutive.
  apply strip_trimStart.
Qed.

Lemma strip_untruthy_trim (s : jsstring) :
  truthy (trim s) = false -> stripWhiteSpace s = [].
Proof.
  intros H. rewrite <- strip_trim. destruct (trim s); [reflexivity|discriminate].
Qed.

Lemma strip_accumulate (cur para : jsstring) :
  stripWhiteSpace (accumulate cur para) = stripWhiteSpace cur ++ stripWhiteSpace para.
Proof.
  unfold accumulate. rewrite !strip_app.
  destruct (truthy cur); reflexivity.
Qed.

Lemma strip_fold_accumulate (g : list jsstring) (cur : jsstring) :
  stripWhiteSpace (fold_left accumulate g cur)
  = stripWhiteSpace cur ++ concat (map stripWhiteSpace g).
Proof.
  revert cur. induction g as [|p g IH]; intros cur; simpl.
  - now rewrite app_nil_r.
  - rewrite IH, strip_accumulate, <- app_assoc. reflexivity.
Qed.

Lemma strip_joinParagraphs (g : list jsstring) :
  stripWhiteSpace (joinParagraphs g) = concat (map stripWhiteSpace g).
Proof. unfold joinParagraphs. now rewrite strip_fold_accumulate. Qed.

Lemma strip_consHead (c : N) (parts : list jsstring) :
  concat (map stripWhiteSpace (consHead c parts))
  = stripWhiteSpace [c] ++ concat (map stripWhiteSpace parts).
Proof.
  destruct parts as [|h t]; simpl.
  - destruct (isWhiteSpace c); reflexivity.
  - destruct (isWhiteSpace c); reflexivity.
Qed.

Lemma LF_isWhiteSpace (c : N) : (c =? LF)%N = true -> isWhiteSpace c = true.
Proof. intros H. apply N.eqb_eq in H. subst c. reflexivity. Qed.

Lemma strip_splitBlankLines (s : jsstring) (inSep : bool) :
  concat (map stripWhiteSpace (splitBlankLines inSep s)) = stripWhiteSpace s.
Proof.
  revert inSep. induction s as [|c s IH]; intros inSep; [reflexivity|].
  cbn [splitBlankLines].
  destruct ((c =? LF)%N && inSep) eqn:E1.
  - apply andb_prop in E1 as [E _]. rewrite IH. simpl.
    now rewrite (LF_isWhiteSpace _ E).
  - destruct ((c =? LF)%N && startsWithLF s) eqn:E2.
    + apply andb_prop in E2 as [E _]. simpl. rewrite IH.
      now rewrite (LF_isWhiteSpace _ E).
    + rewrite strip_consHead, IH. symmetry. apply (strip_app [c] s).
Qed.

Lemma strip_concat (l : list jsstring) :
  stripWhiteSpace (concat l) = concat (map stripWhiteSpace l).
Proof.
  induction l as [|x l IH]; [reflexivity|].
  simpl. now rewrite strip_app, IH.
Qed.

Lemma joinParagraphs_snoc (g : list jsstring) (p : jsstring) :
  joinParagraphs (g ++ [p]) = accumulate (joinParagraphs g) p.
Proof. unfold joinParagraphs. now rewrite fold_left_app. Qed.

Lemma joinParagraphs_one (p : jsstring) : joinParagraphs [p] = p.
Proof. reflexivity. Qed.

(** The loop of [chunkText] keeps a greedy grouping of the paragraphs read
    so far: [chunks] holds the closed groups and [currentChunk] the open
    one. *)
Lemma chunk_loop_greedy (maxChars : Z) (paragraphs : list jsstring) :
  exists closed open,
    GreedyChunks maxChars paragraphs closed open /\
    fold_left (chunkStep maxChars) paragraphs ([], [])
    = (map (fun g => trim (joinParagraphs g)) closed, joinParagraphs open).
Proof.
  induction paragraphs as [|para paragraphs IH] using rev_ind.
  - exists [], []. split; [constructor|reflexivity].
  - destruct IH as (closed & open & HG & HF).
    rewrite fold_left_app, HF. cbn [fold_left chunkStep].
    destruct ((strlen (joinParagraphs open ++ para) >? maxChars)%Z
              && (strlen (joinParagraphs open) >? 0)%Z) eqn:E.
    + apply andb_prop in E as [E1 E2].
      apply Z.gtb_lt in E1. apply Z.gtb_lt in E2.
      exists (closed ++ [open]), [para]. split.
      * apply greedy_close; [exact HG|lia|lia].
      * rewrite map_app. reflexivity.
    + exists closed, (open ++ [para]). split.
      * apply greedy_extend; [exact HG|].
        apply andb_false_iff in E as [E|E].
        -- left. rewrite Z.gtb_ltb in E. apply Z.ltb_ge in E. exact E.
        -- right. rewrite Z.gtb_ltb in E. apply Z.ltb_ge in E.
           unfold strlen in *. lia.
      * rewrite joinParagraphs_snoc. reflexivity.
Qed.

Lemma greedy_concat (maxChars : Z) (paragraphs : list jsstring) closed open :
  GreedyChunks maxChars paragraphs closed open -> concat closed ++ open = paragraphs.
Proof.
  induction 1 as [|ps closed open para _ IH _|ps closed open para _ IH _ _].
  - reflexivity.
  - now rewrite app_assoc, IH.
  - rewrite concat_app. simpl. rewrite app_nil_r. now rewrite IH.
Qed.

Lemma strip_emitChunks closed open :
  stripWhiteSpace (concat (emitChunks closed open))
  = concat (map stripWhiteSpace (concat closed ++ open)).
Proof.
  unfold emitChunks. rewrite concat_app, strip_app, map_app, concat_app.
  f_equal.
  - induction closed as [|g closed IH]; [reflexivity|].
    simpl. rewrite strip_app, IH, map_app, concat_app.
    now rewrite strip_trim, strip_joinParagraphs.
  - destruct (truthy (trim (joinParagraphs open))) eqn:E.
    + simpl. rewrite app_nil_r, strip_trim. apply strip_joinParagraphs.
    + simpl. apply strip_untruthy_trim in E.
      now rewrite <- strip_joinParagraphs, E.
Qed.

(** The grouping [chunkText] computes. *)
Lemma chunkText_grouping (text : jsstring) (maxTokensPerChunk : Z) :
  exists (closed : list (list jsstring)) (open : list jsstring),
    GreedyChunks (maxTokensPerChunk * 4) (splitParagraphs text) closed open /\
    concat closed ++ open = splitParagraphs text /\
    chunkText text maxTokensPerChunk = emitChunks closed open.
Proof.
  destruct (chunk_loop_greedy (maxTokensPerChunk * 4) (splitParagraphs text))
    as (closed & open & HG & HF).
  exists closed, open. split; [exact HG|]. split.
  - eapply greedy_concat; eassumption.
  - unfold chunkText. rewrite HF. unfold emitChunks.
    destruct (truthy (trim (joinParagraphs open))); [reflexivity|].
    now rewrite app_nil_r.
Qed.

(** Chunking loses white space only. *)
Lemma chunkText_content (text : jsstring) (maxTokensPerChunk : Z) :
  stripWhiteSpace (concat (chunkText text maxTokensPerChunk)) = stripWhiteSpace text.
Proof.
  destruct (chunkText_grouping text maxTokensPerChunk) as (closed & open & _ & HC & HE).
  rewrite HE, strip_emitChunks, HC. apply strip_splitBlankLines.
Qed.

Lemma trimStart_blank (s : jsstring) : stripWhiteSpace s = [] -> trimStart s = [].
Proof.
  induction s as [|c s IH]; [reflexivity|].
  cbn. destruct (isWhiteSpace c); cbn; [exact IH|discriminate].
Qed.

Lemma trim_blank (s : jsstring) : stripWhiteSpace s = [] -> trim s = [].
Proof.
  intros H. unfold trim, trimEnd. now rewrite (trimStart_blank s H).
Qed.

(** A text that is not blank gives at least one chunk. *)
Lemma chunkText_nonempty (text : jsstring) (maxTokensPerChunk : Z) :
  trim text <> [] -> chunkText text maxTokensPerChunk <> [].
Proof.
  intros Hn He. apply Hn, trim_blank.
  rewrite <- (chunkText_content text maxTokensPerChunk), He. reflexivity.
Qed.

(** *** Blank-line boundaries *)

Lemma paragraphs_cons (c : N) (s : jsstring) (paragraphs : list jsstring) :
  Paragraphs s paragraphs ->
  (c =? LF)%N && startsWithLF s = false ->
  Paragraphs (c :: s) (consHead c paragraphs).
Proof.
  intros H Hc. destruct H as [p Hp|p n rest ps Hp He Hn Hr Hps]; cbn [consHead].
  - apply paragraphs_last. cbn [hasBlankLine]. now rewrite Hc, Hp.
  - change (c :: p ++ repeat LF n ++ rest) with ((c :: p) ++ repeat LF n ++ rest).
    apply paragraphs_next; try assumption.
    + cbn [hasBlankLine]. rewrite Hp, orb_false_r.
      destruct p as [|d p]; [apply andb_false_r|exact Hc].
    + destruct p as [|d p]; [|exact He].
      destruct n as [|n]; [lia|]. cbn in Hc. cbn [endsWithLF].
      now rewrite andb_true_r in Hc.
Qed.

Lemma splitBlankLines_inSep (s : jsstring) :
  startsWithLF s = false -> splitBlankLines true s = splitBlankLines false s.
Proof.
  destruct s as [|c s]; [reflexivity|]. cbn [startsWithLF splitBlankLines].
  intros ->. reflexivity.
Qed.

Lemma splitBlankLines_run (k : nat) (rest : jsstring) :
  splitBlankLines true (repeat LF k ++ rest) = splitBlankLines true rest.
Proof. induction k as [|k IH]; [reflexivity|exact IH]. Qed.

Lemma lf_run (s : jsstring) :
  exists k rest,
    s = repeat LF k ++ rest /\ startsWithLF rest = false /\ List.length rest <= List.length s.
Proof.
  induction s as [|c s (k & rest & Hs & Hr & Hl)]; [now exists 0, []|].
  destruct (c =? LF)%N eqn:E.
  - apply N.eqb_eq in E. subst c. exists (S k), rest.
    split; [cbn; now rewrite <- Hs|]. split; [exact Hr|cbn; lia].
  - exists 0, (c :: s). cbn. now rewrite E.
Qed.

Lemma splitBlankLines_paragraphs (n : nat) :
  forall s, List.length s <= n -> Paragraphs s (splitBlankLines false s).
Proof.
  induction n as [|n IH]; intros s Hn.
  - destruct s; [|cbn in Hn; lia]. now apply paragraphs_last.
  - destruct s as [|c s]; [now apply paragraphs_last|].
    cbn [splitBlankLines]. rewrite andb_false_r.
    destruct ((c =? LF)%N && startsWithLF s) eqn:E.
    + apply andb_prop in E as [Ec Es]. apply N.eqb_eq in Ec. subst c.
      destruct (lf_run s) as (k & rest & -> & Hrest & Hlen).
      rewrite splitBlankLines_run, (splitBlankLines_inSep _ Hrest).
      change (LF :: repeat LF k ++ rest) with ([] ++ repeat LF (S k) ++ rest).
      apply paragraphs_next; try reflexivity; try exact Hrest.
      * destruct k as [|k]; [cbn in Es; congruence|lia].
      * apply IH. cbn [List.length] in Hn. lia.
    + apply paragraphs_cons; [apply IH; cbn in Hn; lia|exact E].
Qed.

Lemma splitBlankLines_single (p : jsstring) :
  hasBlankLine p = false -> splitBlankLines false p = [p].
Proof.
  induction p as [|c p IH]; [reflexivity|]. cbn [hasBlankLine splitBlankLines].
  intros H. apply orb_false_iff in H as [H1 H2].
  rewrite andb_false_r, H1, (IH H2). reflexivity.
Qed.

Lemma splitBlankLines_first (p boundary : jsstring) (tail : list jsstring) :
  hasBlankLine p = false -> endsWithLF p = false ->
  splitBlankLines false boundary = [] :: tail ->
  splitBlankLines false (p ++ boundary) = p :: tail.
Proof.
  intros Hp He Hb. induction p as [|c p IH]; [exact Hb|].
  cbn [app splitBlankLines]. rewrite andb_false_r.
  cbn [hasBlankLine] in Hp. apply orb_false_iff in Hp as [H1 H2].
  assert (E : (c =? LF)%N && startsWithLF (p ++ boundary) = false).
  { destruct p as [|d p]; [|exact H1]. cbn [endsWithLF] in He. now rewrite He. }
  rewrite E, IH; [reflexivity|exact H2|].
  destruct p as [|d p]; [reflexivity|exact He].
Qed.

Lemma paragraphs_unique (text : jsstring) (paragraphs : list jsstring) :
  Paragraphs text paragraphs -> paragraphs = splitBlankLines false text.
Proof.
  induction 1 as [p Hp|p n rest ps Hp He Hn Hr _ IH].
  - symmetry. now apply splitBlankLines_single.
  - symmetry. apply splitBlankLines_first; try assumption.
    destruct n as [|[|n]]; [lia|lia|].
    cbn [repeat app splitBlankLines startsWithLF]. rewrite N.eqb_refl. cbn [andb].
    change (LF :: repeat LF n ++ rest) with (repeat LF (S n) ++ rest).
    now rewrite splitBlankLines_run, (splitBlankLines_inSep _ Hr), IH.
Qed.

(** [splitParagraphs] cuts at the blank-line boundaries, and that
    determines its result. *)
Lemma splitParagraphs_boundaries (text : jsstring) (paragraphs : list jsstring) :
  Paragraphs text paragraphs <-> paragraphs = splitParagraphs text.
Proof.
  split; [apply paragraphs_unique|].
  intros ->. apply (splitBlankLines_paragraphs (List.length text)). lia.
Qed.

(** *** The text of a group *)

Lemma fold_accumulate_nonempty (g : list jsstring) (cur : jsstring) :
  cur <> [] ->
  fold_left accumulate g cur = cur ++ concat (map (fun p => (nl ++ nl) ++ p) g).
Proof.
  revert cur. induction g as [|p g IH]; intros cur Hc; cbn [fold_left map concat].
  - now rewrite app_nil_r.
  - assert (E : accumulate cur p = cur ++ (nl ++ nl) ++ p).
    { unfold accumulate. destruct cur; [now elim Hc|reflexivity]. }
    rewrite E, IH, <- !app_assoc; [reflexivity|].
    destruct cur; [now elim Hc|discriminate].
Qed.

Lemma join_cons (sep p : jsstring) (g : list jsstring) :
  join sep (p :: g) = p ++ concat (map (fun q => sep ++ q) g).
Proof.
  revert p. induction g as [|q g IH]; intros p.
  - cbn. now rewrite app_nil_r.
  - change (join sep (p :: q :: g)) with (p ++ sep ++ join sep (q :: g)).
    rewrite IH. cbn [map concat]. now rewrite <- !app_assoc.
Qed.

Lemma trim_blank_line (s : jsstring) : trim ((nl ++ nl) ++ s) = trim s.
Proof. reflexivity. Qed.

(** A chunk is its paragraphs joined by blank lines, trimmed. *)
Lemma trim_joinParagraphs (g : list jsstring) : trim (joinParagraphs g) = chunkOf g.
Proof.
  unfold chunkOf. induction g as [|p g IH]; [reflexivity|].
  destruct p as [|c p].
  - change (joinParagraphs ([] :: g)) with (joinParagraphs g). rewrite IH.
    destruct g as [|q g]; [reflexivity|].
    change (join (nl ++ nl) ([] :: q :: g)) with ((nl ++ nl) ++ join (nl ++ nl) (q :: g)).
    now rewrite trim_blank_line.
  - change (joinParagraphs ((c :: p) :: g)) with (fold_left accumulate g (c :: p)).
    rewrite fold_accumulate_nonempty by discriminate. now rewrite join_cons.
Qed.

Lemma emitChunks_chunkOf (closed : list (list jsstring)) (open : list jsstring) :
  emitChunks closed open
  = map chunkOf closed ++ (if truthy (chunkOf open) then [chunkOf open] else []).
Proof.
  unfold emitChunks. rewrite trim_joinParagraphs. f_equal.
  apply map_ext. intros g. apply trim_joinParagraphs.
Qed.

(** ** Budgets of the shaped texts *)

(** X5.  For every text and budget, the result of [truncateForContext]
    is within the budget ([estimateTokens] of it is at most [maxTokens])
    exactly when the budget is at least 26 tokens or the text was within
    the budget already: below 26 tokens the two kept parts and the marker
    are longer than the budget allows.  Where the result fits, truncating
    it again changes nothing. *)
Theorem truncateForContext_fits_budget (text : jsstring) (maxTokens : Z) :
  ((estimateTokens (truncateForContext text maxTokens) <= maxTokens)%Z <->
   (26 <= maxTokens \/ estimateTokens text <= maxTokens)%Z) /\
  ((26 <= maxTokens \/ estimateTokens text <= maxTokens)%Z ->
   truncateForContext (truncateForContext text maxTokens) maxTokens
   = truncateForContext text maxTokens).
Proof.
  assert (Hfit : forall t, (estimateTokens t <= maxTokens)%Z -> truncateForContext t maxTokens = t).
  { intros t H. unfold truncateForContext. apply Z.leb_le in H. now rewrite H. }
  assert (Hiff : (estimateTokens (truncateForContext text maxTokens) <= maxTokens)%Z <->
                 (26 <= maxTokens \/ estimateTokens text <= maxTokens)%Z).
  { destruct (Z.le_gt_cases (estimateTokens text) maxTokens) as [Hle|Hgt].
    - rewrite (Hfit text Hle). split; auto.
    - pose proof (estimateTokens_ceiling text) as Hc.
      assert (E : strlen (truncateForContext text maxTokens)
                  = (strlen (slice text 0 (Some (maxTokens * 4 / 2 - 50)))
                     + 42 + strlen (slice text (- (maxTokens * 4 / 2 - 50)) None))%Z).
      { unfold truncateForContext.
        replace (estimateTokens text <=? maxTokens)%Z with false
          by (symmetry; apply Z.leb_gt; lia).
        cbv zeta. rewrite !strlen_app, strlen_truncationMarker. lia. }
      pose proof (estimateTokens_ceiling (truncateForContext text maxTokens)) as Hr.
      rewrite E in Hr. rewrite !strlen_slice in Hr. cbv zeta in Hr.
      pose proof (strlen_nonneg text) as Hn.
      assert (Hh : (maxTokens * 4 / 2 - 50 = 2 * maxTokens - 50)%Z)
        by (Z.div_mod_to_equations; lia).
      rewrite Hh in Hr.
      repeat match type of Hr with
             | context [(?a <? ?b)%Z] => destruct (Z.ltb_spec a b)
             end; lia. }
  split; [exact Hiff|].
  intros H. apply Hfit, Hiff, H.
Qed.

(** X5 at a text of 200 code units and a budget of 26 tokens. *)
Lemma truncateForContext_fits_budget_witness :
  (estimateTokens (truncateForContext Fixtures.longText 26) <= 26)%Z /\
  truncateForContext (truncateForContext Fixtures.longText 26) 26 = truncateForContext Fixtures.longText 26.
Proof.
  destruct (truncateForContext_fits_budget Fixtures.longText 26) as [H1 H2].
  split; [apply H1; left; lia | apply H2; left; lia].
Defined.

(** ** The size of a chunk *)

Lemma trimStart_cleanHead (s : jsstring) : cleanHead (trimStart s).
Proof.
  induction s as [|c s IH]; [exact I|].
  cbn [trimStart]. destruct (isWhiteSpace c) eqn:E; [exact IH|exact E].
Qed.

Lemma cleanHead_trimStart (s : jsstring) : cleanHead s -> trimStart s = s.
Proof. destruct s as [|c s]; [reflexivity|]. cbn. now intros ->. Qed.

Lemma trimStart_suffix (s : jsstring) : exists p, s = p ++ trimStart s.
Proof.
  induction s as [|c s [p IH]]; [now exists []|].
  cbn [trimStart]. destruct (isWhiteSpace c).
  - exists (c :: p). cbn. now rewrite <- IH.
  - now exists [].
Qed.

Lemma cleanHead_prefix (a b : jsstring) : cleanHead (a ++ b) -> cleanHead a.
Proof. destruct a; [intros _; exact I|exact (fun H => H)]. Qed.

Lemma trim_idempotent (s : jsstring) : trim (trim s) = trim s.
Proof.
  unfold trim, trimEnd.
  set (t := trimStart s). set (u := trimStart (rev t)).
  assert (Hu : cleanHead (rev u)).
  { destruct (trimStart_suffix (rev t)) as [p Hp]. fold u in Hp.
    apply (f_equal (@rev N)) in Hp. rewrite rev_involutive, rev_app_distr in Hp.
    apply (cleanHead_prefix (rev u) (rev p)). rewrite <- Hp. apply trimStart_cleanHead. }
  rewrite (cleanHead_trimStart _ Hu), rev_involutive.
  unfold u at 1. rewrite (cleanHead_trimStart _ (trimStart_cleanHead (rev t))). reflexivity.
Qed.

Lemma strlen_trimStart (s : jsstring) : (strlen (trimStart s) <= strlen s)%Z.
Proof.
  destruct (trimStart_suffix s) as [p Hp]. rewrite Hp at 2. rewrite strlen_app.
  unfold strlen. lia.
Qed.

Lemma strlen_trim (s : jsstring) : (strlen (trim s) <= strlen s)%Z.
Proof.
  unfold trim, trimEnd.
  pose proof (strlen_trimStart (rev (trimStart s))) as H1.
  pose proof (strlen_trimStart s) as H2.
  unfold strlen in *. rewrite length_rev in *. lia.
Qed.

Lemma bounded_more (maxChars : Z) (paragraphs g : list jsstring) (para : jsstring) :
  Bounded maxChars paragraphs g -> Bounded maxChars (paragraphs ++ [para]) g.
Proof.
  intros [H|[H|H]]; [left; exact H| |right; right; exact H].
  right; left. apply in_or_app. now left.
Qed.

Lemma greedy_bounded (maxChars : Z) (paragraphs : list jsstring) closed open :
  GreedyChunks maxChars paragraphs closed open ->
  Forall (fun g => Bounded maxChars paragraphs g /\ joinParagraphs g <> []) closed /\
  Bounded maxChars paragraphs open.
Proof.
  induction 1 as [|ps closed open para _ [IHc IHo] Hfit|ps closed open para _ [IHc IHo] Hover Hpos].
  - split; [constructor|]. right; right. reflexivity.
  - split.
    + eapply Forall_impl; [|exact IHc]. intros g [Hb Hn]. split; [now apply bounded_more|exact Hn].
    + rewrite <- (app_nil_l [para]) at 1. unfold Bounded. rewrite joinParagraphs_snoc.
      destruct Hfit as [Hfit|Hzero].
      * left. unfold accumulate. rewrite strlen_app in Hfit.
        destruct (truthy (joinParagraphs open)); rewrite !strlen_app.
        -- change (strlen nl) with 1%Z. lia.
        -- change (strlen []) with 0%Z. lia.
      * assert (E : joinParagraphs open = []).
        { destruct (joinParagraphs open); [reflexivity|]. unfold strlen in Hzero. cbn in Hzero. lia. }
        rewrite E. cbn. right; left. apply in_or_app. right. now left.
  - split.
    + apply Forall_app. split.
      * eapply Forall_impl; [|exact IHc]. intros g [Hb Hn]. split; [now apply bounded_more|exact Hn].
      * constructor; [|constructor]. split; [now apply bounded_more|].
        intros E. rewrite E in Hpos. cbn in Hpos. lia.
    + right; left. rewrite joinParagraphs_one. apply in_or_app. right. now left.
Qed.

(** X6.  Every chunk [chunkText] returns is trimmed, and either has at
    most [maxTokensPerChunk * 4 + 2] code units (the test of the loop
    leaves the separator of the last join out of the count) or is the
    trimmed text of a single paragraph, which is never split however long
    it is. *)
Theorem chunkText_chunk_bound (text : jsstring) (maxTokensPerChunk : Z) :
  Forall (fun chunk =>
            trim chunk = chunk /\
            ((strlen chunk <= maxTokensPerChunk * 4 + 2)%Z \/
             exists para, In para (splitParagraphs text) /\ chunk = trim para))
         (chunkText text maxTokensPerChunk).
Proof.
  destruct (chunkText_grouping text maxTokensPerChunk) as (closed & open & HG & _ & HE).
  rewrite HE. unfold emitChunks.
  destruct (greedy_bounded _ _ _ _ HG) as [Hc Ho].
  assert (Hchunk : forall g,
             Bounded (maxTokensPerChunk * 4) (splitParagraphs text) g ->
             trim (joinParagraphs g) <> [] ->
             trim (trim (joinParagraphs g)) = trim (joinParagraphs g) /\
             ((strlen (trim (joinParagraphs g)) <= maxTokensPerChunk * 4 + 2)%Z \/
              exists para, In para (splitParagraphs text) /\ trim (joinParagraphs g) = trim para)).
  { intros g Hb Hn. split; [apply trim_idempotent|].
    destruct Hb as [H|[H|H]].
    - left. pose proof (strlen_trim (joinParagraphs g)). lia.
    - right. now exists (joinParagraphs g).
    - rewrite H in Hn. now elim Hn. }
  apply Forall_app. split.
  - apply Forall_map. eapply Forall_impl; [|exact Hc].
    intros g [Hb Hn]. cbv beta.
    destruct (trim (joinParagraphs g)) eqn:E.
    + split; [reflexivity|].
      destruct Hb as [H|[H|H]].
      * left. pose proof (strlen_trim (joinParagraphs g)) as Ht. rewrite E in Ht. lia.
      * right. exists (joinParagraphs g). rewrite E. now split.
      * now elim Hn.
    + rewrite <- E. apply Hchunk; [exact Hb|]. rewrite E. discriminate.
  - destruct (truthy (trim (joinParagraphs open))) eqn:E; [|constructor].
    constructor; [|constructor]. apply Hchunk; [exact Ho|].
    intros E'. rewrite E' in E. discriminate.
Qed.

(** ** Chunking by whole paragraphs *)

(** C5 (as amended).  For every text and budget, [chunkText] cuts the
    text at its blank-line boundaries (the maximal runs of two or more
    line feeds) and nowhere else, and groups the paragraphs greedily in
    their original order: a paragraph opens a new chunk exactly when the
    current chunk is not empty and its text followed directly by the
    paragraph, the separator not counted, is longer than
    [maxTokensPerChunk * 4].  Every chunk returned is the text of one
    group - its paragraphs joined by blank lines, trimmed -, so no
    paragraph is split or moved; a group is within the budget but for the
    two code units of its last separator, or is a single paragraph, which
    is kept whole however long it is; and the chunks, concatenated in
    order, carry every code unit of the input that is not white space, in
    the original order. *)
Theorem chunkText_whole_paragraphs (text : jsstring) (maxTokensPerChunk : Z) :
  (forall paragraphs, Paragraphs text paragraphs <-> paragraphs = splitParagraphs text) /\
  exists (closed : list (list jsstring)) (open : list jsstring),
    GreedyChunks (maxTokensPerChunk * 4) (splitParagraphs text) closed open /\
    concat closed ++ open = splitParagraphs text /\
    chunkText text maxTokensPerChunk
    = map chunkOf closed ++ (if truthy (chunkOf open) then [chunkOf open] else []) /\
    Forall (Bounded (maxTokensPerChunk * 4) (splitParagraphs text)) (closed ++ [open]) /\
    stripWhiteSpace (concat (chunkText text maxTokensPerChunk)) = stripWhiteSpace text.
Proof.
  split; [intros paragraphs; apply splitParagraphs_boundaries|].
  destruct (chunkText_grouping text maxTokensPerChunk) as (closed & open & HG & HC & HE).
  exists closed, open.
  split; [exact HG|]. split; [exact HC|]. split; [now rewrite HE, emitChunks_chunkOf|].
  split; [|apply chunkText_content].
  destruct (greedy_bounded _ _ _ _ HG) as [Hc Ho].
  apply Forall_app. split; [|now constructor].
  eapply Forall_impl; [|exact Hc]. now intros g [Hb _].
Qed.

(** C5 as stated fails: with a budget of 2 tokens, that is 8 code units,
    two paragraphs of 4 code units each pass the length test of the loop
    (4 + 4 is not more than 8) and end up in one chunk of 10 code units,
    separator included. *)
Lemma chunkText_counterexample :
  splitParagraphs Fixtures.twoParagraphs = [lit "aaaa"; lit "bbbb"] /\
  chunkText Fixtures.twoParagraphs 2 = [lit "aaaa" ++ nl ++ nl ++ lit "bbbb"] /\
  (strlen (lit "aaaa" ++ nl ++ nl ++ lit "bbbb") > 2 * 4)%Z.
Proof. repeat split. Qed.

End ShapingProofs.


(* ================================================================== *)
(** * The service: proofs *)
(* ================================================================== *)

Module ServiceProofs.

Import Config Shaping Service Spec Fixtures.

(** ** The integrity check *)

Lemma existsSync_lookup (w : World) (path : jsstring) :
  existsSync w path = true <-> exists n, lookup (fs w) path = Some n.
Proof.
  unfold existsSync. destruct (lookup (fs w) path) as [n|].
  - split; [eauto|reflexivity].
  - split; [discriminate|]. intros [n H]. discriminate.
Qed.

Ltac gate_cases :=
  repeat match goal with
         | |- _ /\ _ => split
         | |- _ <-> _ => split
         | |- forall _, _ => intro
         | H : exists _, _ |- _ => destruct H
         | H : _ /\ _ |- _ => destruct H
         | H : Some _ = Some _ |- _ => injection H as H
         | H : Entry _ = Entry _ |- _ => injection H as H; subst
         | H : Some _ = None |- _ => discriminate H
         | H : None = Some _ |- _ => discriminate H
         | H : Entry _ = Faulty _ |- _ => discriminate H
         | H : Faulty _ = Entry _ |- _ => discriminate H
         end;
  subst; cbn [snd fst] in *;
  try reflexivity; try discriminate; try lia; try (exfalso; lia);
  try (eexists; split; [reflexivity|lia]).

(** C7.  [isModelValid] answers [true] exactly when the file exists, can
    be read, and its size is at least [max(100 MB, 0.9 * expectedSize)]
    (both sides scaled by 10); a file below 90 percent of an expected
    1,000,000,000 bytes is invalid although [existsSync] reports it; a
    [statSync] failure gives [false]; the check changes neither the file
    system nor the module state. *)
Theorem isModelValid_size_gate (w : World) (modelPath modelName : jsstring) :
  (snd (isModelValid modelPath modelName w) = true <->
   exists st, lookup (fs w) modelPath = Some (Entry st) /\
              (Z.max (10 * 100000000) (9 * expectedSizeBytes modelName) <= 10 * size st)%Z) /\
  (forall st, lookup (fs w) modelPath = Some (Entry st) ->
     existsSync w modelPath = true /\
     (expectedSizeBytes modelName = 1000000000%Z ->
      (10 * size st < 9 * 1000000000)%Z ->
      snd (isModelValid modelPath modelName w) = false)) /\
  (forall e, lookup (fs w) modelPath = Some (Faulty e) ->
     snd (isModelValid modelPath modelName w) = false) /\
  (lookup (fs w) modelPath = None -> snd (isModelValid modelPath modelName w) = false) /\
  fs (fst (isModelValid modelPath modelName w)) = fs w /\
  globals (fst (isModelValid modelPath modelName w)) = globals w.
Proof.
  unfold isModelValid, existsSync, statSync, expectedSizeBytes.
  destruct (lookup (fs w) modelPath) as [[st|e]|] eqn:EL; cbn [negb];
    [|gate_cases|gate_cases].
  cbv zeta.
  destruct (lookup MODEL_SIZES modelName) as [expected|] eqn:ES.
  - destruct (negb (expected =? 0)%Z && (10 * size st <? 9 * expected)%Z) eqn:E1.
    + apply andb_prop in E1 as [_ E1]. apply Z.ltb_lt in E1. gate_cases.
    + assert (Hs : (expected = 0 \/ 9 * expected <= 10 * size st)%Z).
      { apply andb_false_iff in E1 as [E1|E1].
        - left. apply negb_false_iff in E1. now apply Z.eqb_eq in E1.
        - right. now apply Z.ltb_ge in E1. }
      clear E1.
      destruct (size st <? 100000000)%Z eqn:E2;
        [apply Z.ltb_lt in E2|apply Z.ltb_ge in E2]; gate_cases.
  - destruct (size st <? 100000000)%Z eqn:E2;
      [apply Z.ltb_lt in E2|apply Z.ltb_ge in E2]; gate_cases.
Qed.

(** C7 at a file of 899,999,999 bytes for a model expected at 1,000,000,000
    bytes: it exists and is invalid. *)
Lemma isModelValid_size_gate_witness :
  existsSync truncatedWorld truncatedPath = true /\
  snd (isModelValid truncatedPath qwenLarge truncatedWorld) = false.
Proof.
  destruct (isModelValid_size_gate truncatedWorld truncatedPath qwenLarge) as (_ & H & _).
  destruct (H (mkStats 899999999 false) eq_refl) as [He Hs].
  split; [exact He | apply Hs; [reflexivity | vm_compute; reflexivity]].
Defined.

(** [expectedSize * 0.9] in double precision is the exact integer for every
    size of [MODEL_SIZES]. *)
Lemma minSize_exact :
  Forall (fun entry =>
            PrimFloat.mul (Numerics.toDouble (snd entry)) Numerics.ninetyPercent
            = Numerics.toDouble (9 * snd entry / 10)
            /\ ((9 * snd entry) mod 10 = 0)%Z)
         MODEL_SIZES.
Proof. repeat constructor. Qed.

(** ** Running an operation *)

Section Running.

Variable env : Env.

Lemma run_bindStep {A B : Type} (s : Step A) (f : A -> Async B) (h : list Request) :
  run env h (bindStep s f)
  = match result (run env h s) with
    | inr a => run env (requests (run env h s)) (f a (final (run env h s)))
    | inl e => mkOutcome (requests (run env h s)) (final (run env h s)) (inl e)
    end.
Proof.
  revert h. induction s as [w a|w e|w req k IH]; intros h; cbn [bindStep run result requests final].
  - reflexivity.
  - reflexivity.
  - apply IH.
Qed.

Lemma run_catchStep {A : Type} (s : Step A) (hd : JSError -> Async A) (h : list Request) :
  run env h (catchStep s hd)
  = match result (run env h s) with
    | inr a => run env h s
    | inl e => run env (requests (run env h s)) (hd e (final (run env h s)))
    end.
Proof.
  revert h. induction s as [w a|w e|w req k IH]; intros h; cbn [catchStep run result requests final].
  - reflexivity.
  - reflexivity.
  - apply IH.
Qed.

Lemma run_bind {A B : Type} (m : Async A) (f : A -> Async B) (h : list Request) (w : World) :
  run env h (bind m f w)
  = match result (run env h (m w)) with
    | inr a => run env (requests (run env h (m w))) (f a (final (run env h (m w))))
    | inl e => mkOutcome (requests (run env h (m w))) (final (run env h (m w))) (inl e)
    end.
Proof. apply run_bindStep. Qed.

Lemma run_tryCatch {A : Type} (m : Async A) (hd : JSError -> Async A) (h : list Request) (w : World) :
  run env h (tryCatch m hd w)
  = match result (run env h (m w)) with
    | inr a => run env h (m w)
    | inl e => run env (requests (run env h (m w))) (hd e (final (run env h (m w))))
    end.
Proof. apply run_catchStep. Qed.

Lemma run_await {A : Type} (m : Async A) (h : list Request) (w : World) :
  run env h (await m w)
  = mkOutcome (requests (run env h (m w)) ++ [Tick]) (final (run env h (m w)))
              (result (run env h (m w))).
Proof.
  unfold await. rewrite run_tryCatch, run_bind.
  destruct (run env h (m w)) as [rs w' [e|a]]; reflexivity.
Qed.

Lemma run_perform (f : World -> World) (h : list Request) (w : World) :
  run env h (perform f w) = mkOutcome h (f w) (inr tt).
Proof. reflexivity. Qed.

Lemma run_ret {A : Type} (a : A) (h : list Request) (w : World) :
  run env h (ret a w) = mkOutcome h w (inr a).
Proof. reflexivity. Qed.

Lemma run_request (req : Request) (h : list Request) (w : World) :
  run env h (request req w) = mkOutcome (h ++ [req]) w (env h req).
Proof. cbn. destruct (env h req); reflexivity. Qed.

(** [chat] never touches the module state; it reaches the engine exactly
    when a model and a session are loaded. *)
Lemma run_chat_not_ready (prompt : jsstring) (options : ChatOptions) (h : list Request) (w : World) :
  ready w = false ->
  run env h (chat prompt options w) = mkOutcome h w (inl notLoaded).
Proof.
  unfold ready, chat. intros H.
  destruct (model (globals w)); destruct (chatSession (globals w)); try discriminate; reflexivity.
Qed.

Lemma run_chat_ready (prompt : jsstring) (options : ChatOptions) (h : list Request) (w : World) :
  ready w = true ->
  exists s o,
    run env h (chat prompt options w)
    = mkOutcome (h ++ [SessionPrompt s prompt o]) w (env h (SessionPrompt s prompt o)).
Proof.
  unfold ready, chat. intros H.
  destruct (model (globals w)); destruct (chatSession (globals w)) as [s|]; try discriminate.
  eexists s, _. exact (run_request (SessionPrompt s prompt _) h w).
Qed.

Lemma run_chat_final (prompt : jsstring) (options : ChatOptions) (h : list Request) (w : World) :
  final (run env h (chat prompt options w)) = w.
Proof.
  destruct (ready w) eqn:E.
  - destruct (run_chat_ready prompt options h w E) as (s & o & ->). reflexivity.
  - now rewrite run_chat_not_ready.
Qed.

Lemma prompts_app (a b : list Request) : prompts (a ++ b) = prompts a ++ prompts b.
Proof. apply flat_map_app. Qed.

(** ** batchCategorize *)

Variable toLowerCase : jsstring -> jsstring.

Lemma matchedCategory_known (categories : list jsstring) (line : jsstring) :
  In (matchedCategory toLowerCase categories line) categories
  \/ matchedCategory toLowerCase categories line = unknown.
Proof.
  unfold matchedCategory.
  match goal with |- context [find ?f categories] => destruct (find f categories) as [c|] eqn:E end.
  - destruct (truthy c); [left|right; reflexivity].
    apply find_some in E. apply E.
  - right. reflexivity.
Qed.

Lemma categorizeBatch_keeps (categories lines : list jsstring) (batch : list Item) (idx : nat) :
  Forall2 (Keeps categories) batch (categorizeBatch toLowerCase categories lines idx batch).
Proof.
  revert idx. induction batch as [|item batch IH]; intros idx; cbn [categorizeBatch].
  - constructor.
  - constructor; [|apply IH].
    repeat split. apply matchedCategory_known.
Qed.

Lemma unknown_keeps (categories : list jsstring) (batch : list Item) :
  Forall2 (Keeps categories) batch (map (fun item => withCategory item unknown) batch).
Proof.
  induction batch as [|item batch IH]; cbn [map]; constructor; [|exact IH].
  repeat split. right. reflexivity.
Qed.

(** One turn of the loop never throws: it appends one result per item of
    the batch, and the sentinel for each of them when the chat call fails. *)
Lemma run_batchTurn (categories : list jsstring) (batch : list Item)
  (results : list Categorized) (h : list Request) (w : World) :
  let c := run env h (chat (batchPrompt categories batch) (chatOptions 64 (1 # 10)) w) in
  let o := run env h (batchTurn toLowerCase categories batch results w) in
  globals (final o) = globals w /\
  match result c with
  | inl _ => result o = inr (results ++ map (fun item => withCategory item unknown) batch)
  | inr response =>
      result o = inr (results ++ categorizeBatch toLowerCase categories
                                   (splitOn LF (trim response)) 0 batch)
  end.
Proof.
  intros c o. subst o. unfold batchTurn.
  rewrite run_tryCatch, run_bind, run_await.
  cbn [result requests final].
  pose proof (run_chat_final (batchPrompt categories batch) (chatOptions 64 (1 # 10)) h w) as Hf.
  fold c in Hf |- *.
  destruct c as [rs w' [e|response]]; cbn [result requests final] in *; subst w'.
  - split; reflexivity.
  - split; reflexivity.
Qed.

Lemma run_batchLoop (items : list Item) (categories : list jsstring) :
  forall (turns i : nat) (results : list Categorized) (h : list Request) (w : World),
    List.length items - i <= turns ->
    exists rs,
      result (run env h (batchLoop toLowerCase turns i items categories results w))
      = inr (results ++ rs) /\
      Forall2 (Keeps categories) (skipn i items) rs /\
      (ready w = false -> rs = map (fun item => withCategory item unknown) (skipn i items)).
Proof.
  induction turns as [|turns IH]; intros i results h w Hle.
  - assert (E : skipn i items = []) by (apply skipn_all2; lia).
    exists []. rewrite E, app_nil_r. cbn. repeat split. constructor.
  - cbn [batchLoop]. destruct (Nat.ltb i (List.length items)) eqn:Elt.
    + apply Nat.ltb_lt in Elt. rewrite run_bind.
      set (batch := firstn batchSize (skipn i items)).
      pose proof (run_batchTurn categories batch results h w) as Ht.
      cbv zeta in Ht. destruct Ht as (Hg & Ht).
      set (o := run env h (batchTurn toLowerCase categories batch results w)) in *.
      assert (Hsplit : skipn i items = batch ++ skipn (i + batchSize) items).
      { unfold batch. rewrite Nat.add_comm, <- skipn_skipn. symmetry. apply firstn_skipn. }
      assert (Hready : ready (final o) = ready w) by (unfold ready; now rewrite Hg).
      destruct (run env h (chat (batchPrompt categories batch) (chatOptions 64 (1 # 10)) w))
        as [rs0 w0 [e|response]] eqn:Ec; cbn [result] in Ht; rewrite Ht.
      * destruct (IH (i + batchSize) (results ++ map (fun item => withCategory item unknown) batch)
                     (requests o) (final o)) as (rs & Hr & HF & HU); [unfold batchSize; lia|].
        exists (map (fun item => withCategory item unknown) batch ++ rs).
        rewrite Hr, <- app_assoc. split; [reflexivity|]. split.
        -- rewrite Hsplit. apply Forall2_app; [apply unknown_keeps|exact HF].
        -- intros Hn. rewrite Hsplit, map_app, HU; [reflexivity|]. now rewrite Hready.
      * destruct (IH (i + batchSize)
                     (results ++ categorizeBatch toLowerCase categories
                                   (splitOn LF (trim response)) 0 batch)
                     (requests o) (final o)) as (rs & Hr & HF & HU); [unfold batchSize; lia|].
        exists (categorizeBatch toLowerCase categories (splitOn LF (trim response)) 0 batch ++ rs).
        rewrite Hr, <- app_assoc. split; [reflexivity|]. split.
        -- rewrite Hsplit. apply Forall2_app; [apply categorizeBatch_keeps|exact HF].
        -- intros Hn. rewrite (run_chat_not_ready _ _ h w Hn) in Ec. discriminate.
    + apply Nat.ltb_ge in Elt.
      assert (E : skipn i items = []) by (apply skipn_all2; lia).
      exists []. rewrite E, app_nil_r. cbn. repeat split. constructor.
Qed.

Lemma batches_step {A : Type} (turns i : nat) (items : list A) :
  i < List.length items ->
  batches (S turns) batchSize (skipn i items)
  = firstn batchSize (skipn i items) :: batches turns batchSize (skipn (i + batchSize) items).
Proof.
  intros Hlt. cbn [batches]. destruct (skipn i items) as [|x rest] eqn:Es.
  - apply (f_equal (@List.length A)) in Es. rewrite length_skipn in Es. cbn in Es. lia.
  - rewrite <- Es. now rewrite skipn_skipn, (Nat.add_comm batchSize i).
Qed.

(** One turn of the loop in a ready service: one prompt, and the results
    the answer gives. *)
Lemma run_batchTurn_ready (categories : list jsstring) (batch : list Item)
  (results : list Categorized) (h : list Request) (w : World) (session : ChatSession) :
  ready w = true -> chatSession (globals w) = Some session ->
  let o := run env h (batchTurn toLowerCase categories batch results w) in
  requests o = h ++ [batchRequest session categories batch; Tick] /\
  globals (final o) = globals w /\
  result o
  = inr (results
         ++ match env h (batchRequest session categories batch) with
            | inl _ => map (fun item => withCategory item unknown) batch
            | inr response =>
                categorizeBatch toLowerCase categories (splitOn LF (trim response)) 0 batch
            end).
Proof.
  intros Hr Hs o. subst o.
  assert (Hc : run env h (chat (batchPrompt categories batch) (chatOptions 64 (1 # 10)) w)
               = mkOutcome (h ++ [batchRequest session categories batch]) w
                           (env h (batchRequest session categories batch))).
  { unfold ready in Hr. unfold chat. rewrite Hs in *.
    destruct (model (globals w)); [|discriminate].
    exact (run_request (batchRequest session categories batch) h w). }
  unfold batchTurn. rewrite run_tryCatch, run_bind, run_await, Hc.
  cbn [result requests final].
  destruct (env h (batchRequest session categories batch)) as [e|response];
    cbn [result requests final]; rewrite <- app_assoc; repeat split.
Qed.

(** The loop in a ready service gives the results of its batches. *)
Lemma settled_batchLoop (items : list Item) (categories : list jsstring)
  (session : ChatSession) :
  forall (turns i : nat) (results : list Categorized) (h : list Request) (w : World),
    ready w = true -> chatSession (globals w) = Some session ->
    result (run env h (batchLoop toLowerCase turns i items categories results w))
    = inr (results ++ settled toLowerCase env session categories h
                        (batches turns batchSize (skipn i items))).
Proof.
  induction turns as [|turns IH]; intros i results h w Hr Hs.
  - cbn. now rewrite app_nil_r.
  - cbn [batchLoop]. destruct (Nat.ltb i (List.length items)) eqn:Elt.
    + apply Nat.ltb_lt in Elt. rewrite run_bind, (batches_step turns i items Elt).
      set (batch := firstn batchSize (skipn i items)).
      destruct (run_batchTurn_ready categories batch results h w session Hr Hs)
        as (Hq & Hg & Hres).
      rewrite Hres, Hq. cbn [settled].
      rewrite IH; [now rewrite <- app_assoc| |now rewrite Hg].
      unfold ready. now rewrite Hg.
    + apply Nat.ltb_ge in Elt. rewrite (skipn_all2 items) by lia.
      cbn. now rewrite app_nil_r.
Qed.

End Running.

(** C10.  For every non-empty list of items and every list of categories,
    whatever the engine answers, [batchCategorize] returns (it does not
    throw) one result per item in the order of the items; each result has
    the title and the url of its item and a category that is an element of
    [categories] or the string "unknown".  In a ready service the results
    are those of the consecutive batches of three items: every item of a
    batch whose chat call throws gets "unknown", every item of a batch that
    was answered gets the category of its line of the answer, and a failed
    batch does not stop the later ones.  With no model loaded every chat
    call throws and every item gets "unknown". *)
Theorem batchCategorize_one_result_per_item
  (toLowerCase : jsstring -> jsstring) (env : Env) (h : list Request) (w : World)
  (items : list Item) (categories : list jsstring) :
  items <> [] ->
  exists results,
    result (run env h (batchCategorize toLowerCase items categories w)) = inr results /\
    Forall2 (Keeps categories) items results /\
    (ready w = false -> results = map (fun item => withCategory item unknown) items) /\
    (forall session,
       ready w = true -> chatSession (globals w) = Some session ->
       results = settled toLowerCase env session categories h
                   (batches (List.length items) batchSize items)).
Proof.
  intros Hne. unfold batchCategorize.
  destruct items as [|item items]; [congruence|]. cbn [List.length Nat.eqb].
  destruct (run_batchLoop env toLowerCase (item :: items) categories
              (List.length (item :: items)) 0 [] h w) as (rs & Hr & HF & HU); [lia|].
  exists rs. cbn [List.length app] in Hr. rewrite Hr.
  split; [reflexivity|]. split; [exact HF|]. split; [exact HU|].
  intros session Hready Hs.
  pose proof (settled_batchLoop env toLowerCase (item :: items) categories session
                (S (List.length items)) 0 [] h w Hready Hs) as H.
  rewrite Hr in H. cbn [app skipn] in H. now injection H.
Qed.

(** C10 at four items, two categories and a session that answers the
    first prompt and rejects the second: the three items of the first
    batch get the categories of their lines ("Shopping" is not a category
    of the list), the item of the second batch gets "unknown". *)
Lemma batchCategorize_one_result_per_item_witness :
  result (run flaky [] (batchCategorize asciiLower fourItems
                          [lit "Work"; lit "Personal"] readyWorld))
  = inr [ mkCategorized (lit "Inbox") (lit "https://mail.example.com") (lit "Work");
          mkCategorized (lit "Holiday photos") (lit "https://photos.example.com")
                        (lit "Personal");
          mkCategorized (lit "Checkout") (lit "https://shop.example.com/cart") unknown;
          mkCategorized (lit "Quarterly report") (lit "https://docs.example.com/q3")
                        unknown ].
Proof.
  destruct (batchCategorize_one_result_per_item asciiLower flaky [] readyWorld
              fourItems [lit "Work"; lit "Personal"]) as (results & Hr & _ & _ & Hs).
  - intros H. discriminate H.
  - rewrite Hr, (Hs (mkChatSession 0 SYSTEM_PROMPT) eq_refl eq_refl).
    vm_compute. reflexivity.
Defined.

(** ** notifyProgress *)

Lemma invokeListener_trace (args : ProgressArgs) (w : World) (l : Listener) :
  trace (invokeListener args w l)
  = trace w ++ deliveryEvents args l (react l (trace w) args) /\
  globals (invokeListener args w l) = globals w /\
  progressListeners (invokeListener args w l) = progressListeners w /\
  fs (invokeListener args w l) = fs w /\
  homedir (invokeListener args w l) = homedir w.
Proof.
  unfold invokeListener, deliveryEvents.
  destruct (react l (trace w) args) as [e|]; cbn; repeat split.
  now rewrite <- app_assoc.
Qed.

Lemma fold_invokeListener (args : ProgressArgs) (ls : list Listener) (w : World) :
  exists events,
    Deliveries args (trace w) ls events /\
    trace (fold_left (invokeListener args) ls w) = trace w ++ events /\
    globals (fold_left (invokeListener args) ls w) = globals w /\
    progressListeners (fold_left (invokeListener args) ls w) = progressListeners w /\
    fs (fold_left (invokeListener args) ls w) = fs w /\
    homedir (fold_left (invokeListener args) ls w) = homedir w.
Proof.
  revert w. induction ls as [|l ls IH]; intros w.
  - exists []. cbn. rewrite app_nil_r. repeat split. constructor.
  - cbn [fold_left].
    destruct (invokeListener_trace args w l) as (Ht & Hg & Hl & Hf & Hh).
    destruct (IH (invokeListener args w l)) as (events & HD & Ht' & Hg' & Hl' & Hf' & Hh').
    exists (deliveryEvents args l (react l (trace w) args) ++ events).
    rewrite Ht', Hg', Hl', Hf', Hh', Ht, <- app_assoc. repeat split; try assumption.
    constructor. rewrite <- Ht. exact HD.
Qed.

Lemma deliveries_calls (args : ProgressArgs) before ls events :
  Deliveries args before ls events ->
  calls events = map (fun l => (lid l, args)) ls /\
  listenerWarnings events = thrownByListeners events.
Proof.
  induction 1 as [before|before l ls events _ [IH1 IH2]].
  - split; reflexivity.
  - unfold calls, listenerWarnings, thrownByListeners in *.
    rewrite !flat_map_app, IH1, IH2.
    unfold deliveryEvents. destruct (react l before args); split; reflexivity.
Qed.

(** C9.  For every list of registered listeners and every event,
    [notifyProgress] returns normally (it is a total function of the world)
    after calling every registered listener exactly once, in registration
    order, with the event, whichever of them throw; each exception is
    caught and reported with [console.warn], and nothing but the trace
    changes. *)
Theorem notifyProgress_reaches_every_listener
  (type : ProgressType) (progress : Q) (modelName : jsstring) (error : option jsstring)
  (w : World) :
  let args := mkProgressArgs type progress modelName error in
  let w' := notifyProgress type progress modelName error w in
  exists events,
    trace w' = trace w ++ events /\
    Deliveries args (trace w) (progressListeners w) events /\
    calls events = map (fun l => (lid l, args)) (progressListeners w) /\
    listenerWarnings events = thrownByListeners events /\
    globals w' = globals w /\
    progressListeners w' = progressListeners w /\
    fs w' = fs w.
Proof.
  intros args w'. subst w'. unfold notifyProgress. fold args.
  destruct (fold_invokeListener args (progressListeners w) w)
    as (events & HD & Ht & Hg & Hl & Hf & _).
  exists events. destruct (deliveries_calls args _ _ _ HD) as [Hc Hw].
  repeat split; assumption.
Qed.

(** With a throwing listener registered before a quiet one, both are
    called and the exception is reported in between. *)
Example notifyProgress_sample :
  trace (notifyProgress PLoaded 100 llamaModel None freshWorld)
  = [ Delivered 2 (mkProgressArgs PLoaded 100 llamaModel None)
                  (Some (Error (lit "listener failed")));
      Console Warn (lit "[LocalLLM] Progress listener error:")
                   [LogError (Error (lit "listener failed"))];
      Delivered 1 (mkProgressArgs PLoaded 100 llamaModel None) None ].
Proof. reflexivity. Qed.

(** ** loadModel on the model that is already loaded *)

Lemma streq_refl (s : jsstring) : streq s s = true.
Proof. induction s as [|c s IH]; [reflexivity|]. cbn. now rewrite N.eqb_refl. Qed.

(** C3.  When the service is ready ([isLoading] is false) and [modelName]
    is the model currently loaded, [loadModel(modelName)] returns [true]
    at once: it makes no request to the network or to the engine, calls no
    listener, and leaves the module state and the file system unchanged
    (it writes one console line). *)
Theorem loadModel_same_model_is_noop (env : Env) (w : World) (modelName : jsstring) (m : Model) :
  isLoading (globals w) = false ->
  currentModelName (globals w) = Some modelName ->
  model (globals w) = Some m ->
  loadModel modelName w
  = Returned (console Log (lit "[LocalLLM] Model already loaded:") [LogText modelName] w) true /\
  requests (run env [] (loadModel modelName w)) = [] /\
  result (run env [] (loadModel modelName w)) = inr true /\
  globals (final (run env [] (loadModel modelName w))) = globals w /\
  fs (final (run env [] (loadModel modelName w))) = fs w /\
  progressListeners (final (run env [] (loadModel modelName w))) = progressListeners w /\
  calls (trace (final (run env [] (loadModel modelName w)))) = calls (trace w).
Proof.
  intros HL HC HM.
  assert (E : loadModel modelName w
              = Returned (console Log (lit "[LocalLLM] Model already loaded:")
                            [LogText modelName] w) true).
  { unfold loadModel. rewrite HL, HC, HM. cbn [sameModel isSome].
    now rewrite streq_refl. }
  rewrite E. cbn. repeat split.
  unfold calls. rewrite flat_map_app. cbn. now rewrite app_nil_r.
Qed.

(** C3 in the ready world of the samples. *)
Lemma loadModel_same_model_is_noop_witness :
  loadModel qwenModel readyWorld
  = Returned (console Log (lit "[LocalLLM] Model already loaded:") [LogText qwenModel] readyWorld)
             true /\
  requests (run working [] (loadModel qwenModel readyWorld)) = [].
Proof.
  destruct (loadModel_same_model_is_noop working readyWorld qwenModel 2
              eq_refl eq_refl eq_refl) as (H1 & H2 & _).
  split; [exact H1 | exact H2].
Defined.

(** ** parseCommand *)

Lemma upToLast_spec (c : N) (s r : jsstring) :
  upToLast c s = Some r ->
  exists body post, r = body ++ [c] /\ s = r ++ post /\ ~ In c post.
Proof.
  revert r. induction s as [|d s IH]; intros r H; [discriminate|].
  cbn [upToLast] in H. destruct (upToLast c s) as [r'|] eqn:E.
  - injection H as <-. destruct (IH r' eq_refl) as (body & post & -> & -> & Hn).
    exists (d :: body), post. split; [reflexivity|]. split; [reflexivity|exact Hn].
  - destruct (d =? c)%N eqn:Ed; [|discriminate]. injection H as <-.
    apply N.eqb_eq in Ed. subst d. exists [], s. split; [reflexivity|]. split; [reflexivity|].
    clear IH. induction s as [|x s IHs]; [easy|].
    cbn [upToLast] in E. destruct (upToLast c s) eqn:E'; [discriminate|].
    destruct (x =? c)%N eqn:Ex; [discriminate|]. apply N.eqb_neq in Ex.
    intros [Hx|Hin]; [congruence|]. now apply IHs.
Qed.

Lemma matchBraces_spec (response jsonMatch : jsstring) :
  matchBraces response = Some jsonMatch ->
  exists before body after,
    response = before ++ jsonMatch ++ after /\
    jsonMatch = 123%N :: body ++ [125%N] /\
    ~ In 123%N before /\ ~ In 125%N after.
Proof.
  revert jsonMatch. induction response as [|c s IH]; intros m H; [discriminate|].
  cbn [matchBraces] in H. destruct (c =? 123)%N eqn:Ec.
  - apply N.eqb_eq in Ec. subst c.
    destruct (upToLast 125 s) as [r|] eqn:E.
    + injection H as <-. destruct (upToLast_spec _ _ _ E) as (body & post & -> & -> & Hn).
      exists [], body, post. split; [reflexivity|]. split; [reflexivity|]. split; [easy|exact Hn].
    + destruct (IH m H) as (before & body & after & -> & -> & _ & _).
      exfalso. clear IH H.
      assert (Hin : In 125%N (before ++ (123%N :: body ++ [125%N]) ++ after)).
      { apply in_or_app. right. apply in_or_app. left. right. apply in_or_app. right. now left. }
      revert E Hin. generalize (before ++ (123%N :: body ++ [125%N]) ++ after).
      intros l. induction l as [|x l IHl]; [easy|].
      cbn [upToLast]. destruct (upToLast 125 l); [discriminate|].
      destruct (x =? 125)%N eqn:Ex; [discriminate|]. apply N.eqb_neq in Ex.
      intros _ [Hx|Hl]; [congruence|]. now apply IHl.
  - apply N.eqb_neq in Ec.
    destruct (IH m H) as (before & body & after & -> & -> & Hb & Ha).
    exists (c :: before), body, after. split; [reflexivity|]. split; [reflexivity|]. split; [|exact Ha].
    intros [Hc|Hin]; [congruence|contradiction].
Qed.

Lemma upToLast_none (c : N) (s : jsstring) : ~ In c s -> upToLast c s = None.
Proof.
  induction s as [|d s IH]; [reflexivity|]. intros Hn. cbn [upToLast].
  rewrite IH by (intros H; apply Hn; now right).
  destruct (N.eqb_spec d c) as [->|_]; [|reflexivity]. elim Hn. now left.
Qed.

Lemma upToLast_complete (c : N) (body post : jsstring) :
  ~ In c post -> upToLast c (body ++ c :: post) = Some (body ++ [c]).
Proof.
  intros Hn. induction body as [|d body IH]; cbn [app upToLast].
  - now rewrite (upToLast_none c post Hn), N.eqb_refl.
  - now rewrite IH.
Qed.

Lemma matchBraces_complete (before body after : jsstring) :
  ~ In 123%N before -> ~ In 125%N after ->
  matchBraces (before ++ 123%N :: body ++ 125%N :: after) = Some (123%N :: body ++ [125%N]).
Proof.
  intros Hb Ha. induction before as [|c before IH]; cbn [app matchBraces].
  - cbn [N.eqb Pos.eqb]. now rewrite (upToLast_complete 125 body after Ha).
  - destruct (N.eqb_spec c 123) as [->|_]; [elim Hb; now left|].
    apply IH. intros H. apply Hb. now right.
Qed.

(** C8 (as amended).  In a ready service [parseCommand] sends one prompt.
    When the chat call throws (the engine fails, no model is loaded), the
    error reaches the caller.  When it returns a response, [parseCommand]
    does not throw: if the response has an opening brace with a closing
    brace somewhere after it, it returns what [JSON.parse] makes of the
    text from the first opening brace through the last closing brace, and
    the fallback [{action: "unknown", raw: command}] when [JSON.parse]
    rejects that text; if there is no such pair of braces it returns the
    fallback. *)
Theorem parseCommand_falls_back (JSON_parse : jsstring -> JSError + JSValue)
  (env : Env) (h : list Request) (w : World) (command : jsstring) :
  let c := run env h (chat (commandPrompt command) (chatOptions 128 (1 # 10)) w) in
  let o := run env h (parseCommand JSON_parse command w) in
  (ready w = true -> prompts (requests o) = prompts h ++ [commandPrompt command]) /\
  match result c with
  | inl e => result o = inl e
  | inr response =>
      (forall before body after,
         response = before ++ 123%N :: body ++ 125%N :: after ->
         ~ In 123%N before -> ~ In 125%N after ->
         result o = inr match JSON_parse (123%N :: body ++ [125%N]) with
                        | inr v => v
                        | inl _ => fallbackCommand command
                        end) /\
      ((forall before body after,
          ~ In 123%N before -> ~ In 125%N after ->
          response <> before ++ 123%N :: body ++ 125%N :: after) ->
       result o = inr (fallbackCommand command))
  end.
Proof.
  intros c o.
  assert (Hres : match result c with
                 | inl e => result o = inl e
                 | inr response =>
                     result o = inr match matchBraces response with
                                    | Some jsonMatch =>
                                        match JSON_parse jsonMatch with
                                        | inr v => v
                                        | inl _ => fallbackCommand command
                                        end
                                    | None => fallbackCommand command
                                    end
                 end).
  { subst o. unfold parseCommand.
    rewrite run_bind, run_await. cbn [result requests final]. fold c.
    destruct c as [rs w' [e|response]]; cbn [result requests final]; [reflexivity|].
    rewrite run_tryCatch.
    destruct (matchBraces response) as [jsonMatch|]; [|reflexivity].
    destruct (JSON_parse jsonMatch) as [e|v]; reflexivity. }
  split.
  - intros Hr. subst o. unfold parseCommand.
    rewrite run_bind, run_await. cbn [result requests final].
    destruct (run_chat_ready env (commandPrompt command) (chatOptions 128 (1 # 10)) h w Hr)
      as (s & sent & Hc).
    rewrite Hc. cbn [result requests final].
    destruct (env h (SessionPrompt s (commandPrompt command) sent)) as [e|response];
      cbn [requests].
    + rewrite !prompts_app. cbn. now rewrite app_nil_r.
    + rewrite run_tryCatch.
      destruct (matchBraces response) as [jsonMatch|];
        [destruct (JSON_parse jsonMatch) as [e|v]|];
        cbn [run throw ret perform bind bindStep result requests final];
        rewrite !prompts_app; cbn; now rewrite app_nil_r.
  - destruct (result c) as [e|response]; [exact Hres|]. split.
    + intros before body after -> Hb Ha.
      now rewrite (matchBraces_complete before body after Hb Ha) in Hres.
    + intros Hnone. destruct (matchBraces response) as [jsonMatch|] eqn:E; [|exact Hres].
      destruct (matchBraces_spec _ _ E) as (before & body & after & Hresp & -> & Hb & Ha).
      elim (Hnone before body after Hb Ha). rewrite Hresp. cbn [app].
      now rewrite <- app_assoc.
Qed.

(** C8 (as amended) at a response that embeds an object in prose: the
    object is what the caller gets. *)
Lemma parseCommand_falls_back_witness :
  result (run embedded [] (parseCommand emptyObjectOnly (lit "open example.com") readyWorld))
  = inr (JObject []).
Proof.
  destruct (parseCommand_falls_back emptyObjectOnly embedded [] readyWorld
              (lit "open example.com")) as (_ & H).
  assert (E : result (run embedded []
                        (chat (commandPrompt (lit "open example.com"))
                              (chatOptions 128 (1 # 10)) readyWorld))
              = inr (lit "Here you go: {} - done")) by reflexivity.
  rewrite E in H. destruct H as [H _].
  rewrite (H (lit "Here you go: ") [] (lit " - done")).
  - reflexivity.
  - reflexivity.
  - cbn. intuition discriminate.
  - cbn. intuition discriminate.
Defined.

(** C8 as stated fails in a ready service.  When the session rejects the
    prompt, [parseCommand] throws that error to its caller.  And when the
    response holds two objects, what is parsed is not the first
    brace-delimited text but everything from the first opening brace
    through the last closing one: the caller gets the fallback although
    the first object parses. *)
Lemma parseCommand_counterexample :
  ready readyWorld = true /\
  result (run overloaded [] (parseCommand emptyObjectOnly (lit "open example.com") readyWorld))
  = inl (Error (lit "No sequences left")) /\
  matchBraces (lit "Either {} or {}") = Some (lit "{} or {}") /\
  emptyObjectOnly (lit "{}") = inr (JObject []) /\
  result (run twoObjects [] (parseCommand emptyObjectOnly (lit "open example.com") readyWorld))
  = inr (fallbackCommand (lit "open example.com")).
Proof. repeat split; vm_compute; reflexivity. Qed.

(** ** summarize *)

Lemma skipn_nth_cons {A : Type} (l : list A) (i : nat) (d : A) :
  i < List.length l -> skipn i l = nth i l d :: skipn (S i) l.
Proof.
  revert i. induction l as [|x l IH]; intros i Hi; [cbn in Hi; lia|].
  destruct i as [|i]; [reflexivity|].
  cbn [skipn nth]. rewrite (IH i) by (cbn in Hi; lia). reflexivity.
Qed.

Lemma ready_console (level : ConsoleLevel) (text : jsstring) (rest : list LogValue) (w : World) :
  ready (console level text rest w) = ready w.
Proof. reflexivity. Qed.

Lemma run_summarizeChunks (env : Env) (w : World) (chunks : list jsstring) :
  ready w = true ->
  answersEveryPrompt env ->
  forall (remaining i : nat) (acc : list jsstring) (h : list Request),
    i + remaining <= List.length chunks ->
    exists summaries h',
      run env h (summarizeChunks remaining i chunks acc w)
      = mkOutcome h' w (inr (acc ++ summaries)) /\
      List.length summaries = remaining /\
      prompts h' = prompts h ++ map chunkPrompt (firstn remaining (skipn i chunks)).
Proof.
  intros Hr Hans. induction remaining as [|remaining IH]; intros i acc h Hle.
  - exists [], h. cbn. rewrite !app_nil_r. repeat split.
  - cbn [summarizeChunks]. rewrite run_bind, run_await.
    destruct (run_chat_ready env (chunkPrompt (nth i chunks [])) (chatOptions 100 (3 # 10)) h w Hr)
      as (s & o & Hc).
    rewrite Hc. cbn [result requests final].
    destruct (Hans h s (chunkPrompt (nth i chunks [])) o) as [answer Ha]. rewrite Ha.
    destruct (IH (S i) (acc ++ [trim answer])
                 ((h ++ [SessionPrompt s (chunkPrompt (nth i chunks [])) o]) ++ [Tick]))
      as (summaries & h' & Hrun & Hlen & Hp); [lia|].
    exists (trim answer :: summaries), h'.
    rewrite Hrun, <- app_assoc. repeat split.
    + cbn. now rewrite Hlen.
    + rewrite Hp, !prompts_app. cbn [prompts flat_map app].
      rewrite (skipn_nth_cons chunks i []) by lia.
      cbn [firstn map]. now rewrite <- !app_assoc.
Qed.

Lemma firstn_min_length {A : Type} (l : list A) (n : nat) :
  firstn (Nat.min (List.length l) n) l = firstn n l.
Proof.
  destruct (Nat.le_gt_cases (List.length l) n) as [H|H].
  - rewrite Nat.min_l by exact H. rewrite !firstn_all2 by lia. reflexivity.
  - rewrite Nat.min_r by lia. reflexivity.
Qed.

Lemma not_blank (text : jsstring) :
  trim text <> [] -> negb (truthy text) || (strlen (trim text) =? 0)%Z = false.
Proof.
  intros H. destruct text as [|c text]; [now elim H|].
  cbn [truthy negb orb]. apply Z.eqb_neq. unfold strlen.
  destruct (trim (c :: text)); [now elim H|]. cbn. lia.
Qed.

Lemma blank (text : jsstring) :
  trim text = [] -> negb (truthy text) || (strlen (trim text) =? 0)%Z = true.
Proof. intros H. rewrite H. apply orb_true_r. Qed.

(** C4.  [summarize], asked for a number of sentences that is a safe
    integer, has three tiers; the estimate is below 700 tokens exactly for
    a text of at most 2796 code units.  A text that is empty or all white
    space gives the empty string with no chat call.  Otherwise, with an
    estimate below 700 tokens, it is one call of [chat] with the direct
    prompt on the whole text.  Otherwise it chunks the text at 500 tokens
    per chunk.  With exactly one chunk it is one call of [chat] with the
    direct prompt on the truncated text: the text itself when the estimate
    is exactly 700, and otherwise its first 1350 code units, the
    truncation marker and its last 1350 code units, 2742 code units in
    all.  With any other number of chunks (there are at least two then) it
    prompts once for each of the first five chunks at most, in order, and
    then once more to combine the summaries, the later chunks being
    dropped.  (The counts are those of a ready service whose engine
    answers.) *)
Theorem summarize_three_tiers (env : Env) (w : World) (text : jsstring) (maxLength : Z) :
  safeInteger maxLength ->
  let o := run env [] (summarize text maxLength w) in
  let chunks := chunkText text 500 in
  ((estimateTokens text < 700)%Z <-> (strlen text <= 2796)%Z) /\
  (trim text = [] -> summarize text maxLength w = Returned w []) /\
  (trim text <> [] -> (estimateTokens text < 700)%Z ->
     summarize text maxLength w
     = await (chat (summaryPrompt maxLength text) (chatOptions 256 (3 # 10))) w /\
     (ready w = true -> prompts (requests o) = [summaryPrompt maxLength text])) /\
  (trim text <> [] -> (700 <= estimateTokens text)%Z -> List.length chunks = 1 ->
     summarize text maxLength w
     = await (chat (summaryPrompt maxLength (truncateForContext text 700))
                   (chatOptions 256 (3 # 10))) w /\
     (ready w = true ->
      prompts (requests o) = [summaryPrompt maxLength (truncateForContext text 700)]) /\
     ((estimateTokens text = 700)%Z -> truncateForContext text 700 = text) /\
     ((700 < estimateTokens text)%Z ->
      truncateForContext text 700 = spliced text 1350 /\
      strlen (truncateForContext text 700) = 2742%Z /\
      (2800 < strlen text)%Z)) /\
  (trim text <> [] -> (700 <= estimateTokens text)%Z -> List.length chunks <> 1 ->
     2 <= List.length chunks /\
     (ready w = true -> answersEveryPrompt env ->
      exists summaries,
        List.length summaries = Nat.min (List.length chunks) 5 /\
        prompts (requests o)
        = map chunkPrompt (firstn 5 chunks)
          ++ [finalPrompt maxLength (join (lit " ") summaries)] /\
        List.length (prompts (requests o)) = Nat.min (List.length chunks) 5 + 1)).
Proof.
  intros _ o chunks. subst o.
  split; [|split; [|split; [|split]]].
  - pose proof (ShapingProofs.estimateTokens_ceiling text). lia.
  - intros Hb. unfold summarize. now rewrite (blank text Hb).
  - intros Hn Ht. unfold summarize. rewrite (not_blank text Hn).
    apply Z.ltb_lt in Ht. rewrite Ht. split; [reflexivity|].
    intros Hr. rewrite run_await.
    destruct (run_chat_ready env (summaryPrompt maxLength text) (chatOptions 256 (3 # 10)) [] w Hr)
      as (s & p & ->).
    reflexivity.
  - intros Hn Ht Hl. split; [|split; [|split]].
    + unfold summarize. rewrite (not_blank text Hn).
      apply Z.ltb_ge in Ht. rewrite Ht. fold chunks. rewrite Hl. reflexivity.
    + intros Hr. unfold summarize. rewrite (not_blank text Hn).
      apply Z.ltb_ge in Ht. rewrite Ht. fold chunks. rewrite Hl. cbn [Nat.eqb].
      rewrite run_await.
      destruct (run_chat_ready env (summaryPrompt maxLength (truncateForContext text 700))
                  (chatOptions 256 (3 # 10)) [] w Hr) as (s & p & ->).
      reflexivity.
    + intros He. unfold truncateForContext. rewrite He. reflexivity.
    + intros Hgt.
      destruct (ShapingProofs.truncated_shape text 700) as (H1 & H2 & H3); [lia|exact Hgt|].
      split; [exact H1|]. split; [exact H2|exact H3].
  - intros Hn Ht Hl. split.
    { pose proof (ShapingProofs.chunkText_nonempty text 500 Hn) as Hne. fold chunks in Hne.
      destruct chunks as [|c1 [|c2 rest]]; cbn in *; [congruence|congruence|lia]. }
    intros Hr Hans. unfold summarize. rewrite (not_blank text Hn).
    apply Z.ltb_ge in Ht. rewrite Ht. fold chunks.
    apply Nat.eqb_neq in Hl. rewrite Hl.
    rewrite run_bind, run_perform. cbn [result requests final].
    set (w1 := console Log _ [] w).
    rewrite run_bind.
    destruct (run_summarizeChunks env w1 chunks Hr Hans (Nat.min (List.length chunks) 5) 0 [] [])
      as (summaries & h' & Hrun & Hlen & Hp); [lia|].
    rewrite Hrun. cbn [result requests final app].
    rewrite run_await.
    destruct (run_chat_ready env (finalPrompt maxLength (join (lit " ") summaries))
                (chatOptions 256 (3 # 10)) h' w1 Hr) as (s & p & ->).
    cbn [requests].
    exists summaries. split; [exact Hlen|].
    assert (E : prompts ((h' ++ [SessionPrompt s (finalPrompt maxLength (join (lit " ") summaries)) p])
                         ++ [Tick])
                = map chunkPrompt (firstn 5 chunks)
                  ++ [finalPrompt maxLength (join (lit " ") summaries)]).
    { rewrite !prompts_app, Hp. cbn [prompts flat_map app skipn].
      rewrite firstn_min_length, app_nil_r. reflexivity. }
    split; [exact E|].
    rewrite E, length_app, length_map, length_firstn. cbn [List.length]. lia.
Qed.

Lemma working_answers : answersEveryPrompt working.
Proof. intros history s p o. eexists. reflexivity. Qed.

(** C4 in the ready world of the samples, one text per tier: a blank
    text; a short note, sent as it is; one paragraph of 3000 code units
    (750 tokens, one chunk), sent as its first and last 1350 code units
    around the marker; twelve paragraphs, which [chunkText] turns into six
    chunks, for five chunk prompts and the final one. *)
Lemma summarize_three_tiers_witness :
  summarize (lit "   ") 3 readyWorld = Returned readyWorld [] /\
  prompts (requests (run working [] (summarize shortText 3 readyWorld)))
  = [summaryPrompt 3 shortText] /\
  prompts (requests (run working [] (summarize longParagraph 3 readyWorld)))
  = [summaryPrompt 3 (spliced longParagraph 1350)] /\
  List.length (chunkText manyParagraphs 500) = 6 /\
  List.length (prompts (requests (run working [] (summarize manyParagraphs 3 readyWorld)))) = 6.
Proof.
  assert (Hsafe : safeInteger 3) by (unfold safeInteger; lia).
  destruct (summarize_three_tiers working readyWorld (lit "   ") 3 Hsafe)
    as (_ & Hblank & _).
  destruct (summarize_three_tiers working readyWorld shortText 3 Hsafe)
    as (_ & _ & Hshort & _).
  destruct (summarize_three_tiers working readyWorld longParagraph 3 Hsafe)
    as (_ & _ & _ & Hlong & _).
  destruct (summarize_three_tiers working readyWorld manyParagraphs 3 Hsafe)
    as (_ & _ & _ & _ & Hmany).
  split; [apply Hblank; reflexivity|]. split; [|split; [|split]].
  - destruct Hshort as (_ & H); [vm_compute; discriminate|vm_compute; reflexivity|].
    apply H. reflexivity.
  - destruct Hlong as (_ & Hp & _ & Ht);
      [vm_compute; discriminate|vm_compute; discriminate|vm_compute; reflexivity|].
    destruct Ht as (Ht & _); [vm_compute; reflexivity|].
    rewrite <- Ht. apply Hp. reflexivity.
  - vm_compute. reflexivity.
  - destruct Hmany as (_ & H).
    + intros E. apply (f_equal (@List.length N)) in E. vm_compute in E. discriminate E.
    + vm_compute. discriminate.
    + intros E. vm_compute in E. discriminate E.
    + destruct (H eq_refl working_answers) as (summaries & _ & _ & Hl).
      rewrite Hl. vm_compute. reflexivity.
Defined.

(** ** The download step of loadModel *)

(** C1 at the failing input.  [loadModel] for a model that has to be
    downloaded suspends in the download with [isLoading] still false; a
    second call made then, for another model, is not rejected with "Model
    is already loading" but starts a download of its own. *)
Lemma loadModel_admitted_during_download :
  pending (loadModel llamaModel freshWorld)
  = Some (HttpGet (lit "https://huggingface.co/bartowski/Llama-3.2-1B-Instruct-GGUF/resolve/main/Llama-3.2-1B-Instruct-Q4_K_M.gguf")
                  (lit "/home/user/.cooldesk/models/llama-3.2-1b-instruct.Q4_K_M.gguf")) /\
  isLoading (globals (worldOf (loadModel llamaModel freshWorld))) = false /\
  pending (loadModel qwenModel (worldOf (loadModel llamaModel freshWorld)))
  = Some (HttpGet (lit "https://huggingface.co/Qwen/Qwen2.5-0.5B-Instruct-GGUF/resolve/main/qwen2.5-0.5b-instruct-q4_k_m.gguf")
                  (lit "/home/user/.cooldesk/models/qwen2.5-0.5b-instruct.Q4_K_M.gguf")) /\
  loadModel qwenModel (worldOf (loadModel llamaModel freshWorld))
  <> Thrown (worldOf (loadModel llamaModel freshWorld)) (Error (lit "Model is already loading")).
Proof.
  repeat split; try (vm_compute; reflexivity).
  intros H. apply (f_equal pending) in H. vm_compute in H. discriminate H.
Qed.

(** C2 at the failing input.  With a model loaded and listeners
    registered, a load of another model whose download fails (HTTP 404)
    throws to the caller but publishes no error event and resets neither
    [loadProgress] nor [currentModelName]; a failure of the engine, later
    in the same function, does publish the event to both listeners and
    resets the progress. *)
Lemma loadModel_download_failure_is_silent :
  result (run notFound [] (loadModel llamaModel readyWorld))
  = inl (Error (lit "Download failed: HTTP 404")) /\
  errorEvents (trace (final (run notFound [] (loadModel llamaModel readyWorld)))) = [] /\
  loadProgress (globals (final (run notFound [] (loadModel llamaModel readyWorld)))) = 100%Q /\
  currentModelName (globals (final (run notFound [] (loadModel llamaModel readyWorld))))
  = Some qwenModel /\
  result (run brokenEngine [] (loadModel llamaModel freshWorld))
  = inl (Error (lit "failed to load model")) /\
  map fst (errorEvents (trace (final (run brokenEngine [] (loadModel llamaModel freshWorld)))))
  = [2; 1] /\
  loadProgress (globals (final (run brokenEngine [] (loadModel llamaModel freshWorld)))) = 0%Q.
Proof. repeat split; vm_compute; reflexivity. Qed.

(** ** The loading phase of loadModel *)

(** ** Reasoning about every course of an operation *)

Section AlwaysRules.

Variable Ans : forall req : Request, Settled req -> Prop.
Variable R : World -> World -> Prop.
Variable I : World -> Prop.

Lemma always_weaken {A : Type} (Q Q' : World -> JSError + A -> Prop) (s : Step A) :
  (forall w r, Q w r -> Q' w r) -> Always Ans R I Q s -> Always Ans R I Q' s.
Proof.
  intros HQ. induction s as [w a|w e|w req k IH]; cbn [Always].
  - apply HQ.
  - apply HQ.
  - intros [Hi Hk]. split; [exact Hi|]. intros r w' Ha Hr. apply IH, Hk; assumption.
Qed.

Lemma always_bindStep {A B : Type} (Q : World -> JSError + B -> Prop)
  (s : Step A) (f : A -> Async B) :
  Always Ans R I (fun w r => match r with
                             | inr a => Always Ans R I Q (f a w)
                             | inl e => Q w (inl e)
                             end) s ->
  Always Ans R I Q (bindStep s f).
Proof.
  induction s as [w a|w e|w req k IH]; cbn [Always bindStep].
  - trivial.
  - trivial.
  - intros [Hi Hk]. split; [exact Hi|]. intros r w' Ha Hr. apply IH, Hk; assumption.
Qed.

Lemma always_catchStep {A : Type} (Q : World -> JSError + A -> Prop)
  (s : Step A) (hd : JSError -> Async A) :
  Always Ans R I (fun w r => match r with
                             | inr a => Q w (inr a)
                             | inl e => Always Ans R I Q (hd e w)
                             end) s ->
  Always Ans R I Q (catchStep s hd).
Proof.
  induction s as [w a|w e|w req k IH]; cbn [Always catchStep].
  - trivial.
  - trivial.
  - intros [Hi Hk]. split; [exact Hi|]. intros r w' Ha Hr. apply IH, Hk; assumption.
Qed.

Lemma always_bind {A B : Type} (Q : World -> JSError + B -> Prop)
  (m : Async A) (f : A -> Async B) (w : World) :
  Always Ans R I (fun w' r => match r with
                              | inr a => Always Ans R I Q (f a w')
                              | inl e => Q w' (inl e)
                              end) (m w) ->
  Always Ans R I Q (bind m f w).
Proof. apply always_bindStep. Qed.

Lemma always_tryCatch {A : Type} (Q : World -> JSError + A -> Prop)
  (m : Async A) (hd : JSError -> Async A) (w : World) :
  Always Ans R I (fun w' r => match r with
                              | inr a => Q w' (inr a)
                              | inl e => Always Ans R I Q (hd e w')
                              end) (m w) ->
  Always Ans R I Q (tryCatch m hd w).
Proof. apply always_catchStep. Qed.

Lemma always_ret {A : Type} (Q : World -> JSError + A -> Prop) (a : A) (w : World) :
  Q w (inr a) -> Always Ans R I Q (ret a w).
Proof. trivial. Qed.

Lemma always_throw {A : Type} (Q : World -> JSError + A -> Prop) (e : JSError) (w : World) :
  Q w (inl e) -> Always Ans R I Q (throw e w).
Proof. trivial. Qed.

Lemma always_observe (Q : World -> JSError + World -> Prop) (w : World) :
  Q w (inr w) -> Always Ans R I Q (observe w).
Proof. trivial. Qed.

Lemma always_perform (Q : World -> JSError + unit -> Prop) (f : World -> World) (w : World) :
  Q (f w) (inr tt) -> Always Ans R I Q (perform f w).
Proof. trivial. Qed.

Lemma always_request (req : Request) (Q : World -> JSError + Answer req -> Prop) (w : World) :
  I w ->
  (forall (r : Settled req) (w' : World), Ans req r -> R w w' -> Q w' r) ->
  Always Ans R I Q (request req w).
Proof.
  intros Hi Hk. cbn. split; [exact Hi|].
  intros r w' Ha Hr. specialize (Hk r w' Ha Hr). destruct r; exact Hk.
Qed.

Lemma always_tick (Q : World -> JSError + unit -> Prop) (w : World) :
  I w -> (forall w', R w w' -> Q w' (inr tt)) -> Always Ans R I Q (tick w).
Proof. intros Hi Hk. cbn. split; [exact Hi|]. intros r w' _ Hr. now apply Hk. Qed.

Lemma always_await {A : Type} (Q : World -> JSError + A -> Prop) (m : Async A) (w : World) :
  Always Ans R I (fun w' r => I w' /\ forall w'', R w' w'' -> Q w'' r) (m w) ->
  Always Ans R I Q (await m w).
Proof.
  intros H. unfold await. apply always_tryCatch, always_bind.
  eapply always_weaken; [|exact H].
  intros w' [e|a] [Hi Hk]; cbn beta iota.
  - apply always_bind, always_tick; [exact Hi|].
    intros w'' Hr. cbn. now apply Hk.
  - apply always_bind, always_tick; [exact Hi|].
    intros w'' Hr. cbn. now apply Hk.
Qed.

End AlwaysRules.

(** A run with nothing interleaved is one of the courses [Always] covers. *)
Lemma always_run {A : Type} (Ans : forall req : Request, Settled req -> Prop)
  (I : World -> Prop) (Q : World -> JSError + A -> Prop) (env : Env) (s : Step A) :
  (forall history req, Ans req (env history req)) ->
  forall h, Always Ans eq I Q s -> Q (final (run env h s)) (result (run env h s)).
Proof.
  intros Henv. induction s as [w a|w e|w req k IH]; intros h; cbn [Always run final result].
  - trivial.
  - trivial.
  - intros [_ Hk]. apply IH, Hk; [apply Henv|reflexivity].
Qed.

(** The guard of [loadModel]. *)
Lemma loadModel_guard (w : World) (modelName : jsstring) :
  isLoading (globals w) = true ->
  loadModel modelName w = Thrown w (Error (lit "Model is already loading")).
Proof. intros H. unfold loadModel. now rewrite H. Qed.

Lemma notifyProgress_frame (type : ProgressType) (progress : Q) (modelName : jsstring)
  (error : option jsstring) (w : World) :
  globals (notifyProgress type progress modelName error w) = globals w /\
  progressListeners (notifyProgress type progress modelName error w) = progressListeners w /\
  fs (notifyProgress type progress modelName error w) = fs w.
Proof.
  unfold notifyProgress.
  destruct (fold_invokeListener (mkProgressArgs type progress modelName error)
              (progressListeners w) w) as (events & _ & _ & Hg & Hl & Hf & _).
  repeat split; assumption.
Qed.

Lemma globals_notifyProgress (type : ProgressType) (progress : Q) (modelName : jsstring)
  (error : option jsstring) (w : World) :
  globals (notifyProgress type progress modelName error w) = globals w.
Proof. apply notifyProgress_frame. Qed.

Ltac project :=
  cbn [globals withGlobals withFs mkdirSync
       setLlama setModel setContext setChatSession setCurrentModelName setIsLoading setLoadProgress
       llama model context chatSession currentModelName isLoading loadProgress
       record console progressListeners fs homedir trace
       disposalSucceeds anyAnswer keepsFlag];
  rewrite ?globals_notifyProgress.

Ltac project_all :=
  cbn [globals withGlobals withFs mkdirSync
       setLlama setModel setContext setChatSession setCurrentModelName setIsLoading setLoadProgress
       llama model context chatSession currentModelName isLoading loadProgress
       record console progressListeners fs homedir trace
       disposalSucceeds anyAnswer keepsFlag] in *;
  rewrite ?globals_notifyProgress in *.

Ltac hoare_step :=
  match goal with
  | |- True => exact I
  | H : False |- _ => destruct H
  | |- _ /\ _ => split
  | |- forall _, _ => intro
  | H : ?w = ?w' |- _ => subst w'
  | |- Always _ _ _ _ (bind _ _ _) => apply always_bind
  | |- Always _ _ _ _ (tryCatch _ _ _) => apply always_tryCatch
  | |- Always _ _ _ _ (await _ _) => apply always_await
  | |- Always _ _ _ _ (observe _) => apply always_observe
  | |- Always _ _ _ _ (perform _ _) => apply always_perform
  | |- Always _ _ _ _ (ret _ _) => apply always_ret
  | |- Always _ _ _ _ (throw _ _) => apply always_throw
  | |- Always _ _ _ _ (request _ _) => apply always_request; [|intros [?|?] ? ? ?]
  | H : ?x = _ |- Always _ _ _ _ (match ?x with _ => _ end _) => rewrite H
  | |- Always _ _ _ _ (match ?x with _ => _ end _) => destruct x eqn:?
  | |- Always _ _ _ _ ((if ?x then _ else _) _) => destruct x eqn:?
  end.

Ltac hoare := repeat (once (cbv beta iota; project; hoare_step)).

(** *** Every failure of the loading phase is reported *)

Section Sequential.

Let Seq {A : Type} := @Always A disposalSucceeds eq (fun _ => True).

Lemma unloadModel_unloads (w : World) :
  Seq (fun w' r => r = inr tt /\ model (globals w') = None /\
                   currentModelName (globals w') = None)
      (unloadModel w).
Proof.
  unfold Seq, unloadModel. hoare.
  all: cbn [disposalSucceeds] in *; try contradiction.
  all: do 2 project; auto.
Qed.

Lemma initializeLLM_keeps_model (w : World) :
  Seq (fun w' r => (exists b, r = inr b) /\ model (globals w') = model (globals w) /\
                   currentModelName (globals w') = currentModelName (globals w))
      (initializeLLM w).
Proof.
  unfold Seq, initializeLLM. hoare.
  all: do 2 project; eauto.
Qed.

Lemma unloadPrevious_clears (w : World) :
  (model (globals w) = None -> currentModelName (globals w) = None) ->
  Seq (fun w' r => r = inr tt /\ currentModelName (globals w') = None) (unloadPrevious w).
Proof.
  intros Hinv. unfold Seq, unloadPrevious.
  apply always_bind, always_observe. cbv beta iota.
  destruct (model (globals w)) as [m|].
  - apply always_await. eapply always_weaken; [|apply unloadModel_unloads].
    intros w' r (-> & _ & H). split; [exact I|]. intros w'' <-. auto.
  - apply always_ret. auto.
Qed.

Lemma ensureInitialized_keeps_name (w : World) :
  Seq (fun w' r => (exists b, r = inr b) /\
                   currentModelName (globals w') = currentModelName (globals w))
      (ensureInitialized w).
Proof.
  unfold Seq, ensureInitialized.
  apply always_bind, always_observe. cbv beta iota.
  destruct (llama (globals w)) as [l|].
  - apply always_ret. eauto.
  - apply always_await. eapply always_weaken; [|apply initializeLLM_keeps_model].
    intros w' r (Hb & _ & H). split; [exact I|]. intros w'' <-. auto.
Qed.

Lemma loadIntoEngine_outcomes (modelName modelPath : jsstring) (w : World) :
  currentModelName (globals w) = None ->
  Seq (fun w' r => match r with
                   | inr b => b = true /\ loaded modelName w'
                   | inl _ => currentModelName (globals w') = None
                   end)
      (loadIntoEngine modelName modelPath w).
Proof.
  intros Hn. unfold Seq, loadIntoEngine. hoare.
  all: unfold loaded, ready.
  all: do 4 project.
  all: cbn [isSome andb].
  all: try assumption.
  all: try reflexivity.
  all: (split; [reflexivity|]).
  all: (split; [reflexivity|]).
  all: (split; reflexivity).
Qed.

Lemma loadModelBody_outcomes (modelName modelPath : jsstring) (w : World) :
  (model (globals w) = None -> currentModelName (globals w) = None) ->
  Seq (fun w' r => match r with
                   | inr b => b = true /\ loaded modelName w'
                   | inl _ => currentModelName (globals w') = None
                   end)
      (loadModelBody modelName modelPath w).
Proof.
  intros Hinv. unfold Seq, loadModelBody.
  apply always_bind. eapply always_weaken; [|apply unloadPrevious_clears, Hinv].
  intros w1 r1 (-> & H1). cbv beta iota.
  apply always_bind. eapply always_weaken; [|apply ensureInitialized_keeps_name].
  intros w2 r2 ((b & ->) & H2). cbv beta iota.
  apply always_bind, always_perform. cbv beta iota.
  apply loadIntoEngine_outcomes. project. congruence.
Qed.

(** X2.  Whatever the engine answers (disposal of the previous model
    aside), and starting from a state in which a current model name implies
    a loaded model, the loading phase of [loadModel] either returns [true]
    in the loaded state or throws the error [e] in the error state:
    [isLoading] false, [loadProgress] 0, [currentModelName] null, and the
    error event for [e] delivered to every registered listener. *)
Theorem loadingPhase_reports_every_failure (modelName modelPath : jsstring) (w : World) :
  (model (globals w) = None -> currentModelName (globals w) = None) ->
  Always disposalSucceeds eq (fun _ => True)
    (fun w' r => match r with
                 | inr b => b = true /\ loaded modelName w'
                 | inl e => failed modelName e w'
                 end)
    (loadingPhase modelName modelPath w).
Proof.
  intros Hinv. unfold loadingPhase.
  do 3 (apply always_bind, always_perform; cbv beta iota).
  apply always_tryCatch.
  eapply always_weaken; [|apply loadModelBody_outcomes; do 2 project; exact Hinv].
  intros w' [e|b] H; cbv beta iota in *; [|exact H].
  do 4 (apply always_bind, always_perform; cbv beta iota).
  apply always_throw. unfold failed. do 3 project.
  split; [reflexivity|]. split; [reflexivity|]. split; [exact H|].
  unfold notifyProgress.
  match goal with
  | |- context [fold_left (invokeListener ?args) ?ls ?w0] =>
      destruct (fold_invokeListener args ls w0) as (events & HD & Ht & _ & Hl & _)
  end.
  eexists _, events. split; [exact Ht|].
  rewrite Hl. apply (deliveries_calls _ _ _ _ HD).
Qed.

End Sequential.

(** *** The loading phase keeps other loads out *)

Section Guarded.

Let Held (w : World) : Prop :=
  isLoading (globals w) = true /\
  forall name, loadModel name w = Thrown w (Error (lit "Model is already loading")).

Let Par {A : Type} := @Always A anyAnswer keepsFlag Held.

Lemma held_intro (w : World) : isLoading (globals w) = true -> Held w.
Proof. intros H. split; [exact H|]. intros name. now apply loadModel_guard. Qed.

Lemma unloadModel_holds (w : World) :
  isLoading (globals w) = true ->
  Par (fun w' _ => isLoading (globals w') = true) (unloadModel w).
Proof.
  intros H. unfold Par, unloadModel. hoare.
  all: try apply held_intro.
  all: unfold keepsFlag in *.
  all: do 2 project_all.
  all: congruence.
Qed.

Lemma initializeLLM_holds (w : World) :
  isLoading (globals w) = true ->
  Par (fun w' _ => isLoading (globals w') = true) (initializeLLM w).
Proof.
  intros H. unfold Par, initializeLLM. hoare.
  all: try apply held_intro.
  all: unfold keepsFlag in *.
  all: do 2 project_all.
  all: congruence.
Qed.

Lemma await_holds {A : Type} (m : Async A) (w : World) :
  Par (fun w' _ => isLoading (globals w') = true) (m w) ->
  Par (fun w' _ => isLoading (globals w') = true) (await m w).
Proof.
  intros H. apply always_await. eapply always_weaken; [|exact H].
  intros w' r Hw. split; [now apply held_intro|].
  intros w'' Hk. unfold keepsFlag in Hk. congruence.
Qed.

Lemma loadIntoEngine_holds (modelName modelPath : jsstring) (w : World) :
  isLoading (globals w) = true ->
  Par (fun _ _ => True) (loadIntoEngine modelName modelPath w).
Proof.
  intros H. unfold Par, loadIntoEngine. hoare.
  all: try apply held_intro.
  all: unfold keepsFlag in *.
  all: do 3 project_all.
  all: congruence.
Qed.

(** X1.  From the assignment [isLoading = true] on, at every point at
    which the load is suspended, and as long as no other operation touches
    the flag, [isLoading] is set and a call of [loadModel] made there, for
    any model, throws "Model is already loading" at once and changes
    nothing. *)
Theorem loadingPhase_keeps_other_loads_out (modelName modelPath : jsstring) (w : World) :
  Always anyAnswer keepsFlag
    (fun w' => isLoading (globals w') = true /\
               forall name, loadModel name w' = Thrown w' (Error (lit "Model is already loading")))
    (fun _ _ => True)
    (loadingPhase modelName modelPath w).
Proof.
  change (Par (fun _ _ => True) (loadingPhase modelName modelPath w)).
  unfold Par, loadingPhase.
  do 3 (apply always_bind, always_perform; cbv beta iota).
  apply always_tryCatch.
  set (w1 := notifyProgress _ _ _ _ _).
  assert (H1 : isLoading (globals w1) = true) by (unfold w1; do 2 project; reflexivity).
  clearbody w1.
  eapply always_weaken with
    (Q := fun w' (r : JSError + bool) => True).
  { intros w' [e|b] _; cbv beta iota; [|exact I].
    do 4 (apply always_bind, always_perform; cbv beta iota).
    apply always_throw. exact I. }
  unfold loadModelBody.
  apply always_bind. unfold unloadPrevious.
  apply always_bind, always_observe. cbv beta iota.
  eapply always_weaken with
    (Q := fun w' (r : JSError + unit) => isLoading (globals w') = true).
  2:{ destruct (model (globals w1)).
      - apply await_holds, unloadModel_holds, H1.
      - apply always_ret. exact H1. }
  intros w2 [e|[]] H2; cbv beta iota; [exact I|].
  apply always_bind. unfold ensureInitialized.
  apply always_bind, always_observe. cbv beta iota.
  eapply always_weaken with
    (Q := fun w' (r : JSError + bool) => isLoading (globals w') = true).
  2:{ destruct (llama (globals w2)).
      - apply always_ret. exact H2.
      - apply await_holds, initializeLLM_holds, H2. }
  intros w3 [e|b] H3; cbv beta iota; [exact I|].
  apply always_bind, always_perform. cbv beta iota.
  apply loadIntoEngine_holds. project. exact H3.
Qed.

End Guarded.

Lemma brokenEngine_disposes (history : list Request) (req : Request) :
  disposalSucceeds req (brokenEngine history req).
Proof. destruct req; exact I. Qed.

(** X2 at the fresh service, with an engine that refuses the model file:
    the loading phase throws and leaves the error state. *)
Lemma loadingPhase_reports_every_failure_witness :
  match result (run brokenEngine [] (loadingPhase llamaModel (modelPathOf freshWorld llamaModel)
                                        freshWorld)) with
  | inr b => b = true /\
             loaded llamaModel
               (final (run brokenEngine [] (loadingPhase llamaModel
                                              (modelPathOf freshWorld llamaModel) freshWorld)))
  | inl e => failed llamaModel e
               (final (run brokenEngine [] (loadingPhase llamaModel
                                              (modelPathOf freshWorld llamaModel) freshWorld)))
  end.
Proof.
  exact (always_run disposalSucceeds (fun _ => True)
           (fun w' r => match r with
                        | inr b => b = true /\ loaded llamaModel w'
                        | inl e => failed llamaModel e w'
                        end)
           brokenEngine
           (loadingPhase llamaModel (modelPathOf freshWorld llamaModel) freshWorld)
           brokenEngine_disposes []
           (loadingPhase_reports_every_failure llamaModel (modelPathOf freshWorld llamaModel)
              freshWorld (fun _ => eq_refl))).
Defined.

(** ** unloadModel and the download short-circuit *)

(** X3.  With an engine that disposes without failing, [unloadModel]
    returns after disposing of the context, then of the model, and of
    nothing else (the chat session is dropped first, without a call); it
    leaves no session, context, model or current model name, and makes no
    request at all when nothing is loaded. *)
Theorem unloadModel_releases_in_order (env : Env) (h : list Request) (w : World) :
  (forall history c, env history (ContextDispose c) = inr tt) ->
  (forall history m, env history (ModelDispose m) = inr tt) ->
  result (run env h (unloadModel w)) = inr tt /\
  requests (run env h (unloadModel w)) = h ++ disposals w /\
  globals (final (run env h (unloadModel w)))
  = mkGlobals (llama (globals w)) None None None None
              (isLoading (globals w)) (loadProgress (globals w)).
Proof.
  intros Hc Hm.
  destruct w as [[ll mo co cs cn il lp] ls files hd tr].
  unfold unloadModel, disposals.
  destruct cs as [s|], co as [c|], mo as [m|];
    cbn -[lit]; rewrite ?Hc; cbn -[lit]; rewrite ?Hm; cbn -[lit];
    rewrite ?app_nil_r, <- ?app_assoc; repeat split; reflexivity.
Qed.

(** X3 in the ready world of the samples. *)
Lemma unloadModel_releases_in_order_witness :
  requests (run working [] (unloadModel readyWorld))
  = [ContextDispose sampleContext; ModelDispose 2].
Proof.
  destruct (unloadModel_releases_in_order working [] readyWorld
              (fun _ _ => eq_refl) (fun _ _ => eq_refl)) as (_ & H & _).
  exact H.
Defined.

(** X4.  When a valid file of the model is already there, [downloadModel]
    returns its path at once, after reporting 100 percent, without any
    request to the network and without touching the file. *)
Theorem downloadModel_short_circuit (modelName url : jsstring)
  (onProgressCb : Z -> World -> World) (w : World) :
  lookup MODEL_URLS modelName = Some url ->
  snd (isModelValid (modelPathOf w modelName) modelName w) = true ->
  downloadModel modelName onProgressCb w
  = Returned (onProgressCb 100%Z
                (console Log (lit "[LocalLLM] Model already exists and is valid:")
                   [LogText (modelPathOf w modelName)] w))
             (modelPathOf w modelName).
Proof.
  intros Hu Hv. unfold downloadModel. rewrite Hu.
  assert (Ht : truthy url = true).
  { unfold MODEL_URLS in Hu. cbn [lookup] in Hu.
    repeat match type of Hu with
           | (if ?c then _ else _) = _ => destruct c
           end; try discriminate; injection Hu as <-; reflexivity. }
  rewrite Ht. cbn [negb].
  assert (He : existsSync w (modelPathOf w modelName) = true).
  { unfold isModelValid in Hv. destruct (existsSync w (modelPathOf w modelName)); [reflexivity|].
    cbn in Hv. discriminate. }
  rewrite He.
  assert (Hw : isModelValid (modelPathOf w modelName) modelName w = (w, true)).
  { revert Hv. unfold isModelValid. rewrite He. cbn [negb].
    destruct (statSync w (modelPathOf w modelName)) as [e|st]; [cbn; discriminate|].
    cbv zeta.
    destruct (lookup MODEL_SIZES modelName) as [expected|];
      repeat match goal with
             | |- context [if ?c then _ else _] => destruct c
             end; cbn [snd]; try discriminate; reflexivity. }
  rewrite Hw. reflexivity.
Qed.

(** X4 in the ready world of the samples, whose model file is valid. *)
Lemma downloadModel_short_circuit_witness :
  pending (downloadModel qwenModel (downloadProgress qwenModel) readyWorld) = None.
Proof.
  rewrite (downloadModel_short_circuit qwenModel
             (lit "https://huggingface.co/Qwen/Qwen2.5-0.5B-Instruct-GGUF/resolve/main/qwen2.5-0.5b-instruct-q4_k_m.gguf")
             (downloadProgress qwenModel) readyWorld eq_refl ltac:(vm_compute; reflexivity)).
  reflexivity.
Defined.
(** ** Subscriptions to the progress bus *)

Lemma hasListener_app (id : nat) (a b : list Listener) :
  hasListener id (a ++ b) = hasListener id a || hasListener id b.
Proof. apply existsb_app. Qed.

Lemma filter_absent (id : nat) (ls : list Listener) :
  hasListener id ls = false ->
  filter (fun l => negb (Nat.eqb (lid l) id)) ls = ls.
Proof.
  induction ls as [|l ls IH]; [reflexivity|].
  cbn. intros H. apply orb_false_iff in H as [H1 H2].
  rewrite H1. cbn. now rewrite IH.
Qed.

Lemma filter_removes (id : nat) (ls : list Listener) :
  ~ In id (map lid (filter (fun l => negb (Nat.eqb (lid l) id)) ls)).
Proof.
  intros H. apply in_map_iff in H as (l & Hl & Hin).
  apply filter_In in Hin as [_ Hne]. subst id. rewrite Nat.eqb_refl in Hne. discriminate.
Qed.

(** X7.  Registering a listener that is not registered yet puts it last
    in the order of delivery; registering it again changes nothing; the
    function [onProgress] returned undoes the registration exactly; every
    event published in between reaches the listener once, after the
    listeners registered before it; and once a listener has been removed,
    no event reaches it. *)
Theorem onProgress_subscription (listener : Listener) (w : World) :
  hasListener (lid listener) (progressListeners w) = false ->
  progressListeners (onProgress listener w) = progressListeners w ++ [listener] /\
  onProgress listener (onProgress listener w) = onProgress listener w /\
  removeListener listener (onProgress listener w) = w /\
  (forall type progress modelName error,
     exists events,
       trace (notifyProgress type progress modelName error (onProgress listener w))
       = trace w ++ events /\
       calls events
       = map (fun l => (lid l, mkProgressArgs type progress modelName error))
             (progressListeners w ++ [listener])) /\
  (forall type progress modelName error (w' : World),
     exists events,
       trace (notifyProgress type progress modelName error (removeListener listener w'))
       = trace w' ++ events /\
       ~ In (lid listener) (map fst (calls events))).
Proof.
  intros Hnew.
  assert (E : progressListeners (onProgress listener w) = progressListeners w ++ [listener]).
  { unfold onProgress, withListeners. cbn [progressListeners]. now rewrite Hnew. }
  split; [exact E|]. split; [|split; [|split]].
  - unfold onProgress at 1. unfold withListeners. rewrite E.
    rewrite hasListener_app. cbn [hasListener existsb]. rewrite Nat.eqb_refl.
    rewrite orb_true_r. cbn [orb].
    rewrite <- E. now destruct (onProgress listener w).
  - unfold removeListener, withListeners. rewrite E.
    rewrite filter_app. cbn [filter]. rewrite Nat.eqb_refl. cbn [negb].
    rewrite filter_absent by exact Hnew. rewrite app_nil_r.
    unfold onProgress, withListeners. cbn. now destruct w.
  - intros type progress modelName error. unfold notifyProgress.
    destruct (fold_invokeListener (mkProgressArgs type progress modelName error)
                (progressListeners (onProgress listener w)) (onProgress listener w))
      as (events & HD & Ht & _).
    exists events. split; [exact Ht|].
    rewrite <- E. apply (deliveries_calls _ _ _ _ HD).
  - intros type progress modelName error w'. unfold notifyProgress.
    destruct (fold_invokeListener (mkProgressArgs type progress modelName error)
                (progressListeners (removeListener listener w')) (removeListener listener w'))
      as (events & HD & Ht & _).
    exists events. split; [exact Ht|].
    destruct (deliveries_calls _ _ _ _ HD) as [Hc _]. rewrite Hc, map_map. cbn [fst].
    apply filter_removes.
Qed.

(** X7 for a third listener at the fresh service. *)
Lemma onProgress_subscription_witness :
  removeListener late (onProgress late freshWorld) = freshWorld /\
  map lid (progressListeners (onProgress late freshWorld)) = [2; 1; 3]%nat.
Proof.
  destruct (onProgress_subscription late freshWorld eq_refl) as (H1 & _ & H3 & _).
  split; [exact H3|]. rewrite H1. reflexivity.
Defined.
(** ** More of the lifecycle *)

(** *** initializeLLM *)

(** X8.  With the models directory in place, [initializeLLM] never
    throws, whatever [getLlama()] does: it asks for the engine once and
    leaves the files alone; when the engine is there it returns [true]
    with the handle stored, and when [getLlama()] fails it returns [false]
    with the module state as it was and the error on the console. *)
Theorem initializeLLM_never_throws (env : Env) (h : list Request) (w : World) :
  existsSync w (MODELS_DIR (homedir w)) = true ->
  let o := run env h (initializeLLM w) in
  requests o = h ++ [GetLlama] /\
  fs (final o) = fs w /\
  match env h GetLlama with
  | inr l => result o = inr true /\ globals (final o) = setLlama (Some l) (globals w)
  | inl e =>
      result o = inr false /\ globals (final o) = globals w /\
      trace (final o)
      = trace w ++ [Console Err (lit "[LocalLLM] Failed to initialize:") [LogError e]]
  end.
Proof.
  intros Hd. cbv zeta. unfold initializeLLM.
  rewrite run_tryCatch, run_bind. cbn [observe run result requests final].
  rewrite run_bind, Hd. cbn [negb].
  rewrite run_ret. cbn [result requests final].
  rewrite run_bind, run_request. cbn [result requests final].
  destruct (env h GetLlama) as [e|l]; cbn -[lit]; repeat split.
Qed.

(** X8 at the fresh service with the models directory in place and no
    engine. *)
Lemma initializeLLM_never_throws_witness :
  result (run noEngine [] (initializeLLM installedWorld)) = inr false /\
  globals (final (run noEngine [] (initializeLLM installedWorld))) = globals installedWorld.
Proof.
  destruct (initializeLLM_never_throws noEngine [] installedWorld) as (_ & _ & H).
  - vm_compute. reflexivity.
  - cbn [noEngine] in H. destruct H as (H1 & H2 & _). split; [exact H1 | exact H2].
Defined.

(** *** A failure of the engine initialisation inside loadModel *)

Lemma always_run_env {A : Type} (I : World -> Prop) (Q : World -> JSError + A -> Prop)
  (env : Env) (s : Step A) (h : list Request) :
  Always (answeredBy env) eq I Q s -> Q (final (run env h s)) (result (run env h s)).
Proof. apply always_run. intros history req. now exists history. Qed.

(** With the model file in place, nothing loading and another model (or
    none) loaded, [loadModel] is its loading phase. *)
Lemma loadModel_with_file (modelName : jsstring) (w : World) :
  isLoading (globals w) = false ->
  sameModel (currentModelName (globals w)) modelName && isSome (model (globals w)) = false ->
  existsSync w (modelPathOf w modelName) = true ->
  loadModel modelName w = loadingPhase modelName (modelPathOf w modelName) w.
Proof. intros H1 H2 H3. unfold loadModel. rewrite H1, H2, H3. reflexivity. Qed.

Ltac settle :=
  match goal with
  | H : answeredBy _ _ _ |- _ =>
      destruct H as [? H];
      first [ match goal with
              | Henv : forall history : list Request, _ |- _ =>
                  rewrite Henv in H; first [discriminate H | injection H as <- | clear H]
              end
            | clear H ]
  end.

Ltac hoare_env := repeat (once (cbv beta iota; do 2 project; first [settle | hoare_step])).

Lemma trace_notifyProgress (type : ProgressType) (progress : Q) (modelName : jsstring)
  (error : option jsstring) (w : World) :
  exists events,
    trace (notifyProgress type progress modelName error w) = trace w ++ events /\
    calls events
    = map (fun l => (lid l, mkProgressArgs type progress modelName error)) (progressListeners w).
Proof.
  unfold notifyProgress.
  destruct (fold_invokeListener (mkProgressArgs type progress modelName error)
              (progressListeners w) w) as (events & HD & Ht & _).
  exists events. split; [exact Ht|]. apply (deliveries_calls _ _ _ _ HD).
Qed.

Lemma homedir_notifyProgress (type : ProgressType) (progress : Q) (modelName : jsstring)
  (error : option jsstring) (w : World) :
  homedir (notifyProgress type progress modelName error w) = homedir w.
Proof.
  unfold notifyProgress.
  destruct (fold_invokeListener (mkProgressArgs type progress modelName error)
              (progressListeners w) w) as (events & _ & _ & _ & _ & _ & Hh).
  exact Hh.
Qed.

Lemma listeners_notifyProgress (type : ProgressType) (progress : Q) (modelName : jsstring)
  (error : option jsstring) (w : World) :
  progressListeners (notifyProgress type progress modelName error w) = progressListeners w.
Proof. apply notifyProgress_frame. Qed.

Lemma in_trace_notifyProgress (x : Effect) (type : ProgressType) (progress : Q)
  (modelName : jsstring) (error : option jsstring) (w : World) :
  In x (trace w) -> In x (trace (notifyProgress type progress modelName error w)).
Proof.
  intros H. destruct (trace_notifyProgress type progress modelName error w) as (ev & -> & _).
  apply in_or_app. now left.
Qed.

Ltac in_trace :=
  repeat first
    [ apply in_trace_notifyProgress
    | progress cbn [trace console record withGlobals withFs mkdirSync withListeners]
    | apply in_or_app; first [ right; left; reflexivity | left ] ].

Ltac last_event :=
  match goal with
  | |- exists before events, trace (notifyProgress ?t ?p ?n ?e ?W) = _ /\ _ =>
      let ev := fresh "ev" in
      let Ht := fresh "Ht" in
      let Hc := fresh "Hc" in
      destruct (trace_notifyProgress t p n e W) as (ev & Ht & Hc);
      exists (trace W), ev; split; [exact Ht|]; rewrite Hc;
      repeat (cbn [progressListeners record console withGlobals withFs mkdirSync];
              rewrite ?listeners_notifyProgress);
      reflexivity
  end.

Lemma initFailure_course (env : Env) (w : World) (modelName modelPath : jsstring) (e : JSError) :
  llama (globals w) = None ->
  model (globals w) = None ->
  (forall history, env history GetLlama = inl e) ->
  Always (answeredBy env) eq (fun _ => True)
    (fun w' r =>
       r = inl (nullAccess "loadModel") /\
       isLoading (globals w') = false /\
       In (Console Err (lit "[LocalLLM] Failed to initialize:") [LogError e]) (trace w') /\
       exists before events,
         trace w' = before ++ events /\
         calls events
         = map (fun l => (lid l, errorArgs modelName (nullAccess "loadModel")))
               (progressListeners w))
    (loadingPhase modelName modelPath w).
Proof.
  intros Hl Hm Hget.
  unfold loadingPhase, loadModelBody, unloadPrevious, ensureInitialized, initializeLLM,
    loadIntoEngine.
  hoare_env.
  all: try reflexivity.
  all: try (in_trace; fail).
  all: last_event.
Qed.

(** X9.  When the engine cannot be initialised ([getLlama()] fails with
    [e]) and nothing is loaded, [loadModel] for a model whose file is in
    place throws, and publishes to every listener, not [e] but the
    [TypeError] of the member access on the [llama] that is still null;
    [e] itself only reaches the console, through [initializeLLM]. *)
Theorem loadModel_hides_initialization_error (env : Env) (h : list Request) (w : World)
  (modelName : jsstring) (e : JSError) :
  isLoading (globals w) = false ->
  llama (globals w) = None ->
  model (globals w) = None ->
  existsSync w (modelPathOf w modelName) = true ->
  (forall history, env history GetLlama = inl e) ->
  let o := run env h (loadModel modelName w) in
  result o = inl (nullAccess "loadModel") /\
  isLoading (globals (final o)) = false /\
  In (Console Err (lit "[LocalLLM] Failed to initialize:") [LogError e]) (trace (final o)) /\
  exists before events,
    trace (final o) = before ++ events /\
    calls events
    = map (fun l => (lid l, errorArgs modelName (nullAccess "loadModel"))) (progressListeners w).
Proof.
  intros Hi Hl Hm Hf Hget. cbv zeta.
  rewrite loadModel_with_file; [|exact Hi|rewrite Hm; apply andb_false_r|exact Hf].
  exact (always_run_env _ _ env _ h
           (initFailure_course env w modelName _ e Hl Hm Hget)).
Qed.

(** X9 at the fresh service with the model file in place and no engine. *)
Lemma loadModel_hides_initialization_error_witness :
  result (run noEngine [] (loadModel llamaModel downloadedWorld))
  = inl (nullAccess "loadModel").
Proof.
  destruct (loadModel_hides_initialization_error noEngine [] downloadedWorld llamaModel
              (Error (lit "no backend available")) eq_refl eq_refl eq_refl
              ltac:(vm_compute; reflexivity) (fun _ => eq_refl)) as (H & _).
  exact H.
Defined.

(** *** A context that cannot be created *)

Lemma contextFailure_course (env : Env) (w : World) (modelName modelPath : jsstring)
  (l : Llama) (m : Model) (e : JSError) :
  llama (globals w) = Some l ->
  (model (globals w) = None ->
   context (globals w) = None /\ chatSession (globals w) = None /\
   currentModelName (globals w) = None) ->
  (forall history c, env history (ContextDispose c) = inr tt) ->
  (forall history m', env history (ModelDispose m') = inr tt) ->
  (forall history l' p g, env history (LlamaLoadModel l' p g) = inr m) ->
  (forall history m' n, env history (ModelCreateContext m' n) = inl e) ->
  Always (answeredBy env) eq (fun _ => True)
    (fun w' r =>
       r = inl e /\
       globals w' = mkGlobals (Some l) (Some m) None None None false 0 /\
       homedir w' = homedir w)
    (loadingPhase modelName modelPath w).
Proof.
  intros Hl Hinv Hcd Hmd Hload Hctx.
  unfold loadingPhase, loadModelBody, unloadPrevious, ensureInitialized, unloadModel,
    loadIntoEngine.
  hoare_env.
  all: try reflexivity.
  all: do 4 (project; rewrite ?homedir_notifyProgress).
  all: try reflexivity.
  all: destruct (globals w) as [ll mo co cs cn il lp].
  all: cbn [llama model context chatSession currentModelName isLoading loadProgress
            setLlama setModel setContext setChatSession setCurrentModelName setIsLoading
            setLoadProgress] in *.
  all: try (destruct (Hinv eq_refl) as (Hc & Hs & Hn)).
  all: cbv [setLlama setModel setContext setChatSession setCurrentModelName setIsLoading
            setLoadProgress llama model context chatSession currentModelName isLoading
            loadProgress].
  all: subst; reflexivity.
Qed.

(** X10.  When the engine loads the model file but fails to create the
    context, [loadModel] throws that error and keeps the handle of the
    model it has just loaded, which nothing disposes of: [getStatus] then
    reports [modelLoaded] with no [currentModel], and [chat] throws "Model
    not loaded".  (The engine is initialised, the file is in place, the
    previous model, if any, is disposed of without failure, and a state
    without a model has no context, session or model name.) *)
Theorem loadModel_keeps_model_when_context_fails (env : Env) (h : list Request) (w : World)
  (modelName : jsstring) (l : Llama) (m : Model) (e : JSError) :
  isLoading (globals w) = false ->
  sameModel (currentModelName (globals w)) modelName && isSome (model (globals w)) = false ->
  existsSync w (modelPathOf w modelName) = true ->
  llama (globals w) = Some l ->
  (model (globals w) = None ->
   context (globals w) = None /\ chatSession (globals w) = None /\
   currentModelName (globals w) = None) ->
  (forall history c, env history (ContextDispose c) = inr tt) ->
  (forall history m', env history (ModelDispose m') = inr tt) ->
  (forall history l' p g, env history (LlamaLoadModel l' p g) = inr m) ->
  (forall history m' n, env history (ModelCreateContext m' n) = inl e) ->
  let o := run env h (loadModel modelName w) in
  result o = inl e /\
  model (globals (final o)) = Some m /\
  Catalogue.getStatus (final o)
  = Catalogue.mkStatus true true None false 0 (MODELS_DIR (homedir w)) /\
  (forall prompt options, chat prompt options (final o) = Thrown (final o) notLoaded).
Proof.
  intros Hi Hs Hf Hl Hinv Hcd Hmd Hload Hctx. cbv zeta.
  rewrite loadModel_with_file by assumption.
  destruct (always_run_env _ _ env _ h
              (contextFailure_course env w modelName (modelPathOf w modelName) l m e
                 Hl Hinv Hcd Hmd Hload Hctx)) as (Hr & Hg & Hh).
  split; [exact Hr|]. split; [now rewrite Hg|]. split.
  - unfold Catalogue.getStatus. now rewrite Hg, Hh.
  - intros prompt options. unfold chat. now rewrite Hg.
Qed.

(** X10 at the initialised service with the model file in place. *)
Lemma loadModel_keeps_model_when_context_fails_witness :
  result (run noContext [] (loadModel llamaModel initialisedWorld))
  = inl (Error (lit "out of memory")) /\
  Catalogue.modelLoaded (Catalogue.getStatus
                           (final (run noContext [] (loadModel llamaModel initialisedWorld))))
  = true.
Proof.
  destruct (loadModel_keeps_model_when_context_fails noContext [] initialisedWorld llamaModel
              1 2 (Error (lit "out of memory")) eq_refl eq_refl
              ltac:(vm_compute; reflexivity) eq_refl
              (fun _ => conj eq_refl (conj eq_refl eq_refl))
              (fun _ _ => eq_refl) (fun _ _ => eq_refl)
              (fun _ _ _ _ => eq_refl) (fun _ _ _ => eq_refl)) as (H1 & _ & H3 & _).
  split; [exact H1|]. now rewrite H3.
Defined.

(** *** cleanup, and a disposal that fails *)

(** X11.  With an engine that disposes without failing, [cleanup] returns
    after the disposals of [unloadModel] and nothing else; afterwards the
    engine handle, the model, the context, the session and the current
    model name are all null and no listener is registered.  [isLoading]
    and [loadProgress] are left as they were. *)
Theorem cleanup_releases_everything (env : Env) (h : list Request) (w : World) :
  (forall history c, env history (ContextDispose c) = inr tt) ->
  (forall history m, env history (ModelDispose m) = inr tt) ->
  let o := run env h (cleanup w) in
  result o = inr tt /\
  requests o = h ++ disposals w ++ [Tick] /\
  globals (final o)
  = mkGlobals None None None None None (isLoading (globals w)) (loadProgress (globals w)) /\
  progressListeners (final o) = [] /\
  fs (final o) = fs w.
Proof.
  intros Hc Hm. cbv zeta.
  destruct w as [[ll mo co cs cn il lp] ls files hd tr].
  unfold cleanup, await, unloadModel, disposals.
  destruct cs as [s|], co as [c|], mo as [m|], ll as [l|];
    cbn -[lit]; rewrite ?Hc; cbn -[lit]; rewrite ?Hm; cbn -[lit];
    rewrite ?app_nil_r, <- ?app_assoc; repeat split; reflexivity.
Qed.

(** X11 in the ready world of the samples. *)
Lemma cleanup_releases_everything_witness :
  globals (final (run working [] (cleanup readyWorld)))
  = mkGlobals None None None None None false 100 /\
  progressListeners (final (run working [] (cleanup readyWorld))) = [].
Proof.
  destruct (cleanup_releases_everything working [] readyWorld
              (fun _ _ => eq_refl) (fun _ _ => eq_refl)) as (_ & _ & H1 & H2 & _).
  split; [exact H1 | exact H2].
Defined.

(** X12.  When the disposal of the context fails, [unloadModel] throws
    after having dropped the chat session only: the model is never
    disposed of and stays loaded under its name.  In the state it leaves,
    [loadModel] for that name still reports the model as loaded and
    returns [true] without doing anything, while [chat] throws "Model not
    loaded"; [cleanup] stops at the same failure, with the engine handle
    and the listeners still in place. *)
Theorem unloadModel_failed_disposal (env : Env) (h : list Request) (w : World)
  (c : Context) (m : Model) (modelName : jsstring) (e : JSError) :
  context (globals w) = Some c ->
  model (globals w) = Some m ->
  currentModelName (globals w) = Some modelName ->
  isLoading (globals w) = false ->
  env h (ContextDispose c) = inl e ->
  let o := run env h (unloadModel w) in
  let w' := final o in
  result o = inl e /\
  requests o = h ++ [ContextDispose c] /\
  globals w' = mkGlobals (llama (globals w)) (Some m) (Some c) None (Some modelName) false
                         (loadProgress (globals w)) /\
  loadModel modelName w'
  = Returned (console Log (lit "[LocalLLM] Model already loaded:") [LogText modelName] w') true /\
  (forall prompt options, chat prompt options w' = Thrown w' notLoaded) /\
  result (run env h (cleanup w)) = inl e /\
  llama (globals (final (run env h (cleanup w)))) = llama (globals w) /\
  progressListeners (final (run env h (cleanup w))) = progressListeners w.
Proof.
  intros Hc Hm Hn Hi He. cbv zeta.
  destruct w as [[ll mo co cs cn il lp] ls files hd tr].
  cbn [globals context model currentModelName isLoading llama loadProgress] in *. subst.
  unfold cleanup, await, unloadModel, loadModel, chat.
  destruct cs as [s|]; cbn -[lit streq]; rewrite He; cbn -[lit streq];
    rewrite ?streq_refl; repeat split; reflexivity.
Qed.

(** X12 in the ready world of the samples, with a context that cannot be
    disposed of. *)
Lemma unloadModel_failed_disposal_witness :
  result (run stuckContext [] (unloadModel readyWorld)) = inl (Error (lit "context is busy")) /\
  requests (run stuckContext [] (unloadModel readyWorld)) = [ContextDispose sampleContext].
Proof.
  destruct (unloadModel_failed_disposal stuckContext [] readyWorld sampleContext 2 qwenModel
              (Error (lit "context is busy")) eq_refl eq_refl eq_refl eq_refl eq_refl)
    as (H1 & H2 & _).
  split; [exact H1 | exact H2].
Defined.
(** *** A successful load, as the listeners see it *)

Lemma published_snoc (events : list ProgressArgs) (args : ProgressArgs) (ls : list Listener) :
  published (events ++ [args]) ls = published events ls ++ map (fun l => (lid l, args)) ls.
Proof. unfold published. rewrite flat_map_app. cbn. now rewrite app_nil_r. Qed.

Lemma calls_app (a b : list Effect) : calls (a ++ b) = calls a ++ calls b.
Proof. apply flat_map_app. Qed.

Lemma announced_refl (w : World) : Announced w [] w.
Proof. split; [reflexivity|]. exists []. now rewrite app_nil_r. Qed.

Lemma announced_console (w0 : World) (events : list ProgressArgs) (w : World)
  (level : ConsoleLevel) (text : jsstring) (rest : list LogValue) :
  Announced w0 events w -> Announced w0 events (console level text rest w).
Proof.
  intros (Hl & effects & Ht & Hc). split; [exact Hl|].
  exists (effects ++ [Console level text rest]). cbn [console record trace].
  rewrite Ht, <- app_assoc. split; [reflexivity|].
  rewrite calls_app, Hc. cbn. now rewrite app_nil_r.
Qed.

Lemma announced_withGlobals (w0 : World) (events : list ProgressArgs) (w : World)
  (f : Globals -> Globals) :
  Announced w0 events w -> Announced w0 events (withGlobals f w).
Proof. exact (fun H => H). Qed.

Lemma announced_withFs (w0 : World) (events : list ProgressArgs) (w : World)
  (f : FileSystem -> FileSystem) :
  Announced w0 events w -> Announced w0 events (withFs f w).
Proof. exact (fun H => H). Qed.

Lemma announced_notifyProgress (w0 : World) (events : list ProgressArgs) (w : World)
  (type : ProgressType) (progress : Q) (modelName : jsstring) (error : option jsstring) :
  Announced w0 events w ->
  Announced w0 (events ++ [mkProgressArgs type progress modelName error])
            (notifyProgress type progress modelName error w).
Proof.
  intros (Hl & effects & Ht & Hc).
  split; [now rewrite listeners_notifyProgress|].
  destruct (trace_notifyProgress type progress modelName error w) as (ev & Ht' & Hc').
  exists (effects ++ ev). rewrite Ht', Ht, <- app_assoc. split; [reflexivity|].
  now rewrite calls_app, Hc, Hc', published_snoc, Hl.
Qed.

Lemma announced_mkdirSync (w0 : World) (events : list ProgressArgs) (w : World)
  (path : jsstring) :
  Announced w0 events w -> Announced w0 events (mkdirSync path w).
Proof. exact (fun H => H). Qed.

Ltac announce_step :=
  lazymatch goal with
  | |- Announced _ _ (notifyProgress _ _ _ _ _) => apply announced_notifyProgress
  | |- Announced _ _ (console _ _ _ _) => apply announced_console
  | |- Announced _ _ (withGlobals _ _) => apply announced_withGlobals
  | |- Announced _ _ (mkdirSync _ _) => apply announced_mkdirSync
  | |- Announced _ _ (withFs _ _) => apply announced_withFs
  end.

Ltac announce := repeat announce_step.


Section HappyPath.

Variable env : Env.
Variables (l : Llama) (m : Model) (c : Context) (sequence : nat).
Hypothesis Hcd : forall history c', env history (ContextDispose c') = inr tt.
Hypothesis Hmd : forall history m', env history (ModelDispose m') = inr tt.
Hypothesis Hget : forall history, env history GetLlama = inr l.
Hypothesis Hload : forall history l' p g, env history (LlamaLoadModel l' p g) = inr m.
Hypothesis Hctx : forall history m' n, env history (ModelCreateContext m' n) = inr c.
Hypothesis Hseq : getSequence c = inr sequence.

Let Course {A : Type} := @Always A (answeredBy env) eq (fun _ => True).

Lemma unloadPrevious_quiet (w0 : World) (events : list ProgressArgs) (w : World) :
  Announced w0 events w ->
  Course (fun w' r => r = inr tt /\ Announced w0 events w' /\ homedir w' = homedir w /\
                      llama (globals w') = llama (globals w))
         (unloadPrevious w).
Proof.
  intros Ha. unfold Course, unloadPrevious, unloadModel.
  hoare_env.
  all: try discriminate.
  all: try reflexivity.
  all: try (announce; exact Ha).
Qed.

Lemma ensureInitialized_quiet (w0 : World) (events : list ProgressArgs) (w : World) :
  Announced w0 events w ->
  Course (fun w' r => (exists b, r = inr b) /\ Announced w0 events w' /\
                      homedir w' = homedir w /\ isSome (llama (globals w')) = true)
         (ensureInitialized w).
Proof.
  intros Ha. unfold Course, ensureInitialized, initializeLLM.
  hoare_env.
  all: try discriminate.
  all: try (eexists; reflexivity).
  all: try reflexivity.
  all: try (match goal with
            | H : llama (globals _) = _ |- isSome _ = true => rewrite H; reflexivity
            end).
  all: try (announce; exact Ha).
Qed.

Lemma loadIntoEngine_announces (w0 : World) (events : list ProgressArgs) (w : World)
  (modelName modelPath : jsstring) :
  Announced w0 events w ->
  isSome (llama (globals w)) = true ->
  Course (fun w' r =>
            r = inr true /\
            (isSome (llama (globals w')) = true /\
             model (globals w') = Some m /\
             context (globals w') = Some c /\
             chatSession (globals w') = Some (mkChatSession sequence SYSTEM_PROMPT) /\
             currentModelName (globals w') = Some modelName /\
             isLoading (globals w') = false /\
             loadProgress (globals w') = 100%Q) /\
            homedir w' = homedir w /\
            Announced w0 ((events ++ [mkProgressArgs PLoading 80 modelName None])
                          ++ [mkProgressArgs PLoaded 100 modelName None]) w')
         (loadIntoEngine modelName modelPath w).
Proof.
  intros Ha Hl. unfold Course, loadIntoEngine.
  hoare_env.
  all: try discriminate.
  all: try reflexivity.
  all: try (match goal with
            | H : llama (globals _) = _ |- isSome _ = true => rewrite H; reflexivity
            end).
  all: try (do 3 (project; rewrite ?homedir_notifyProgress); reflexivity).
  all: announce; exact Ha.
Qed.

Lemma loadingPhase_announces (w : World) (modelName modelPath : jsstring) :
  Course (fun w' r =>
            r = inr true /\
            (isSome (llama (globals w')) = true /\
             model (globals w') = Some m /\
             context (globals w') = Some c /\
             chatSession (globals w') = Some (mkChatSession sequence SYSTEM_PROMPT) /\
             currentModelName (globals w') = Some modelName /\
             isLoading (globals w') = false /\
             loadProgress (globals w') = 100%Q) /\
            homedir w' = homedir w /\
            Announced w [mkProgressArgs PLoading 50 modelName None;
                         mkProgressArgs PLoading 80 modelName None;
                         mkProgressArgs PLoaded 100 modelName None] w')
         (loadingPhase modelName modelPath w).
Proof.
  unfold Course, loadingPhase.
  do 3 (apply always_bind, always_perform; cbv beta iota).
  set (w1 := notifyProgress _ _ _ _ _).
  assert (Ha1 : Announced w ([] ++ [mkProgressArgs PLoading 50 modelName None]) w1)
    by (unfold w1; announce; apply announced_refl).
  assert (Hh1 : homedir w1 = homedir w) by (unfold w1; now rewrite homedir_notifyProgress).
  clearbody w1.
  apply always_tryCatch.
  eapply always_weaken with
    (Q := fun w' (r : JSError + bool) =>
            r = inr true /\
            (isSome (llama (globals w')) = true /\
             model (globals w') = Some m /\
             context (globals w') = Some c /\
             chatSession (globals w') = Some (mkChatSession sequence SYSTEM_PROMPT) /\
             currentModelName (globals w') = Some modelName /\
             isLoading (globals w') = false /\
             loadProgress (globals w') = 100%Q) /\
            homedir w' = homedir w /\
            Announced w [mkProgressArgs PLoading 50 modelName None;
                         mkProgressArgs PLoading 80 modelName None;
                         mkProgressArgs PLoaded 100 modelName None] w').
  { intros w' [e|b] H; cbv beta iota; [destruct H as [H _]; discriminate H|exact H]. }
  unfold loadModelBody.
  apply always_bind.
  eapply always_weaken; [|apply (unloadPrevious_quiet w _ w1 Ha1)].
  intros w2 r2 (-> & Ha2 & Hh2 & _). cbv beta iota.
  apply always_bind.
  eapply always_weaken; [|apply (ensureInitialized_quiet w _ w2 Ha2)].
  intros w3 r3 ((b & ->) & Ha3 & Hh3 & Hl3). cbv beta iota.
  apply always_bind, always_perform. cbv beta iota.
  eapply always_weaken;
    [|apply (loadIntoEngine_announces w _ _ modelName modelPath
               (announced_console _ _ _ _ _ _ Ha3) Hl3)].
  intros w4 r4 (-> & Hg & Hh4 & Ha4). cbv beta iota.
  split; [reflexivity|]. split; [exact Hg|]. split; [|exact Ha4].
  cbn [console record homedir] in Hh4. congruence.
Qed.

End HappyPath.

(** X17.  When the model file is in place and the engine does all it is
    asked, [loadModel] returns [true] after publishing exactly three
    events, each to every listener in registration order: "loading" at 50,
    "loading" at 80 and "loaded" at 100.  Afterwards [getStatus] reports
    the model under its name, loaded, with [loadProgress] 100 and nothing
    loading, and the chat session is the one created on the sequence of
    the new context. *)
Theorem loadModel_publishes_its_progress (env : Env) (h : list Request) (w : World)
  (modelName : jsstring) (l : Llama) (m : Model) (c : Context) (sequence : nat) :
  isLoading (globals w) = false ->
  sameModel (currentModelName (globals w)) modelName && isSome (model (globals w)) = false ->
  existsSync w (modelPathOf w modelName) = true ->
  (forall history c', env history (ContextDispose c') = inr tt) ->
  (forall history m', env history (ModelDispose m') = inr tt) ->
  (forall history, env history GetLlama = inr l) ->
  (forall history l' p g, env history (LlamaLoadModel l' p g) = inr m) ->
  (forall history m' n, env history (ModelCreateContext m' n) = inr c) ->
  getSequence c = inr sequence ->
  let o := run env h (loadModel modelName w) in
  result o = inr true /\
  Announced w [mkProgressArgs PLoading 50 modelName None;
               mkProgressArgs PLoading 80 modelName None;
               mkProgressArgs PLoaded 100 modelName None] (final o) /\
  Catalogue.getStatus (final o)
  = Catalogue.mkStatus true true (Some modelName) false 100 (MODELS_DIR (homedir w)) /\
  chatSession (globals (final o)) = Some (mkChatSession sequence SYSTEM_PROMPT).
Proof.
  intros Hi Hs Hf Hcd Hmd Hget Hload Hctx Hseq. cbv zeta.
  rewrite loadModel_with_file by assumption.
  destruct (always_run_env _ _ env _ h
              (loadingPhase_announces env l m c sequence Hcd Hmd Hget Hload Hctx Hseq
                 w modelName (modelPathOf w modelName)))
    as (Hr & (Hl & Hm & Hc & Hcs & Hn & Hil & Hlp) & Hh & Ha).
  split; [exact Hr|]. split; [exact Ha|]. split; [|exact Hcs].
  unfold Catalogue.getStatus. now rewrite Hl, Hm, Hn, Hil, Hlp, Hh.
Qed.

(** X17 at the fresh service with the model file in place. *)
Lemma loadModel_publishes_its_progress_witness :
  result (run working [] (loadModel llamaModel downloadedWorld)) = inr true /\
  Announced downloadedWorld
            [mkProgressArgs PLoading 50 llamaModel None;
             mkProgressArgs PLoading 80 llamaModel None;
             mkProgressArgs PLoaded 100 llamaModel None]
            (final (run working [] (loadModel llamaModel downloadedWorld))).
Proof.
  destruct (loadModel_publishes_its_progress working [] downloadedWorld llamaModel
              1 2 sampleContext 0 eq_refl eq_refl ltac:(vm_compute; reflexivity)
              (fun _ _ => eq_refl) (fun _ _ => eq_refl) (fun _ => eq_refl)
              (fun _ _ _ _ => eq_refl) (fun _ _ _ => eq_refl) eq_refl) as (H1 & H2 & _).
  split; [exact H1 | exact H2].
Defined.
(** *** Switching models *)

(** X28.  When another model is loaded and [loadModel] is asked for a
    model whose file is in place, the context and the model loaded so far
    are disposed of, in this order, before the engine is asked to load the
    new file: with an engine that does all it is asked, the requests are
    the two disposals, then [llama.loadModel] on the path of the new model
    with [gpuLayers: "max"], then [createContext] on the new model with
    the configured context size, and nothing else. *)
Theorem loadModel_releases_previous_model (env : Env) (h : list Request) (w : World)
  (modelName : jsstring) (l : Llama) (old new : Model) (oldContext newContext : Context)
  (sequence : nat) :
  isLoading (globals w) = false ->
  sameModel (currentModelName (globals w)) modelName = false ->
  existsSync w (modelPathOf w modelName) = true ->
  llama (globals w) = Some l ->
  model (globals w) = Some old ->
  context (globals w) = Some oldContext ->
  (forall history c, env history (ContextDispose c) = inr tt) ->
  (forall history m, env history (ModelDispose m) = inr tt) ->
  (forall history l' p g, env history (LlamaLoadModel l' p g) = inr new) ->
  (forall history m n, env history (ModelCreateContext m n) = inr newContext) ->
  getSequence newContext = inr sequence ->
  let o := run env h (loadModel modelName w) in
  result o = inr true /\
  requests o
  = h ++ [ContextDispose oldContext; ModelDispose old; Tick;
          LlamaLoadModel l (modelPathOf w modelName) (lit "max");
          ModelCreateContext new CONTEXT_SIZE].
Proof.
  intros Hi Hs Hf Hl Hm Hc Hcd Hmd Hload Hctx Hseq. cbv zeta.
  rewrite loadModel_with_file; [|exact Hi|now rewrite Hs|exact Hf].
  set (modelPath := modelPathOf w modelName).
  destruct w as [[ll mo co cs cn il lp] ls files hd tr].
  cbn [globals llama model context isLoading] in Hi, Hl, Hm, Hc. subst.
  unfold loadingPhase, loadModelBody, unloadPrevious, ensureInitialized, unloadModel,
    loadIntoEngine, await.
  repeat (cbn -[lit notifyProgress modelPath];
          rewrite ?globals_notifyProgress, ?Hcd, ?Hmd, ?Hload, ?Hctx, ?Hseq).
  destruct cs; repeat (cbn -[lit notifyProgress modelPath];
          rewrite ?globals_notifyProgress, ?Hcd, ?Hmd, ?Hload, ?Hctx, ?Hseq);
    rewrite <- ?app_assoc; split; reflexivity.
Qed.

(** X28 in the ready world of the samples, asked for the other model. *)
Lemma loadModel_releases_previous_model_witness :
  requests (run working [] (loadModel llamaModel bothFiles))
  = [] ++ [ContextDispose sampleContext; ModelDispose 2; Tick;
           LlamaLoadModel 1 (modelPathOf bothFiles llamaModel) (lit "max");
           ModelCreateContext 2 CONTEXT_SIZE].
Proof.
  destruct (loadModel_releases_previous_model working [] bothFiles llamaModel 1 2 2
              sampleContext sampleContext 0
              eq_refl ltac:(vm_compute; reflexivity) ltac:(vm_compute; reflexivity)
              eq_refl eq_refl eq_refl
              (fun _ _ => eq_refl) (fun _ _ => eq_refl)
              (fun _ _ _ _ => eq_refl) (fun _ _ _ => eq_refl) eq_refl) as [_ H].
  exact H.
Defined.
(** ** What an operation asks for *)

Section AsksRules.

Variable P : Request -> Prop.

Lemma asks_bindStep {A B : Type} (s : Step A) (f : A -> Async B) :
  Asks P s -> (forall a w, Asks P (f a w)) -> Asks P (bindStep s f).
Proof.
  intros Hs Hf. induction s as [w a|w e|w req k IH]; cbn [bindStep Asks] in *.
  - apply Hf.
  - exact I.
  - destruct Hs as [Hp Hk]. split; [exact Hp|]. intros r w'. apply IH, Hk.
Qed.

Lemma asks_catchStep {A : Type} (s : Step A) (hd : JSError -> Async A) :
  Asks P s -> (forall e w, Asks P (hd e w)) -> Asks P (catchStep s hd).
Proof.
  intros Hs Hf. induction s as [w a|w e|w req k IH]; cbn [catchStep Asks] in *.
  - exact I.
  - apply Hf.
  - destruct Hs as [Hp Hk]. split; [exact Hp|]. intros r w'. apply IH, Hk.
Qed.

Lemma asks_bind {A B : Type} (m : Async A) (f : A -> Async B) (w : World) :
  Asks P (m w) -> (forall a w', Asks P (f a w')) -> Asks P (bind m f w).
Proof. apply asks_bindStep. Qed.

Lemma asks_tryCatch {A : Type} (m : Async A) (hd : JSError -> Async A) (w : World) :
  Asks P (m w) -> (forall e w', Asks P (hd e w')) -> Asks P (tryCatch m hd w).
Proof. apply asks_catchStep. Qed.

Lemma asks_request (req : Request) (w : World) : P req -> Asks P (request req w).
Proof. intros H. cbn. split; [exact H|]. intros [e|a] w'; exact I. Qed.

Lemma asks_await {A : Type} (m : Async A) (w : World) :
  P Tick -> Asks P (m w) -> Asks P (await m w).
Proof.
  intros Ht Hm. unfold await. apply asks_tryCatch; [apply asks_bind; [exact Hm|]|].
  - intros a w'. cbn. split; [exact Ht|]. intros r w''. exact I.
  - intros e w'. cbn. split; [exact Ht|]. intros r w''. exact I.
Qed.

Lemma asks_run {A : Type} (env : Env) (s : Step A) :
  Asks P s ->
  forall h, exists rs, requests (run env h s) = h ++ rs /\ Forall P rs.
Proof.
  induction s as [w a|w e|w req k IH]; cbn [Asks run requests].
  - intros _ h. exists []. now rewrite app_nil_r.
  - intros _ h. exists []. now rewrite app_nil_r.
  - intros [Hp Hk] h.
    destruct (IH (env h req) w (Hk _ _) (h ++ [req])) as (rs & Hr & HF).
    exists (req :: rs). rewrite Hr, <- app_assoc. split; [reflexivity|].
    now constructor.
Qed.

End AsksRules.

Ltac asks_step :=
  match goal with
  | |- forall _, _ => intro
  | |- Asks _ (bind _ _ _) => apply asks_bind
  | |- Asks _ (tryCatch _ _ _) => apply asks_tryCatch
  | |- Asks _ (await _ _) => apply asks_await
  | |- Asks _ (request _ _) => apply asks_request
  | |- Asks _ (observe _) => exact I
  | |- Asks _ (perform _ _) => exact I
  | |- Asks _ (ret _ _) => exact I
  | |- Asks _ (throw _ _) => exact I
  | |- Asks _ (match ?x with _ => _ end _) => destruct x
  | |- Asks _ ((if ?x then _ else _) _) => destruct x
  | |- offline _ => exact I
  | |- promptOrTurn _ => exact I
  end.

Ltac asks := repeat (once (cbv beta iota; asks_step)).

Lemma loadingPhase_offline (modelName modelPath : jsstring) (w : World) :
  Asks offline (loadingPhase modelName modelPath w).
Proof.
  unfold loadingPhase, loadModelBody, unloadPrevious, ensureInitialized, unloadModel,
    initializeLLM, loadIntoEngine.
  asks.
Qed.

Lemma loadModel_offline (modelName : jsstring) (w : World) :
  existsSync w (modelPathOf w modelName) = true ->
  Asks offline (loadModel modelName w).
Proof.
  intros Hf. unfold loadModel.
  destruct (isLoading (globals w)); [exact I|].
  destruct (sameModel (currentModelName (globals w)) modelName && isSome (model (globals w)));
    [exact I|].
  rewrite Hf. apply loadingPhase_offline.
Qed.

(** X13.  When the file of a model is in place - whatever its size, and
    whether or not [isModelValid] would accept it - [loadModel] makes no
    request to the network, whatever the engine answers: the file is
    handed to the engine as it is. *)
Theorem loadModel_trusts_existing_file (env : Env) (h : list Request) (w : World)
  (modelName : jsstring) :
  existsSync w (modelPathOf w modelName) = true ->
  exists rs,
    requests (run env h (loadModel modelName w)) = h ++ rs /\ Forall offline rs.
Proof. intros Hf. apply asks_run, loadModel_offline, Hf. Qed.

(** X13 for the file that stopped one byte short of 90 percent. *)
Lemma loadModel_trusts_existing_file_witness :
  exists rs,
    requests (run working [] (loadModel qwenLarge truncatedWorld)) = [] ++ rs /\
    Forall offline rs.
Proof.
  apply (loadModel_trusts_existing_file working [] truncatedWorld qwenLarge).
  vm_compute. reflexivity.
Defined.
(** ** The download *)

Lemma catalogued_url_truthy (modelName url : jsstring) :
  lookup MODEL_URLS modelName = Some url -> truthy url = true.
Proof.
  intros Hu. unfold MODEL_URLS in Hu. cbn [lookup] in Hu.
  repeat match type of Hu with
         | (if ?c then _ else _) = _ => destruct c
         end; try discriminate; injection Hu as <-; reflexivity.
Qed.



(** The validity check only writes to the console. *)
Lemma isModelValid_frame (modelPath modelName : jsstring) (w : World) :
  fs (fst (isModelValid modelPath modelName w)) = fs w /\
  homedir (fst (isModelValid modelPath modelName w)) = homedir w /\
  globals (fst (isModelValid modelPath modelName w)) = globals w /\
  progressListeners (fst (isModelValid modelPath modelName w)) = progressListeners w.
Proof.
  unfold isModelValid.
  destruct (existsSync w modelPath); [|now cbn]. cbn [negb].
  destruct (statSync w modelPath) as [e|st]; [now cbn|]. cbv zeta.
  destruct (lookup MODEL_SIZES modelName) as [expected|];
    repeat match goal with
           | |- context [if ?c then _ else _] => destruct c
           end; now cbn.
Qed.









(** X16.  For a name that is not a property every object inherits,
    [downloadModel] fails before doing anything exactly when the name has
    no entry in [CONFIG.MODEL_URLS]: it then throws "Unknown model: name"
    with the world as it was, even when a file of that name is in the
    models directory; for a catalogued name its first stretch does not end
    in an exception.  (The progress callback returns normally.) *)
Theorem downloadModel_rejects_unknown_model (modelName : jsstring)
  (cb : Z -> World -> World) (w : World) :
  inherited modelName = false ->
  (lookup MODEL_URLS modelName = None ->
   downloadModel modelName cb w = Thrown w (Error (lit "Unknown model: " ++ modelName))) /\
  ((exists w' e, downloadModel modelName cb w = Thrown w' e) <->
   lookup MODEL_URLS modelName = None).
Proof.
  intros _.
  assert (H1 : lookup MODEL_URLS modelName = None ->
               downloadModel modelName cb w
               = Thrown w (Error (lit "Unknown model: " ++ modelName))).
  { intros Hn. unfold downloadModel. now rewrite Hn. }
  split; [exact H1|]. split.
  - intros (w' & e & Ht).
    destruct (lookup MODEL_URLS modelName) as [url|] eqn:Hu; [|reflexivity].
    exfalso. revert Ht. unfold downloadModel.
    rewrite Hu, (catalogued_url_truthy _ _ Hu). cbn [negb].
    destruct (existsSync w (modelPathOf w modelName)); [|discriminate].
    destruct (isModelValid (modelPathOf w modelName) modelName w) as [wv [|]]; discriminate.
  - intros Hn. exists w. eexists. now apply H1.
Qed.

(** X16 for a name outside the catalogue. *)
Lemma downloadModel_rejects_unknown_model_witness :
  downloadModel (lit "custom.gguf") (fun _ w => w) freshWorld
  = Thrown freshWorld (Error (lit "Unknown model: custom.gguf")).
Proof.
  destruct (downloadModel_rejects_unknown_model (lit "custom.gguf") (fun _ w => w) freshWorld
              eq_refl) as [H _].
  exact (H eq_refl).
Defined.
(** ** Inference *)

(** X18.  Whatever options [chat] is called with, the engine never
    receives a zero: an option that is absent or zero is replaced by the
    configured default (256 tokens, temperature 0.7, top-p 0.9), any other
    value is passed on as it is.  The prompt goes to the session unchanged,
    the answer or the error of the session is the outcome of [chat], and
    the world is left as it was. *)
Theorem chat_never_sends_zero_options (env : Env) (h : list Request) (w : World)
  (prompt : jsstring) (options : ChatOptions) :
  ready w = true ->
  exists session sent,
    chatSession (globals w) = Some session /\
    run env h (chat prompt options w)
    = mkOutcome (h ++ [SessionPrompt session prompt sent]) w
                (env h (SessionPrompt session prompt sent)) /\
    maxTokens sent <> 0%Z /\
    Qeq_bool (temperature sent) 0 = false /\
    Qeq_bool (topP sent) 0 = false /\
    (forall v, optMaxTokens options = Some v -> v <> 0%Z -> maxTokens sent = v) /\
    (forall v, optTemperature options = Some v -> Qeq_bool v 0 = false -> temperature sent = v) /\
    (forall v, optTopP options = Some v -> Qeq_bool v 0 = false -> topP sent = v) /\
    (optMaxTokens options = None \/ optMaxTokens options = Some 0%Z ->
     maxTokens sent = MAX_TOKENS) /\
    (optTemperature options = None \/
     (exists v, optTemperature options = Some v /\ Qeq_bool v 0 = true) ->
     temperature sent = TEMPERATURE) /\
    (optTopP options = None \/
     (exists v, optTopP options = Some v /\ Qeq_bool v 0 = true) ->
     topP sent = TOP_P).
Proof.
  unfold ready, chat. intros H.
  destruct (model (globals w)) as [m|]; [|discriminate].
  destruct (chatSession (globals w)) as [session|]; [|discriminate].
  eexists session, _. split; [reflexivity|]. split; [exact (run_request env (SessionPrompt session prompt _) h w)|].
  cbn [maxTokens temperature topP].
  destruct options as [[v1|] [v2|] [v3|]]; cbn [optMaxTokens optTemperature optTopP orDefaultZ orDefaultQ].
  all: repeat match goal with
              | |- context [(?v =? 0)%Z] => destruct (Z.eqb_spec v 0)
              | |- context [if Qeq_bool ?v 0 then _ else _] => destruct (Qeq_bool v 0) eqn:?
              end.
  all: repeat split; try assumption; try reflexivity; try discriminate.
  all: try (intros v Hv; injection Hv as <-; congruence).
  all: try (intros [Hv|Hv]; congruence).
  all: try (intros [Hv|(v & Hv & Hz)]; congruence).
  all: try (intros v Hv; discriminate Hv).
Qed.

(** X18 in the ready world of the samples: a temperature of 0 is sent as
    0.7. *)
Lemma chat_never_sends_zero_options_witness :
  exists session sent,
    run working [] (chat (lit "Hello") (chatOptions 64 0) readyWorld)
    = mkOutcome ([] ++ [SessionPrompt session (lit "Hello") sent]) readyWorld
                (working [] (SessionPrompt session (lit "Hello") sent)) /\
    maxTokens sent = 64%Z /\
    temperature sent = TEMPERATURE.
Proof.
  destruct (chat_never_sends_zero_options working [] readyWorld (lit "Hello") (chatOptions 64 0)
              eq_refl) as (session & sent & _ & Hr & _ & _ & _ & Hm & _ & _ & _ & Ht & _).
  exists session, sent. split; [exact Hr|]. split.
  - apply Hm; [reflexivity|discriminate].
  - apply Ht. right. exists 0%Q. split; reflexivity.
Defined.

Lemma streq_eq (a b : jsstring) : streq a b = true -> a = b.
Proof.
  revert b. induction a as [|c a IH]; intros [|d b]; cbn; try discriminate; [reflexivity|].
  intros H. apply andb_prop in H as [H1 H2]. apply N.eqb_eq in H1. subst d.
  now rewrite (IH b H2).
Qed.

(** X19.  [categorize] sends one prompt and leaves the world as it was.
    When the session answers, the result is "unknown" or a category of the
    list that equals the answer once both are lower-cased and the answer
    is trimmed - a category that merely occurs inside the answer does not
    count, unlike in [batchCategorize] - and if no category of the list is
    the empty string, any such category in the list is found.  An error of
    the session, or "Model not loaded" when the service is not ready, is
    thrown to the caller. *)
Theorem categorize_returns_listed_category (toLowerCase : jsstring -> jsstring)
  (env : Env) (h : list Request) (w : World) (title url : jsstring) (categories : list jsstring) :
  let o := run env h (categorize toLowerCase title url categories w) in
  final o = w /\
  (ready w = false -> result o = inl notLoaded /\ prompts (requests o) = prompts h) /\
  (ready w = true ->
   prompts (requests o) = prompts h ++ [categorizePrompt title url categories] /\
   exists session sent,
     match env h (SessionPrompt session (categorizePrompt title url categories) sent) with
     | inl e => result o = inl e
     | inr response =>
         exists c,
           result o = inr c /\
           (c = unknown \/
            (In c categories /\ toLowerCase c = toLowerCase (trim response))) /\
           (Forall (fun c' => truthy c' = true) categories ->
            (exists c', In c' categories /\ toLowerCase c' = toLowerCase (trim response)) ->
            In c categories /\ toLowerCase c = toLowerCase (trim response))
     end).
Proof.
  cbv zeta. unfold categorize. rewrite run_bind, run_await. cbn [result requests final].
  set (prompt := categorizePrompt title url categories).
  destruct (ready w) eqn:Hr.
  - destruct (run_chat_ready env prompt (chatOptions 32 (1 # 10)) h w Hr) as (s & sent & Hc).
    rewrite Hc. cbn [result requests final].
    destruct (env h (SessionPrompt s prompt sent)) as [e|response] eqn:He.
    + cbn [run ret result requests final].
      split; [reflexivity|]. split; [discriminate|]. intros _. split.
      * rewrite !prompts_app. cbn. now rewrite app_nil_r.
      * exists s, sent. now rewrite He.
    + cbn [run ret result requests final].
      split; [reflexivity|]. split; [discriminate|]. intros _. split.
      * rewrite !prompts_app. cbn. now rewrite app_nil_r.
      * exists s, sent. rewrite He.
        match goal with
        | |- context [find ?f categories] => destruct (find f categories) as [c|] eqn:Ef
        end.
        -- apply find_some in Ef as [Hin Heq]. apply streq_eq in Heq.
           destruct (truthy c) eqn:Ht.
           ++ exists c. split; [reflexivity|]. split; [right; now split|]. intros _ _. now split.
           ++ exists unknown. split; [reflexivity|]. split; [now left|].
              intros Hall _. rewrite Forall_forall in Hall. rewrite (Hall c Hin) in Ht. discriminate.
        -- exists unknown. split; [reflexivity|]. split; [now left|].
           intros _ (c' & Hin & Heq). exfalso.
           pose proof (find_none _ _ Ef c' Hin) as Hn. cbv beta in Hn.
           rewrite Heq, streq_refl in Hn. discriminate.
  - rewrite (run_chat_not_ready env prompt (chatOptions 32 (1 # 10)) h w Hr).
    cbn [result requests final]. split; [reflexivity|]. split; [|discriminate].
    intros _. split; [reflexivity|]. rewrite prompts_app. cbn. now rewrite app_nil_r.
Qed.

(** X19 in the ready world of the samples, whose session answers
    "Work". *)
Lemma categorize_returns_listed_category_witness :
  result (run working [] (categorize asciiLower (lit "Inbox") (lit "https://mail.example.com")
                            [lit "Personal"; lit "work"] readyWorld))
  = inr (lit "work").
Proof.
  destruct (categorize_returns_listed_category asciiLower working [] readyWorld
              (lit "Inbox") (lit "https://mail.example.com") [lit "Personal"; lit "work"])
    as (_ & _ & H).
  destruct (H eq_refl) as (_ & session & sent & Hm). cbn [working] in Hm.
  destruct Hm as (c & Hc & _ & Hfound). rewrite Hc.
  destruct Hfound as [Hin Heq].
  - repeat constructor.
  - exists (lit "work"). split; [right; left; reflexivity|reflexivity].
  - destruct Hin as [<-|[<-|[]]]; [discriminate Heq|reflexivity].
Defined.

(** *** Inference leaves the service alone *)

Lemma untouched_refl (w : World) : Untouched w w.
Proof. repeat split. Qed.

Lemma untouched_console (w0 w : World) (level : ConsoleLevel) (text : jsstring)
  (rest : list LogValue) :
  Untouched w0 w -> Untouched w0 (console level text rest w).
Proof.
  intros (Hg & Hf & Hl & Hh & Hc). repeat split; try assumption.
  cbn [console record trace]. rewrite calls_app, Hc. cbn. apply app_nil_r.
Qed.

Section Frame.

Variable w0 : World.

Let Kept {A : Type} :=
  @Always A anyAnswer eq (fun _ => True) (fun w' _ => Untouched w0 w').

Lemma chat_kept (prompt : jsstring) (options : ChatOptions) (w : World) :
  Untouched w0 w -> Kept (chat prompt options w).
Proof.
  intros H. unfold Kept, chat.
  destruct (model (globals w)); [|exact H].
  destruct (chatSession (globals w)); [|exact H].
  apply always_request; [exact I|]. now intros r w' _ <-.
Qed.

Lemma await_kept {A : Type} (m : Async A) (w : World) : Kept (m w) -> Kept (await m w).
Proof.
  intros H. apply always_await. eapply always_weaken; [|exact H].
  intros w' r Hu. split; [exact I|]. now intros w'' <-.
Qed.

Lemma bind_kept {A B : Type} (m : Async A) (f : A -> Async B) (w : World) :
  Kept (m w) -> (forall a w', Untouched w0 w' -> Kept (f a w')) -> Kept (bind m f w).
Proof.
  intros Hm Hf. apply always_bind. eapply always_weaken; [|exact Hm].
  intros w' [e|a] Hu; cbv beta iota; [exact Hu|now apply Hf].
Qed.

Lemma tryCatch_kept {A : Type} (m : Async A) (hd : JSError -> Async A) (w : World) :
  Kept (m w) -> (forall e w', Untouched w0 w' -> Kept (hd e w')) -> Kept (tryCatch m hd w).
Proof.
  intros Hm Hf. apply always_tryCatch. eapply always_weaken; [|exact Hm].
  intros w' [e|a] Hu; cbv beta iota; [now apply Hf|exact Hu].
Qed.

Lemma summarizeChunks_kept (chunks : list jsstring) (remaining : nat) :
  forall (i : nat) (acc : list jsstring) (w : World),
    Untouched w0 w -> Kept (summarizeChunks remaining i chunks acc w).
Proof.
  induction remaining as [|remaining IH]; intros i acc w Hu; cbn [summarizeChunks].
  - exact Hu.
  - apply bind_kept; [apply await_kept, chat_kept, Hu|].
    intros summary w' Hu'. now apply IH.
Qed.

Lemma summarize_kept (text : jsstring) (maxLength : Z) (w : World) :
  Untouched w0 w -> Kept (summarize text maxLength w).
Proof.
  intros Hu. unfold summarize.
  destruct (negb (truthy text) || (strlen (trim text) =? 0)%Z); [exact Hu|].
  destruct (estimateTokens text <? 700)%Z; [apply await_kept, chat_kept, Hu|].
  destruct (Nat.eqb (List.length (chunkText text 500)) 1); [apply await_kept, chat_kept, Hu|].
  apply bind_kept; [now apply untouched_console|].
  intros [] w1 Hu1. apply bind_kept; [now apply summarizeChunks_kept|].
  intros summaries w2 Hu2. apply await_kept, chat_kept, Hu2.
Qed.

Lemma batchTurn_kept (toLowerCase : jsstring -> jsstring) (categories : list jsstring)
  (batch : list Item) (results : list Categorized) (w : World) :
  Untouched w0 w -> Kept (batchTurn toLowerCase categories batch results w).
Proof.
  intros Hu. unfold batchTurn. apply tryCatch_kept.
  - apply bind_kept; [apply await_kept, chat_kept, Hu|]. intros response w' Hu'. exact Hu'.
  - intros e w' Hu'. apply bind_kept; [now apply untouched_console|].
    intros [] w'' Hu''. exact Hu''.
Qed.

Lemma batchLoop_kept (toLowerCase : jsstring -> jsstring) (items : list Item)
  (categories : list jsstring) (turns : nat) :
  forall (i : nat) (results : list Categorized) (w : World),
    Untouched w0 w -> Kept (batchLoop toLowerCase turns i items categories results w).
Proof.
  induction turns as [|turns IH]; intros i results w Hu; cbn [batchLoop]; [exact Hu|].
  destruct (Nat.ltb i (List.length items)); [|exact Hu].
  apply bind_kept; [now apply batchTurn_kept|].
  intros results' w' Hu'. now apply IH.
Qed.

Lemma parseCommand_kept (JSON_parse : jsstring -> JSError + JSValue) (command : jsstring)
  (w : World) :
  Untouched w0 w -> Kept (parseCommand JSON_parse command w).
Proof.
  intros Hu. unfold parseCommand.
  apply bind_kept; [apply await_kept, chat_kept, Hu|].
  intros response w' Hu'. apply tryCatch_kept.
  - destruct (matchBraces response) as [jsonMatch|]; [|exact Hu'].
    destruct (JSON_parse jsonMatch); exact Hu'.
  - intros e w'' Hu''. apply bind_kept; [now apply untouched_console|].
    intros [] w3 Hu3. exact Hu3.
Qed.

End Frame.

Lemma chat_asks (prompt : jsstring) (options : ChatOptions) (w : World) :
  Asks promptOrTurn (chat prompt options w).
Proof.
  unfold chat. destruct (model (globals w)); [|exact I].
  destruct (chatSession (globals w)) as [session|]; [|exact I].
  exact (asks_request promptOrTurn (SessionPrompt session prompt _) w I).
Qed.

Lemma summarizeChunks_asks (chunks : list jsstring) (remaining : nat) :
  forall (i : nat) (acc : list jsstring) (w : World),
    Asks promptOrTurn (summarizeChunks remaining i chunks acc w).
Proof.
  induction remaining as [|remaining IH]; intros i acc w; cbn [summarizeChunks]; [exact I|].
  apply asks_bind; [apply asks_await; [exact I|apply chat_asks]|].
  intros summary w'. apply IH.
Qed.

Lemma batchLoop_asks (toLowerCase : jsstring -> jsstring) (items : list Item)
  (categories : list jsstring) (turns : nat) :
  forall (i : nat) (results : list Categorized) (w : World),
    Asks promptOrTurn (batchLoop toLowerCase turns i items categories results w).
Proof.
  induction turns as [|turns IH]; intros i results w; cbn [batchLoop]; [exact I|].
  destruct (Nat.ltb i (List.length items)); [|exact I].
  apply asks_bind.
  - unfold batchTurn. apply asks_tryCatch.
    + apply asks_bind; [apply asks_await; [exact I|apply chat_asks]|]. intros; exact I.
    + intros e w'. apply asks_bind; [exact I|]. intros; exact I.
  - intros results' w'. apply IH.
Qed.

Lemma readOnly_intro {A : Type} (operation : Async A) :
  (forall w0 w, Untouched w0 w ->
     Always anyAnswer eq (fun _ => True) (fun w' _ => Untouched w0 w') (operation w)) ->
  (forall w, Asks promptOrTurn (operation w)) ->
  ReadOnly operation.
Proof.
  intros Hk Ha env h w. split.
  - apply (always_run anyAnswer (fun _ => True) (fun w' _ => Untouched w w') env).
    + intros history req. exact I.
    + apply Hk, untouched_refl.
  - apply asks_run, Ha.
Qed.

(** X20.  None of the inference operations changes the module state, the
    files or the set of listeners, or calls a listener, and none makes a
    request other than prompts to the chat session: whatever the session
    answers, [chat], [summarize], [categorize], [answerQuestion],
    [parseCommand] and [batchCategorize] end in a world that differs from
    the one they started in by console lines only. *)
Theorem inference_is_read_only
  (toLowerCase : jsstring -> jsstring) (JSON_parse : jsstring -> JSError + JSValue) :
  (forall prompt options, ReadOnly (chat prompt options)) /\
  (forall text maxLength, ReadOnly (summarize text maxLength)) /\
  (forall title url categories, ReadOnly (categorize toLowerCase title url categories)) /\
  (forall question content, ReadOnly (answerQuestion question content)) /\
  (forall command, ReadOnly (parseCommand JSON_parse command)) /\
  (forall items categories, ReadOnly (batchCategorize toLowerCase items categories)).
Proof.
  split; [|split; [|split; [|split; [|split]]]].
  - intros prompt options. apply readOnly_intro.
    + intros w0 w Hu. now apply chat_kept.
    + intros w. apply chat_asks.
  - intros text maxLength. apply readOnly_intro.
    + intros w0 w Hu. now apply summarize_kept.
    + intros w. unfold summarize.
      destruct (negb (truthy text) || (strlen (trim text) =? 0)%Z); [exact I|].
      destruct (estimateTokens text <? 700)%Z; [apply asks_await; [exact I|apply chat_asks]|].
      destruct (Nat.eqb (List.length (chunkText text 500)) 1);
        [apply asks_await; [exact I|apply chat_asks]|].
      apply asks_bind; [exact I|]. intros [] w1.
      apply asks_bind; [apply summarizeChunks_asks|]. intros summaries w2.
      apply asks_await; [exact I|apply chat_asks].
  - intros title url categories. apply readOnly_intro.
    + intros w0 w Hu. unfold categorize.
      apply bind_kept; [apply await_kept, chat_kept, Hu|]. intros response w' Hu'. exact Hu'.
    + intros w. unfold categorize.
      apply asks_bind; [apply asks_await; [exact I|apply chat_asks]|]. intros; exact I.
  - intros question content. apply readOnly_intro.
    + intros w0 w Hu. unfold answerQuestion. apply await_kept, chat_kept, Hu.
    + intros w. unfold answerQuestion. apply asks_await; [exact I|apply chat_asks].
  - intros command. apply readOnly_intro.
    + intros w0 w Hu. now apply parseCommand_kept.
    + intros w. unfold parseCommand.
      apply asks_bind; [apply asks_await; [exact I|apply chat_asks]|]. intros response w'.
      apply asks_tryCatch.
      * destruct (matchBraces response) as [jsonMatch|]; [|exact I].
        destruct (JSON_parse jsonMatch); exact I.
      * intros e w''. apply asks_bind; [exact I|]. intros; exact I.
  - intros items categories. apply readOnly_intro.
    + intros w0 w Hu. unfold batchCategorize.
      destruct (Nat.eqb (List.length items) 0); [exact Hu|]. now apply batchLoop_kept.
    + intros w. unfold batchCategorize.
      destruct (Nat.eqb (List.length items) 0); [exact I|]. apply batchLoop_asks.
Qed.

(** *** The prompts of batchCategorize *)

Lemma batches_cover {A : Type} (n : nat) (items : list A) :
  forall fuel, List.length items <= fuel -> 0 < n ->
    concat (batches fuel n items) = items /\
    Forall (fun batch => 1 <= List.length batch <= n) (batches fuel n items).
Proof.
  intros fuel. revert items. induction fuel as [|fuel IH]; intros items Hle Hn.
  - destruct items; [now split|cbn in Hle; lia].
  - destruct items as [|x items]; [now split|].
    cbn [batches concat].
    destruct (IH (skipn n (x :: items))) as [Hc HF];
      [rewrite length_skipn; cbn [List.length] in *; lia|exact Hn|].
    split.
    + rewrite Hc. apply firstn_skipn.
    + constructor; [|exact HF].
      rewrite length_firstn. cbn [List.length]. lia.
Qed.

Lemma batches_count {A : Type} (items : list A) :
  forall fuel, List.length items <= fuel ->
    List.length (batches fuel 3 items) = (List.length items + 2) / 3.
Proof.
  intros fuel. revert items. induction fuel as [|fuel IH]; intros items Hle.
  - destruct items; [reflexivity|cbn in Hle; lia].
  - destruct items as [|x items]; [reflexivity|].
    cbn [batches List.length]. rewrite IH by (rewrite length_skipn; cbn [List.length] in *; lia).
    rewrite length_skipn. cbn [List.length].
    destruct (List.length items) as [|[|n]]; [reflexivity|reflexivity|].
    replace (S (S (S n)) - 3 + 2) with (n + 2) by lia.
    replace (S (S (S n)) + 2) with (n + 2 + 1 * 3) by lia.
    rewrite Nat.div_add by lia. lia.
Qed.

Lemma requests_batchTurn (toLowerCase : jsstring -> jsstring) (env : Env)
  (categories : list jsstring) (batch : list Item) (results : list Categorized)
  (h : list Request) (w : World) :
  requests (run env h (batchTurn toLowerCase categories batch results w))
  = requests (run env h (chat (batchPrompt categories batch) (chatOptions 64 (1 # 10)) w))
    ++ [Tick].
Proof.
  unfold batchTurn. rewrite run_tryCatch, run_bind, run_await. cbn [result requests final].
  destruct (run env h (chat (batchPrompt categories batch) (chatOptions 64 (1 # 10)) w))
    as [rs w' [e|response]]; reflexivity.
Qed.

Lemma prompts_batchLoop (toLowerCase : jsstring -> jsstring) (env : Env) (items : list Item)
  (categories : list jsstring) :
  forall (turns i : nat) (results : list Categorized) (h : list Request) (w : World),
    prompts (requests (run env h (batchLoop toLowerCase turns i items categories results w)))
    = prompts h ++ (if ready w
                    then map (batchPrompt categories) (batches turns batchSize (skipn i items))
                    else []).
Proof.
  induction turns as [|turns IH]; intros i results h w.
  - cbn. destruct (ready w); now rewrite app_nil_r.
  - cbn [batchLoop]. destruct (Nat.ltb i (List.length items)) eqn:Elt.
    + apply Nat.ltb_lt in Elt. rewrite run_bind.
      set (batch := firstn batchSize (skipn i items)).
      pose proof (run_batchTurn env toLowerCase categories batch results h w) as Ht.
      cbv zeta in Ht. destruct Ht as (Hg & Ht).
      pose proof (requests_batchTurn toLowerCase env categories batch results h w) as Hq.
      set (o := run env h (batchTurn toLowerCase categories batch results w)) in *.
      assert (Hready : ready (final o) = ready w) by (unfold ready; now rewrite Hg).
      assert (Hres : exists results', result o = inr results').
      { destruct (result (run env h (chat (batchPrompt categories batch)
                                        (chatOptions 64 (1 # 10)) w))); eauto. }
      destruct Hres as (results' & Hres). rewrite Hres, IH, Hready, Hq.
      assert (Hb : batches (S turns) batchSize (skipn i items)
                   = batch :: batches turns batchSize (skipn (i + batchSize) items)).
      { cbn [batches]. destruct (skipn i items) as [|x rest] eqn:Es.
        - apply (f_equal (@List.length Item)) in Es. rewrite length_skipn in Es.
          cbn in Es. lia.
        - fold batch. rewrite <- Es. unfold batch.
          now rewrite skipn_skipn, (Nat.add_comm batchSize i). }
      rewrite Hb. destruct (ready w) eqn:Hr.
      * destruct (run_chat_ready env (batchPrompt categories batch) (chatOptions 64 (1 # 10))
                    h w Hr) as (s & sent & ->).
        cbn [requests map]. rewrite !prompts_app. cbn [prompts flat_map app].
        now rewrite app_nil_r, <- app_assoc.
      * rewrite (run_chat_not_ready env _ _ h w Hr). cbn [requests].
        rewrite prompts_app. cbn. now rewrite !app_nil_r.
    + apply Nat.ltb_ge in Elt. cbn [run ret requests].
      rewrite (skipn_all2 items) by lia.
      cbn. destruct (ready w); now rewrite app_nil_r.
Qed.

(** X21.  [batchCategorize] cuts the items into consecutive batches of
    three (the last one may be shorter) and, when the service is ready,
    sends exactly one prompt per batch, in order, whatever the session
    answers - [ceil(n / 3)] prompts for [n] items; a failed batch does not
    stop the later ones.  When the service is not ready it sends none. *)
Theorem batchCategorize_prompts_per_batch (toLowerCase : jsstring -> jsstring)
  (env : Env) (h : list Request) (w : World) (items : list Item) (categories : list jsstring) :
  let o := run env h (batchCategorize toLowerCase items categories w) in
  let groups := batches (List.length items) 3 items in
  concat groups = items /\
  Forall (fun batch => 1 <= List.length batch <= 3) groups /\
  List.length groups = (List.length items + 2) / 3 /\
  prompts (requests o)
  = prompts h ++ (if ready w then map (batchPrompt categories) groups else []).
Proof.
  cbv zeta.
  destruct (batches_cover 3 items (List.length items)) as [Hc HF]; [lia|lia|].
  split; [exact Hc|]. split; [exact HF|].
  split; [apply batches_count; lia|].
  unfold batchCategorize. destruct items as [|item items].
  - cbn. destruct (ready w); now rewrite app_nil_r.
  - cbn [List.length Nat.eqb].
    rewrite (prompts_batchLoop toLowerCase env (item :: items) categories).
    reflexivity.
Qed.
(** ** Streaming and embeddings *)

Lemma consume_spec (onToken : list jsstring -> jsstring -> option JSError)
  (stream : TokenStream) :
  forall (fullResponse : jsstring) (handed : list jsstring),
    exists more rest,
      fst (consume onToken stream fullResponse handed) = handed ++ more /\
      tokens stream = more ++ rest /\
      match snd (consume onToken stream fullResponse handed) with
      | inr full => full = fullResponse ++ concat more /\ rest = [] /\ ending stream = None
      | inl e =>
          (rest = [] /\ ending stream = Some e) \/
          (exists before token,
             more = before ++ [token] /\ onToken (handed ++ before) token = Some e)
      end.
Proof.
  induction stream as [|e|token rest IH]; intros fullResponse handed.
  - exists [], []. cbn. rewrite !app_nil_r. repeat split.
  - exists [], []. cbn. rewrite !app_nil_r. repeat split. left. now split.
  - cbn [consume tokens ending]. destruct (onToken handed token) as [e|] eqn:Et.
    + exists [token], (tokens rest). cbn [fst snd]. repeat split.
      right. exists [], token. rewrite app_nil_r. now split.
    + destruct (IH (fullResponse ++ token) (handed ++ [token])) as (more & rest' & H1 & H2 & H3).
      exists (token :: more), rest'. rewrite H1, H2, <- app_assoc. repeat split.
      destruct (snd (consume onToken rest (fullResponse ++ token) (handed ++ [token])))
        as [e|full].
      * destruct H3 as [H3|(before & t & Hm & Ho)]; [now left|].
        right. exists (token :: before), t. rewrite Hm. split; [reflexivity|].
        now rewrite <- app_assoc in Ho.
      * destruct H3 as (-> & -> & He). cbn [concat]. rewrite <- app_assoc. now repeat split.
Qed.

(** X26.  [chatStream] hands the tokens of the stream to [onToken] one by
    one, in order, and stops at the first token on which the callback
    throws or when the stream fails; what it has handed over is always a
    prefix of the stream.  When it returns, every token of the stream has
    been handed over and the response returned is exactly their
    concatenation; when it throws, the error is that of the stream, or the
    one the callback threw on the last token handed over, and the partial
    response is lost.  Without a model and a session it throws "Model not
    loaded" and the stream is never started. *)
Theorem chatStream_returns_what_it_streamed
  (promptStream : ChatSession -> jsstring -> PromptOptions -> TokenStream)
  (prompt : jsstring) (onToken : list jsstring -> jsstring -> option JSError)
  (options : ChatOptions) (w : World) :
  let handed := fst (chatStream promptStream prompt onToken options w) in
  let outcome := snd (chatStream promptStream prompt onToken options w) in
  (ready w = false -> handed = [] /\ outcome = inl notLoaded) /\
  (ready w = true ->
   exists session sent rest,
     chatSession (globals w) = Some session /\
     tokens (promptStream session prompt sent) = handed ++ rest /\
     match outcome with
     | inr full =>
         full = concat handed /\ rest = [] /\ ending (promptStream session prompt sent) = None
     | inl e =>
         (rest = [] /\ ending (promptStream session prompt sent) = Some e) \/
         (exists before token,
            handed = before ++ [token] /\ onToken before token = Some e)
     end).
Proof.
  cbv zeta. unfold ready, chatStream.
  destruct (model (globals w)) as [m|]; [|split; [now split|discriminate]].
  destruct (chatSession (globals w)) as [session|]; [|split; [now split|discriminate]].
  split; [discriminate|]. intros _.
  match goal with
  | |- context [consume onToken (promptStream session prompt ?o) [] []] =>
      destruct (consume_spec onToken (promptStream session prompt o) [] [])
        as (more & rest & H1 & H2 & H3);
      exists session, o, rest
  end.
  cbn [app] in H1. rewrite H1. split; [reflexivity|]. split; [exact H2|].
  destruct (snd (consume onToken _ [] [])) as [e|full]; exact H3.
Qed.

(** X26 in the ready world of the samples, with a stream of two tokens
    and a callback that accepts them. *)
Lemma chatStream_returns_what_it_streamed_witness :
  chatStream (fun _ _ _ => Token (lit "Hel") (Token (lit "lo") EndOfStream))
             (lit "Hi") (fun _ _ => None) (chatOptions 64 (1 # 2)) readyWorld
  = ([lit "Hel"; lit "lo"], inr (lit "Hello")).
Proof.
  destruct (chatStream_returns_what_it_streamed
              (fun _ _ _ => Token (lit "Hel") (Token (lit "lo") EndOfStream))
              (lit "Hi") (fun _ _ => None) (chatOptions 64 (1 # 2)) readyWorld)
    as [_ H].
  destruct (H eq_refl) as (session & sent & rest & _ & Ht & Ho).
  destruct (chatStream _ _ _ _ readyWorld) as [handed [e|full]]; cbn [fst snd] in *.
  - destruct Ho as [[_ Ho]|(before & token & _ & Ho)]; discriminate Ho.
  - destruct Ho as (-> & -> & _). rewrite app_nil_r in Ht. now rewrite <- Ht.
Defined.

(** X27.  [getEmbedding] checks for a model only (not for a chat
    session): without one it throws "Model not loaded" and calls nothing.
    With one it creates an embedding context first, and it disposes of a
    context exactly when the embedding in it succeeded: a context whose
    [getEmbeddingFor] fails is never disposed of.  It returns a vector
    exactly when all three calls succeed, and the vector is then the one
    the engine computed. *)
Theorem getEmbedding_disposes_after_success
  (createEmbeddingContext : Model -> JSError + EmbeddingContext)
  (getEmbeddingFor : EmbeddingContext -> jsstring -> JSError + list float)
  (disposeEmbeddingContext : EmbeddingContext -> JSError + unit)
  (text : jsstring) (w : World) :
  let calls := fst (getEmbedding createEmbeddingContext getEmbeddingFor
                      disposeEmbeddingContext text w) in
  let outcome := snd (getEmbedding createEmbeddingContext getEmbeddingFor
                        disposeEmbeddingContext text w) in
  (model (globals w) = None ->
   calls = [] /\ outcome = inl (Error (lit "Model not loaded"))) /\
  (forall m, model (globals w) = Some m ->
     exists later, calls = CreateEmbeddingContext m :: later) /\
  (forall c,
     In (DisposeEmbeddingContext c) calls <->
     exists m vector,
       model (globals w) = Some m /\ createEmbeddingContext m = inr c /\
       getEmbeddingFor c text = inr vector) /\
  (forall vector,
     outcome = inr vector <->
     exists m c,
       model (globals w) = Some m /\ createEmbeddingContext m = inr c /\
       getEmbeddingFor c text = inr vector /\ disposeEmbeddingContext c = inr tt).
Proof.
  cbv zeta. unfold getEmbedding.
  destruct (model (globals w)) as [m|].
  2:{ split; [now split|]. split; [discriminate|]. split.
      - intros c. split; [intros []|intros (m & v & H & _); discriminate H].
      - intros v. split; [discriminate|intros (m & c & H & _); discriminate H]. }
  split; [discriminate|].
  destruct (createEmbeddingContext m) as [e|c] eqn:Ec.
  { cbn [fst snd]. split; [intros m' H; injection H as <-; eauto|]. split.
    - intros c. split.
      + intros [H|[]]; discriminate H.
      + intros (m' & v & H & Hc & _). injection H as <-. congruence.
    - intros v. split; [discriminate|].
      intros (m' & c & H & Hc & _). injection H as <-. congruence. }
  destruct (getEmbeddingFor c text) as [e|vector] eqn:Eg.
  { cbn [fst snd]. split; [intros m' H; injection H as <-; eauto|]. split.
    - intros c'. split.
      + intros [H|[H|[]]]; discriminate H.
      + intros (m' & v & H & Hc & Hg). injection H as <-. congruence.
    - intros v. split; [discriminate|].
      intros (m' & c' & H & Hc & Hg & _). injection H as <-. congruence. }
  assert (Hd : forall c',
             In (DisposeEmbeddingContext c')
                [CreateEmbeddingContext m; GetEmbeddingFor c text; DisposeEmbeddingContext c] <->
             exists m' v, Some m = Some m' /\ createEmbeddingContext m' = inr c' /\
                          getEmbeddingFor c' text = inr v).
  { intros c'. split.
    - intros [H|[H|[H|[]]]]; try discriminate H. injection H as <-. eauto.
    - intros (m' & v & H & Hc & _). injection H as <-.
      rewrite Ec in Hc. injection Hc as <-. right; right; left. reflexivity. }
  destruct (disposeEmbeddingContext c) as [e|[]] eqn:Ed; cbn [fst snd].
  - split; [intros m' H; injection H as <-; eauto|]. split; [exact Hd|].
    intros v. split; [discriminate|].
    intros (m' & c' & H & Hc & _ & Hdis). injection H as <-.
    rewrite Ec in Hc. injection Hc as <-. congruence.
  - split; [intros m' H; injection H as <-; eauto|]. split; [exact Hd|].
    intros v. split.
    + intros H. injection H as <-. exists m, c. now repeat split.
    + intros (m' & c' & H & Hc & Hg & _). injection H as <-.
      rewrite Ec in Hc. injection Hc as <-. congruence.
Qed.

(** X27 with a model loaded and an engine whose embedding call fails: the
    context is created and never disposed of. *)
Lemma getEmbedding_disposes_after_success_witness :
  fst (getEmbedding (fun _ => inr 7) (fun _ _ => inl (Error (lit "embedding failed")))
                    (fun _ => inr tt) (lit "text") readyWorld)
  = [CreateEmbeddingContext 2; GetEmbeddingFor 7 (lit "text")] /\
  ~ In (DisposeEmbeddingContext 7)
       (fst (getEmbedding (fun _ => inr 7) (fun _ _ => inl (Error (lit "embedding failed")))
                          (fun _ => inr tt) (lit "text") readyWorld)).
Proof.
  destruct (getEmbedding_disposes_after_success
              (fun _ => inr 7) (fun _ _ => inl (Error (lit "embedding failed")))
              (fun _ => inr tt) (lit "text") readyWorld) as (_ & _ & H & _).
  split; [reflexivity|].
  intros Hin. apply H in Hin. destruct Hin as (m & v & _ & _ & Hg). discriminate Hg.
Defined.

End ServiceProofs.
(* ================================================================== *)
(** * What the service reports: proofs *)
(* ================================================================== *)

Module CatalogueProofs.

Import Config Service Spec Fixtures ServiceProofs.

Lemma sameModel_iff (current : option jsstring) (name : jsstring) :
  sameModel current name = true <-> current = Some name.
Proof.
  destruct current as [n|]; cbn.
  - split; [intros H; now rewrite (streq_eq _ _ H)|].
    intros H. injection H as ->. apply streq_refl.
  - split; discriminate.
Qed.

Lemma entry_of_catalogue (w : World) (name : jsstring) (entry : Catalogue.ModelEntry) :
  In (name, entry) (Catalogue.getAvailableModels w) ->
  exists info,
    In (name, info) Catalogue.MODEL_INFO /\ entry = Catalogue.modelEntry w name info.
Proof.
  unfold Catalogue.getAvailableModels. intros H.
  apply in_map_iff in H as ([k info] & He & Hin). cbn [fst snd] in He.
  injection He as <- <-. now exists info.
Qed.

Lemma catalogue_has_url (name : jsstring) (info : Catalogue.ModelInfo) :
  In (name, info) Catalogue.MODEL_INFO -> exists url, lookup MODEL_URLS name = Some url.
Proof.
  unfold Catalogue.MODEL_INFO. cbn [In].
  intros [H|[H|[H|[H|[]]]]]; injection H as <- _; eexists; vm_compute; reflexivity.
Qed.

(** X22.  [getAvailableModels] lists exactly the models of
    [CONFIG.MODEL_INFO], in that order, each under its file name.  An
    entry is [downloaded] exactly when a file of that name exists - valid
    or not -, its [fileSize] is the size of that file, or 0 when there is
    none or it cannot be read, and it always has a download URL.  An entry
    is [isLoaded] exactly when its file name is the current model name, so
    at most one entry is, and none when the model loaded is not in the
    catalogue. *)
Theorem getAvailableModels_lists_catalogue (w : World) :
  map fst (Catalogue.getAvailableModels w) = map fst Catalogue.MODEL_INFO /\
  (forall name entry,
     In (name, entry) (Catalogue.getAvailableModels w) ->
     Catalogue.filename entry = name /\
     Catalogue.downloaded entry = existsSync w (modelPathOf w name) /\
     Catalogue.fileSize entry
     = match statSync w (modelPathOf w name) with
       | inr stats => size stats
       | inl _ => 0%Z
       end /\
     (Catalogue.isLoaded entry = true <-> currentModelName (globals w) = Some name) /\
     Catalogue.downloadUrl entry = lookup MODEL_URLS name /\
     exists url, lookup MODEL_URLS name = Some url) /\
  List.length (filter Catalogue.isLoaded (map snd (Catalogue.getAvailableModels w))) <= 1 /\
  (forall name,
     currentModelName (globals w) = Some name ->
     ~ In name (map fst Catalogue.MODEL_INFO) ->
     filter Catalogue.isLoaded (map snd (Catalogue.getAvailableModels w)) = []).
Proof.
  split; [|split; [|split]].
  - unfold Catalogue.getAvailableModels. rewrite map_map. reflexivity.
  - intros name entry Hin.
    destruct (entry_of_catalogue w name entry Hin) as (info & Hi & ->).
    unfold Catalogue.modelEntry.
    cbn [Catalogue.filename Catalogue.downloaded Catalogue.fileSize Catalogue.isLoaded
         Catalogue.downloadUrl].
    split; [reflexivity|]. split; [reflexivity|]. split; [|split; [|split]].
    + unfold existsSync, statSync.
      destruct (lookup (fs w) (modelPathOf w name)) as [[st|e]|]; reflexivity.
    + apply sameModel_iff.
    + reflexivity.
    + apply (catalogue_has_url name info Hi).
  - unfold Catalogue.getAvailableModels, Catalogue.MODEL_INFO.
    cbn [map fst snd Catalogue.modelEntry filter Catalogue.isLoaded].
    destruct (currentModelName (globals w)) as [n|]; cbn [sameModel]; [|cbn; lia].
    repeat match goal with
           | |- context [streq n ?k] =>
               let E := fresh "E" in
               destruct (streq n k) eqn:E;
               [apply streq_eq in E; subst n; vm_compute; lia|]
           end.
    cbn. lia.
  - intros name Hn Hout.
    unfold Catalogue.getAvailableModels, Catalogue.MODEL_INFO in *.
    cbn [map fst snd Catalogue.modelEntry filter Catalogue.isLoaded In] in *.
    rewrite Hn. cbn [sameModel].
    repeat match goal with
           | |- context [streq name ?k] =>
               let E := fresh "E" in
               destruct (streq name k) eqn:E;
               [apply streq_eq in E; exfalso; apply Hout; rewrite E; tauto|]
           end.
    reflexivity.
Qed.

(** X22 in the ready world of the samples: the model loaded is the only
    entry marked as loaded. *)
Lemma getAvailableModels_lists_catalogue_witness :
  map Catalogue.filename
      (filter Catalogue.isLoaded (map snd (Catalogue.getAvailableModels readyWorld)))
  = [qwenModel] /\
  List.length (filter Catalogue.isLoaded (map snd (Catalogue.getAvailableModels readyWorld))) <= 1.
Proof.
  destruct (getAvailableModels_lists_catalogue readyWorld) as (_ & _ & H & _).
  split; [vm_compute; reflexivity | exact H].
Defined.



End CatalogueProofs.
(* ================================================================== *)
(** * Cosine similarity: proofs *)
(* ================================================================== *)

Module SimilarityProofs.

Import Similarity.

Lemma SFmul_comm (prec emax : Z) (x y : spec_float) :
  SFmul prec emax x y = SFmul prec emax y x.
Proof.
  destruct x as [sx|sx| |sx mx ex], y as [sy|sy| |sy my ey]; cbn [SFmul];
    rewrite ?(xorb_comm sy sx); try reflexivity.
  now rewrite (Pos.mul_comm my mx), (Z.add_comm ey ex).
Qed.

Lemma float_mul_comm (x y : float) : (x * y = y * x)%float.
Proof. apply Prim2SF_inj. rewrite !FloatAxioms.mul_spec. apply SFmul_comm. Qed.

(** Swapping the two vectors swaps the two norms and keeps the dot
    product, bit for bit. *)
Lemma fold_accumulate_swap (a : list float) :
  forall (b : list float) (dotProduct normA normB : float),
    fold_left accumulate (combine b a) (dotProduct, normB, normA)
    = let '(d, na, nb) := fold_left accumulate (combine a b) (dotProduct, normA, normB) in
      (d, nb, na).
Proof.
  induction a as [|x a IH]; intros [|y b] d na nb; try reflexivity.
  cbn [combine fold_left accumulate]. rewrite (float_mul_comm y x). apply IH.
Qed.

(** X24.  [cosineSimilarity] is symmetric in double precision, exactly:
    for any two arrays of numbers, of equal length or not, swapping the
    arguments gives the same double (or NaN in both cases). *)
Theorem cosineSimilarity_symmetric (a b : list float) :
  cosineSimilarity a b = cosineSimilarity b a.
Proof.
  unfold cosineSimilarity. rewrite (Nat.eqb_sym (List.length b) (List.length a)).
  destruct (Nat.eqb (List.length a) (List.length b)); [|reflexivity]. cbn [negb].
  rewrite (fold_accumulate_swap a b).
  destruct (fold_left accumulate (combine a b) (0, 0, 0)%float) as [[d na] nb].
  now rewrite (float_mul_comm (PrimFloat.sqrt nb) (PrimFloat.sqrt na)).
Qed.

Lemma eqb_zero (x : float) :
  (x =? 0)%float = true -> exists s, Prim2SF x = S754_zero s.
Proof.
  rewrite FloatAxioms.eqb_spec. change (Prim2SF 0%float) with (S754_zero false).
  destruct (Prim2SF x) as [s|s| |s m e]; cbn; intros H; try discriminate H;
    try (destruct s; discriminate H).
  now exists s.
Qed.

Lemma is_nan_intro (x : float) : Prim2SF x = S754_nan -> PrimFloat.is_nan x = true.
Proof. intros H. unfold PrimFloat.is_nan. now rewrite FloatAxioms.eqb_spec, H. Qed.

Lemma zero_times (s : bool) (y : spec_float) : Spec.zeroOrNaN (SF64mul (S754_zero s) y).
Proof. destruct y as [sy|sy| |sy my ey]; exact I. Qed.

Lemma zero_plus_zero (x y : spec_float) :
  Spec.zeroOrNaN x -> Spec.zeroOrNaN y -> Spec.zeroOrNaN (SF64add x y).
Proof.
  destruct x as [sx|sx| |sx mx ex], y as [sy|sy| |sy my ey]; try contradiction; intros _ _;
    try exact I.
  destruct sx, sy; exact I.
Qed.

Lemma zero_over_zero (x y : spec_float) :
  Spec.zeroOrNaN x -> Spec.zeroOrNaN y -> SF64div x y = S754_nan.
Proof.
  destruct x as [sx|sx| |sx mx ex], y as [sy|sy| |sy my ey]; try contradiction; reflexivity.
Qed.

(** With a first vector of zeros, the dot product stays a zero or NaN and
    the first norm stays +0. *)
Lemma fold_accumulate_zero (a : list float) :
  Forall (fun x => (x =? 0)%float = true) a ->
  forall (b : list float) (dotProduct normA normB : float),
    Spec.zeroOrNaN (Prim2SF dotProduct) ->
    Prim2SF normA = S754_zero false ->
    let '(d, na, nb) := fold_left accumulate (combine a b) (dotProduct, normA, normB) in
    Spec.zeroOrNaN (Prim2SF d) /\ Prim2SF na = S754_zero false.
Proof.
  induction 1 as [|x a Hx _ IH]; intros b d na nb Hd Hna.
  - cbn. now split.
  - destruct b as [|y b]; [cbn; now split|].
    cbn [combine fold_left accumulate]. apply IH.
    + destruct (eqb_zero x Hx) as [s Hs].
      rewrite FloatAxioms.add_spec, FloatAxioms.mul_spec, Hs. apply zero_plus_zero; [exact Hd|apply zero_times].
    + destruct (eqb_zero x Hx) as [s Hs].
      rewrite FloatAxioms.add_spec, FloatAxioms.mul_spec, Hna, Hs. now destruct s.
Qed.

(** X25.  [cosineSimilarity] returns 0 for arrays of different lengths,
    and NaN - not a score between 0 and 1 - whenever the first array
    holds nothing but zeros (of either sign), whatever the second one
    holds; in particular for two empty arrays. *)
Theorem cosineSimilarity_degenerate (a b : list float) :
  (List.length a <> List.length b -> cosineSimilarity a b = 0%float) /\
  (List.length a = List.length b ->
   Forall (fun x => (x =? 0)%float = true) a ->
   PrimFloat.is_nan (cosineSimilarity a b) = true).
Proof.
  split.
  - intros H. unfold cosineSimilarity. apply Nat.eqb_neq in H. now rewrite H.
  - intros Hlen Hz. unfold cosineSimilarity. rewrite Hlen, Nat.eqb_refl. cbn [negb].
    pose proof (fold_accumulate_zero a Hz b 0%float 0%float 0%float I eq_refl) as H.
    destruct (fold_left accumulate (combine a b) (0, 0, 0)%float) as [[d na] nb].
    destruct H as [Hd Hna].
    apply is_nan_intro. rewrite FloatAxioms.div_spec, FloatAxioms.mul_spec, !FloatAxioms.sqrt_spec, Hna.
    apply zero_over_zero; [exact Hd|]. apply zero_times.
Qed.

(** X25 for a zero vector against a unit vector. *)
Lemma cosineSimilarity_degenerate_witness :
  PrimFloat.is_nan (cosineSimilarity [0%float; (-0)%float] [1%float; 0%float]) = true.
Proof.
  destruct (cosineSimilarity_degenerate [0%float; (-0)%float] [1%float; 0%float]) as [_ H].
  apply H; [reflexivity|].
  constructor; [reflexivity|]. constructor; [vm_compute; reflexivity|]. constructor.
Defined.

End SimilarityProofs.
